(** * MRzeroCore.simulation.main_pass: the main pass over a phase distribution graph

    A shallow embedding of [execute_graph] (and of its helpers [rigid_motion]
    and [calc_mag]) from [python/MRzeroCore/simulation/main_pass.py], followed
    by the properties of the pass.

    Conventions of the embedding.
    - Tensor entries are exact reals ([R]) and pairs of reals ([C]); the
      rounding of the arithmetic is outside the model.  Decimal literals of
      the source are kept as the decimal numbers they denote; [to_single]
      tells which single-precision number such a literal stands for.
    - A tensor with a voxel axis is a function of the voxel index; the event
      and coil axes are lists, because masks, prefix sums and shapes along
      those axes matter to the pass.
    - Python objects that are mutated through references (the nodes of the
      graph) live in a store indexed by node identity; the immutable
      attributes of a node are looked up by the same identity.
    - A raised exception is an [Err] result; the pass stops at the first one. *)

From Stdlib Require Import String.
From Stdlib Require Import Reals Lra Lia List Bool Arith ZArith.
Import ListNotations.

Open Scope R_scope.

(** ** Complex numbers *)

Module Cx.

Definition C : Type := (R * R)%type.

Definition re (z : C) : R := fst z.
Definition im (z : C) : R := snd z.

Definition C0 : C := (0, 0).
Definition C1 : C := (1, 0).
Definition of_R (x : R) : C := (x, 0).
(** The Python literal [aj] for a real [a]. *)
Definition imag (a : R) : C := (0, a).

Definition add (a b : C) : C := (re a + re b, im a + im b).
Definition opp (a : C) : C := (- re a, - im a).
Definition sub (a b : C) : C := add a (opp b).
Definition mul (a b : C) : C :=
  (re a * re b - im a * im b, re a * im b + im a * re b).
Definition conj (a : C) : C := (re a, - im a).
Definition abs (a : C) : R := sqrt (re a * re a + im a * im a).

(** [torch.atan2], the two-argument arc tangent behind [Tensor.angle]. *)
Definition atan2 (y x : R) : R :=
  if Rlt_dec 0 x then atan (y / x)
  else if Rlt_dec x 0 then
    (if Rle_dec 0 y then atan (y / x) + PI else atan (y / x) - PI)
  else if Rlt_dec 0 y then PI / 2
  else if Rlt_dec y 0 then - PI / 2
  else 0.

Definition angle (a : C) : R := atan2 (im a) (re a).

(** [torch.exp] on a complex argument. *)
Definition cexp (a : C) : C := (exp (re a) * cos (im a), exp (re a) * sin (im a)).

End Cx.

Import Cx.

(** ** Small vectors *)

Record vec3 : Type := V3 { vx : R; vy : R; vz : R }.
Record vec4 : Type := V4 { kx : R; ky : R; kz : R; tau : R }.
(** A 3 x 3 matrix by rows. *)
Record mat3 : Type := M3 { row0 : vec3; row1 : vec3; row2 : vec3 }.

Definition v3_zero : vec3 := V3 0 0 0.
Definition v3_ones : vec3 := V3 1 1 1.
Definition v3_add (a b : vec3) : vec3 := V3 (vx a + vx b) (vy a + vy b) (vz a + vz b).
Definition v3_sub (a b : vec3) : vec3 := V3 (vx a - vx b) (vy a - vy b) (vz a - vz b).
Definition v3_mul (a b : vec3) : vec3 := V3 (vx a * vx b) (vy a * vy b) (vz a * vz b).
Definition v3_recip (a : vec3) : vec3 := V3 (1 / vx a) (1 / vy a) (1 / vz a).
Definition v3_sum (a : vec3) : R := vx a + vy a + vz a.
Definition v3_dot (a b : vec3) : R := v3_sum (v3_mul a b).
(** [torch.linalg.vector_norm]: the 2-norm. *)
Definition v3_norm (a : vec3) : R := sqrt (v3_sum (v3_mul a a)).
(** [pos @ rot] for one row vector: entry [j] is the sum over [i] of
    [pos_i * rot_ij]. *)
Definition v3_times_mat (p : vec3) (m : mat3) : vec3 :=
  V3 (vx p * vx (row0 m) + vy p * vx (row1 m) + vz p * vx (row2 m))
     (vx p * vy (row0 m) + vy p * vy (row1 m) + vz p * vy (row2 m))
     (vx p * vz (row0 m) + vy p * vz (row1 m) + vz p * vz (row2 m)).

Definition v4_zero : vec4 := V4 0 0 0 0.
Definition v4_add (a b : vec4) : vec4 :=
  V4 (kx a + kx b) (ky a + ky b) (kz a + kz b) (tau a + tau b).
Definition v4_scale (c : R) (a : vec4) : vec4 :=
  V4 (c * kx a) (c * ky a) (c * kz a) (c * tau a).
(** The slice [[:3]] of a k-tau vector. *)
Definition spatial (a : vec4) : vec3 := V3 (kx a) (ky a) (kz a).

(** ** Exceptions and results *)

(** An exception the source raises itself carries the message the source
    gives it: the text built at line 169, and the empty message of the
    [assert] of line 134, which names none.  [CatOfNothing] is what
    [torch.cat] raises for an empty list; its Python class and its text are
    those of the installed torch release, which the source does not fix. *)
Inductive error : Type :=
| ValueError (msg : string)
| AssertionError (msg : string)
| IndexError
| TypeError
| CatOfNothing.

Inductive result (A : Type) : Type :=
| Ok (a : A)
| Err (e : error).
Arguments Ok {A} a.
Arguments Err {A} e.

Definition bind {A B : Type} (r : result A) (f : A -> result B) : result B :=
  match r with
  | Ok a => f a
  | Err e => Err e
  end.

Notation "'do' x <- r ; k" := (bind r (fun x => k))
  (at level 10, x name, r at level 100, k at level 200).

Fixpoint mapM {A B : Type} (f : A -> result B) (l : list A) : result (list B) :=
  match l with
  | [] => Ok []
  | x :: t => do y <- f x; do ys <- mapM f t; Ok (y :: ys)
  end.

Fixpoint foldM {A S : Type} (f : A -> S -> result S) (l : list A) (s : S) : result S :=
  match l with
  | [] => Ok s
  | x :: t => do s' <- f x s; foldM f t s'
  end.

(** ** Tensors along the voxel, event and coil axes *)

Definition voxel : Type := nat.
(** Real and complex tensors with one voxel axis. *)
Definition rten : Type := voxel -> R.
Definition cten : Type := voxel -> C.

Definition t_zero : cten := fun _ => C0.
Definition t_add (a b : cten) : cten := fun v => add (a v) (b v).
Definition t_mul (a b : cten) : cten := fun v => mul (a v) (b v).
Definition t_mul_r (a : cten) (b : rten) : cten := fun v => mul (a v) (of_R (b v)).
Definition t_conj (a : cten) : cten := fun v => conj (a v).

(** [t.sum(0)] for a tensor whose first axis is a list. *)
Definition sum0 (l : list cten) : cten :=
  fun v => fold_right (fun f acc => add (f v) acc) C0 l.

(** Row-wise combination of two tensors that share their first axis. *)
Fixpoint map2 {A B D : Type} (f : A -> B -> D) (l : list A) (m : list B) : list D :=
  match l, m with
  | x :: l', y :: m' => f x y :: map2 f l' m'
  | _, _ => []
  end.

(** Boolean-mask indexing [t[mask]] along the first axis. *)
Fixpoint mask_select {A : Type} (m : list bool) (l : list A) : list A :=
  match m, l with
  | b :: m', x :: l' => if b then x :: mask_select m' l' else mask_select m' l'
  | _, _ => []
  end.

Definition count_true (m : list bool) : nat := length (filter (fun b => b) m).

(** [torch.cumsum] along the first axis. *)
Fixpoint cumsum_from {A : Type} (plus : A -> A -> A) (acc : A) (l : list A) : list A :=
  match l with
  | [] => []
  | x :: t => plus acc x :: cumsum_from plus (plus acc x) t
  end.

Definition cumsum {A : Type} (plus : A -> A -> A) (l : list A) : list A :=
  match l with
  | [] => []
  | x :: t => x :: cumsum_from plus x t
  end.

(** The last row [t[-1]], absent when the first axis is empty. *)
Fixpoint last_row {A : Type} (l : list A) : option A :=
  match l with
  | [] => None
  | [x] => Some x
  | _ :: t => last_row t
  end.

(** A complex tensor of shape rows x cols; the column count is kept with
    it, since a tensor may have no rows. *)
Record tensor2 : Type := Tensor2 { t_rows : list (list C); t_cols : nat }.

(** [torch.zeros(n, c)]. *)
Definition zeros2 (n c : nat) : tensor2 := Tensor2 (repeat (repeat C0 c) n) c.

(** Sum of a complex row over the voxels [0 .. n-1]. *)
Fixpoint sum_voxels (n : nat) (f : cten) : C :=
  match n with
  | O => C0
  | S k => add (sum_voxels k f) (f k)
  end.

(** ** Phantom and scanner data, sequence, graph *)

Record SimData : Type := {
  PD : rten;
  T1 : rten;
  T2 : rten;
  T2dash : rten;
  D : rten;
  B0 : rten;
  (** [PD.numel()] *)
  voxel_count : nat;
  (** coils x voxels *)
  coil_sens : list cten;
  (** transmit coils x voxels *)
  B1 : list cten;
  voxel_pos : voxel -> vec3;
  size : vec3;
  nyquist : vec3;
  (** Acts row by row on the k vectors it is given. *)
  dephasing_func : vec3 -> vec3 -> R;
  (** Both motion functions act entry by entry on the time tensor. *)
  voxel_motion : option (R -> voxel -> vec3);
  phantom_motion : option (R -> mat3 * vec3)
}.

Record Pulse : Type := {
  angle : R;
  phase : R;
  (** one row (amplitude, phase) per shim channel *)
  shim_array : list (R * R)
}.

Record Event : Type := {
  gradm : vec3;
  event_time : R;
  adc_usage : Z;
  adc_phase : R
}.

Record Repetition : Type := {
  pulse : Pulse;
  events : list Event
}.

Record Sequence : Type := {
  normalized_grads : bool;
  reps : list Repetition
}.

Definition node_id : Type := nat.

(** The attributes of a distribution that the pass only reads. *)
Record Distribution : Type := {
  dist_type : string;
  latent_signal : R;
  emitted_signal : R;
  ancestors : list (string * node_id)
}.

(** The two attributes the pass writes. *)
Record NodeState : Type := {
  mag : option cten;
  kt_vec : vec4
}.

Definition store : Type := node_id -> NodeState.

Definition upd (s : store) (d : node_id) (x : NodeState) : store :=
  fun j => if Nat.eqb j d then x else s j.

Definition set_mag (s : store) (d : node_id) (m : option cten) : store :=
  upd s d {| mag := m; kt_vec := kt_vec (s d) |}.

Definition set_kt_vec (s : store) (d : node_id) (k : vec4) : store :=
  upd s d {| mag := mag (s d); kt_vec := k |}.

(** ** [rigid_motion] *)

Definition rigid_motion (voxel_pos : voxel -> vec3) (motion_func : R -> mat3 * vec3)
  : R -> voxel -> vec3 :=
  fun time v =>
    let '(rot, offset) := motion_func time in
    v3_add (v3_times_mat (voxel_pos v) rot) offset.

(** ** RF rotation coefficients (lines 126-153) *)

Record RFCoeffs : Type := {
  z_to_z : rten;
  p_to_p : rten;
  z_to_p : cten;
  p_to_z : cten;
  m_to_z : cten;
  m_to_p : cten
}.

(** [shim_array[:, 0] * torch.exp(-1j * shim_array[:, 1])] *)
Definition shim_weight (row : R * R) : C :=
  mul (of_R (fst row)) (cexp (mul (imag (-1)) (of_R (snd row)))).

(** 1Tx or pTx: the combined transmit field. *)
Definition combined_B1 (data : SimData) (p : Pulse) : result cten :=
  if Nat.eqb (length (shim_array p)) 1 then Ok (sum0 (B1 data))
  else if Nat.eqb (length (shim_array p)) (length (B1 data)) then
    let shim := map shim_weight (shim_array p) in
    Ok (sum0 (map2 (fun b s => fun v => mul (b v) s) (B1 data) shim))
  else Err (AssertionError "").

Definition rf_coeffs_of (b1 : cten) (p : Pulse) : RFCoeffs :=
  let angle' : rten := fun v => angle p * abs (b1 v) in
  let phase' : rten := fun v => phase p + Cx.angle (b1 v) in
  let z_to_z : rten := fun v => cos (angle' v) in
  let p_to_p : rten := fun v => cos (angle' v / 2) ^ 2 in
  let z_to_p : cten := fun v =>
    mul (mul (imag (-0.70710678118)) (of_R (sin (angle' v))))
        (cexp (mul (imag 1) (of_R (phase' v)))) in
  {| z_to_z := z_to_z;
     p_to_p := p_to_p;
     z_to_p := z_to_p;
     p_to_z := fun v => opp (conj (z_to_p v));
     m_to_z := fun v => opp (z_to_p v);
     m_to_p := fun v =>
       mul (of_R (1 - p_to_p v)) (cexp (mul (imag 2) (of_R (phase' v)))) |}.

Definition rf_coefficients (data : SimData) (p : Pulse) : result RFCoeffs :=
  do b1 <- combined_B1 data p; Ok (rf_coeffs_of b1 p).

(** ** Comparisons of Python floats *)

Definition Rltb (a b : R) : bool := if Rlt_dec a b then true else false.
Definition Rleb (a b : R) : bool := if Rle_dec a b then true else false.

Definition is_some {A : Type} (o : option A) : bool :=
  match o with Some _ => true | None => false end.

(** ** The pass *)

(** What is fixed for one repetition before its distributions are visited
    (lines 126-215). *)
Record RepCtx : Type := {
  c_coeffs : RFCoeffs;
  c_adc : list bool;
  c_trajectory : list vec4;
  c_dt : list R;
  c_total_time : R;
  c_r1 : rten;
  c_r2 : rten;
  c_adc_rot : list C;
  (** [None] stands for the Python integer [0]. *)
  c_motion_phase : option (list rten)
}.

(** The variables the loop over the distributions of one repetition updates. *)
Record DistLoop : Type := {
  dl_store : store;
  dl_rep_sig : tensor2;
  dl_mag_adc_rep : list (list cten)
}.

(** The variables the loop over the repetitions updates. *)
Record LoopState : Type := {
  ls_store : store;
  ls_t0 : R;
  ls_signal : list tensor2;
  ls_mag_adc : list (list (list cten))
}.

(** What the caller has after the call: the returned signal, the measured
    magnetisation when it was asked for, and the graph as the pass left it. *)
Record Output : Type := {
  out_signal : tensor2;
  out_mag_adc : option (list (list (list cten)));
  out_store : store
}.

(** [torch.cat] of tensors that agree on their column count; it raises on an
    empty list. *)
Definition cat (l : list tensor2) : result tensor2 :=
  match l with
  | [] => Err CatOfNothing
  | t :: _ => Ok (Tensor2 (concat (map t_rows l)) (t_cols t))
  end.

Section Pass.

Variable nodes : node_id -> Distribution.
Variable data : SimData.
Variable min_emitted_signal min_latent_signal : R.
Variable return_mag_adc clear_state_mag : bool.

(** Lines 91-93. *)
Definition voxel_pos_func : option (R -> voxel -> vec3) :=
  match voxel_motion data with
  | Some f => Some f
  | None =>
      match phantom_motion data with
      | Some m => Some (rigid_motion (voxel_pos data) m)
      | None => None
      end
  end.

(** Lines 95-98. *)
Definition grad_scale (seq : Sequence) : vec3 :=
  if normalized_grads seq then v3_recip (size data) else v3_ones.

(** Lines 102-105; one entry per receive coil. *)
Definition coil_sensitivity : list cten :=
  map (fun cs : cten => fun v => mul (cs v) (of_R (Rabs (PD data v)))) (coil_sens data).

Definition coil_count : nat := length coil_sensitivity.

Definition scaled_gradm (gs : vec3) (rep : Repetition) : list vec3 :=
  map (fun e => v3_mul (gradm e) gs) (events rep).

(** Lines 202-214. *)
Definition motion_phase_of (gs : vec3) (t0 : R) (rep : Repetition)
    (trajectory : list vec4) : option (list rten) :=
  match voxel_pos_func with
  | None => None
  | Some f =>
      let time := map (fun x => t0 + x) (0 :: map tau trajectory) in
      let mid := map2 (fun a b => (a + b) / 2) (removelast time) (tl time) in
      let voxel_traj : list (voxel -> vec3) :=
        map (fun t => fun v => v3_sub (f t v) (voxel_pos data v)) mid in
      Some (cumsum (fun (a b : rten) => fun v => a v + b v)
              (map2 (fun (vt : voxel -> vec3) g => fun v => v3_dot (vt v) g)
                 voxel_traj (scaled_gradm gs rep)))
  end.

Definition rep_ctx (gs : vec3) (t0 : R) (rep : Repetition) : result RepCtx :=
  do coeffs <- rf_coefficients data (pulse rep);
  let trajectory :=
    cumsum v4_add
      (map (fun e => let g := v3_mul (gradm e) gs in
                     V4 (vx g) (vy g) (vz g) (event_time e))
         (events rep)) in
  let total_time := fold_right Rplus 0 (map event_time (events rep)) in
  Ok {| c_coeffs := coeffs;
        c_adc := map (fun e => Z.ltb 0 (adc_usage e)) (events rep);
        c_trajectory := trajectory;
        c_dt := map event_time (events rep);
        c_total_time := total_time;
        c_r1 := fun v => exp (- total_time / Rabs (T1 data v));
        c_r2 := fun v => exp (- total_time / Rabs (T2 data v));
        c_adc_rot := map (fun e => cexp (mul (imag 1) (of_R (adc_phase e)))) (events rep);
        c_motion_phase := motion_phase_of gs t0 rep trajectory |}.

(** Line 155-169. *)
Definition calc_mag (c : RFCoeffs) (s : store) (ancestor : string * node_id)
  : result cten :=
  let label := fst ancestor in
  let parent := mag (s (snd ancestor)) in
  let times (k : cten) :=
    match parent with Some m => Ok (t_mul m k) | None => Err TypeError end in
  let conj_times (k : cten) :=
    match parent with Some m => Ok (t_mul (t_conj m) k) | None => Err TypeError end in
  if (label =? "zz")%string then times (fun v => of_R (z_to_z c v))
  else if (label =? "++")%string then times (fun v => of_R (p_to_p c v))
  else if (label =? "z+")%string then times (z_to_p c)
  else if (label =? "+z")%string then times (p_to_z c)
  else if (label =? "-z")%string then conj_times (m_to_z c)
  else if (label =? "-+")%string then conj_times (m_to_p c)
  else Err (ValueError ("Unknown transform " ++ label)).

(** Lines 227-229: the ancestors that were simulated. *)
Definition simulated (s : store) (anc : list (string * node_id))
  : list (string * node_id) :=
  filter (fun edge => is_some (mag (s (snd edge)))) anc.

(** Line 236: [sum] starts from the integer [0]. *)
Definition sum_mags (c : RFCoeffs) (s : store) (anc : list (string * node_id))
  : result cten :=
  do ms <- mapM (calc_mag c s) anc; Ok (fold_left t_add ms t_zero).

(** Lines 259-264. *)
Definition new_kt_vec (s : store) (dtype : string) (anc : list (string * node_id))
  : result vec4 :=
  if (dtype =? "z0")%string then Ok v4_zero
  else
    match anc with
    | [] => Err IndexError
    | (label, parent) :: _ =>
        if (label =? "-+")%string || (label =? "-z")%string
        then Ok (v4_scale (-1.0) (kt_vec (s parent)))
        else Ok (kt_vec (s parent))
    end.

(** Lines 287-295: the b factor of every event. *)
Definition b_factors (ctx : RepCtx) (kt : vec4) (dist_traj : list vec4)
  : result (list R) :=
  let k2 := map spatial dist_traj in
  match k2 with
  | [] => Err IndexError
  | _ :: _ =>
      let k1 := spatial kt :: removelast k2 in
      Ok (map2
            (fun dt (k : vec3 * vec3) =>
               let (a, b) := k in
               1 / 3 * (2 * PI) ^ 2 * dt
               * v3_sum (v3_add (v3_add (v3_mul a a) (v3_mul a b)) (v3_mul b b)))
            (c_dt ctx) (combine k1 k2))
  end.

(** Line 316. *)
Definition diffusion_of (b : list R) : list rten :=
  map (fun cb : R => fun v => exp (- 1e-9 * D data v * cb)) (cumsum Rplus b).

(** Lines 346-364: the rotation of the signal at the ADC samples. *)
Definition adc_rot_term (t : vec4) (motion : R) (v : voxel) : C :=
  cexp (mul (mul (imag 2) (of_R PI))
          (of_R (tau t * B0 data v + v3_dot (spatial t) (voxel_pos data v) + motion))).

Definition signal_rot (ctx : RepCtx) (adc_dist_traj : list vec4) : list cten :=
  match option_map (mask_select (c_adc ctx)) (c_motion_phase ctx) with
  | Some adc_motion_phase =>
      map2 (fun t (ph : rten) => fun v => adc_rot_term t (ph v) v)
        adc_dist_traj adc_motion_phase
  | None => map (fun t => fun v => adc_rot_term t 0 v) adc_dist_traj
  end.

(** Lines 346-379. *)
Definition transverse_mag (ctx : RepCtx) (m : cten) (dist_traj : list vec4)
    (diffusion : list rten) : list cten :=
  let adc := c_adc ctx in
  let adc_dist_traj := mask_select adc dist_traj in
  let T2 : list rten :=
    map (fun t => fun v => exp (- tau t / Rabs (T2 data v)))
      (mask_select adc (c_trajectory ctx)) in
  let T2dash : list rten :=
    map (fun t => fun v => exp (- Rabs (tau t) / Rabs (T2dash data v))) adc_dist_traj in
  let rot := signal_rot ctx adc_dist_traj in
  let dephasing : list R :=
    map (fun t => dephasing_func data (spatial t) (nyquist data)) adc_dist_traj in
  let a1 := map (fun r : cten => fun v => mul (mul (of_R 1.41421356237) (m v)) (r v)) rot in
  let a2 := map2 t_mul_r a1 T2 in
  let a3 := map2 t_mul_r a2 T2dash in
  let a4 := map2 t_mul_r a3 (mask_select adc diffusion) in
  map2 (fun (a : cten) (d : R) => fun v => mul (a v) (of_R d)) a4 dephasing.

(** Line 386: (events x voxels) @ (voxels x coils). *)
Definition dist_signal (tm : list cten) : tensor2 :=
  Tensor2
    (map (fun row => map (fun cs => sum_voxels (voxel_count data) (t_mul row cs))
                       coil_sensitivity) tm)
    coil_count.

(** Line 387: the in-place sum keeps the shape of its left operand. *)
Definition add_inplace (a b : tensor2) : tensor2 :=
  Tensor2 (map2 (map2 add) (t_rows a) (t_rows b)) (t_cols a).

(** Lines 380-383. *)
Definition measured_mag (ctx : RepCtx) (tm : list cten) : list cten :=
  map2 (fun (r : C) (row : cten) => fun v => mul (mul r (row v)) (of_R (Rabs (PD data v))))
    (mask_select (c_adc ctx) (c_adc_rot ctx)) tm.

(** Lines 393-404: the magnetisation and k-tau vector a distribution hands
    to the next repetition. *)
Definition carry_over (ctx : RepCtx) (dtype : string) (m : cten) (kt : vec4)
    (dist_traj : list vec4) (diffusion : list rten) : result (cten * vec4) :=
  do mk <-
    (if (dtype =? "+")%string then
       match last_row diffusion with
       | None => Err IndexError
       | Some dlast =>
           let m1 := t_mul_r (t_mul_r m (c_r2 ctx)) dlast in
           do m2 <-
             match c_motion_phase ctx with
             | Some mp =>
                 match last_row mp with
                 | None => Err IndexError
                 | Some plast =>
                     Ok (t_mul m1
                           (fun v => cexp (mul (mul (imag 2) (of_R PI)) (of_R (plast v)))))
                 end
             | None => Ok m1
             end;
           match last_row dist_traj with
           | None => Err IndexError
           | Some tlast => Ok (m2, tlast)
           end
       end
     else
       let k := v3_norm (spatial kt) in
       let diffusion' : rten := fun v => exp (- 1e-9 * D data v * c_total_time ctx * k ^ 2) in
       Ok (t_mul_r (t_mul_r m (c_r1 ctx)) diffusion', kt));
  let (m', kt') := (mk : cten * vec4) in
  if (dtype =? "z0")%string
  then Ok ((fun v => sub (add (m' v) (of_R 1)) (of_R (c_r1 ctx v))) : cten, kt')
  else Ok (m', kt').

(** Lines 345-387: what a distribution adds to the signal of the repetition. *)
Definition measure (ctx : RepCtx) (nd : Distribution) (m : cten)
    (dist_traj : list vec4) (diffusion : list rten) (st : DistLoop)
  : tensor2 * list (list cten) :=
  if (dist_type nd =? "+")%string && Rleb min_emitted_signal (emitted_signal nd) then
    let tm := transverse_mag ctx m dist_traj diffusion in
    (add_inplace (dl_rep_sig st) (dist_signal tm),
     if return_mag_adc then dl_mag_adc_rep st ++ [measured_mag ctx tm]
     else dl_mag_adc_rep st)
  else (dl_rep_sig st, dl_mag_adc_rep st).

(** Whether lines 231-234 skip the distribution. *)
Definition skipped (s : store) (d : node_id) : bool :=
  let nd := nodes d in
  (negb (dist_type nd =? "z0")%string && Rltb (latent_signal nd) min_latent_signal)
  || (negb (dist_type nd =? "z0")%string
      && Nat.eqb (length (simulated s (ancestors nd))) 0).

(** Lines 225-404: the body of the loop over the distributions. *)
Definition exec_dist (ctx : RepCtx) (d : node_id) (st : DistLoop) : result DistLoop :=
  let nd := nodes d in
  let s := dl_store st in
  let anc := simulated s (ancestors nd) in
  if skipped s d then Ok st
  else
    do m <- sum_mags (c_coeffs ctx) s anc;
    do kt <- new_kt_vec s (dist_type nd) anc;
    let dist_traj := map (v4_add kt) (c_trajectory ctx) in
    do b <- b_factors ctx kt dist_traj;
    let diffusion := diffusion_of b in
    let (sig, madc) := measure ctx nd m dist_traj diffusion st in
    do mk <- carry_over ctx (dist_type nd) m kt dist_traj diffusion;
    Ok {| dl_store := upd s d {| mag := Some (fst mk); kt_vec := snd mk |};
          dl_rep_sig := sig;
          dl_mag_adc_rep := madc |}.

(** Lines 440-443. *)
Definition clear_mags (dists : list node_id) (s : store) : store :=
  fold_left
    (fun s d => fold_left (fun s ancestor => set_mag s (snd ancestor) None)
                  (ancestors (nodes d)) s)
    dists s.

(** Line 407. *)
Definition rotate_signal (ctx : RepCtx) (rep_sig : tensor2) : tensor2 :=
  Tensor2
    (map2 (fun row (r : C) => map (fun x => mul x r) row)
       (t_rows rep_sig) (mask_select (c_adc ctx) (c_adc_rot ctx)))
    (t_cols rep_sig).

(** Lines 122-443: the body of the loop over the repetitions. *)
Definition exec_rep (gs : vec3) (pr : list node_id * Repetition) (ls : LoopState)
  : result LoopState :=
  let (dists, rep) := pr in
  do ctx <- rep_ctx gs (ls_t0 ls) rep;
  do st <- foldM (exec_dist ctx) dists
             {| dl_store := ls_store ls;
                dl_rep_sig := zeros2 (count_true (c_adc ctx)) coil_count;
                dl_mag_adc_rep := [] |};
  Ok {| ls_store := if clear_state_mag then clear_mags dists (dl_store st)
                    else dl_store st;
        ls_t0 := ls_t0 ls + c_total_time ctx;
        ls_signal := ls_signal ls ++ [rotate_signal ctx (dl_rep_sig st)];
        ls_mag_adc := ls_mag_adc ls ++ [dl_mag_adc_rep st] |}.

(** Lines 108-118: the fully relaxed (or injected) state of the first
    repetition. *)
Definition init_state (root : node_id) (intitial_mag : option cten) (s0 : store)
  : LoopState :=
  let m : cten :=
    match intitial_mag with
    | None => fun _ => of_R 1
    | Some m => m
    end in
  {| ls_store := set_kt_vec (set_mag s0 root (Some m)) root v4_zero;
     ls_t0 := 0;
     ls_signal := [];
     ls_mag_adc := [] |}.

(** [zip(graph[1:], seq)]. *)
Definition paired (graph : list (list node_id)) (seq : Sequence)
  : list (list node_id * Repetition) :=
  combine (tl graph) (reps seq).

Definition run_reps (seq : Sequence) (prs : list (list node_id * Repetition))
    (ls : LoopState) : result LoopState :=
  foldM (exec_rep (grad_scale seq)) prs ls.

(** [execute_graph]; the progress output is not part of the model. *)
Definition execute_graph (graph : list (list node_id)) (seq : Sequence)
    (intitial_mag : option cten) (s0 : store) : result Output :=
  match graph with
  | (root :: _) :: _ =>
      do ls <- run_reps seq (paired graph seq) (init_state root intitial_mag s0);
      do sig <- cat (ls_signal ls);
      Ok {| out_signal := sig;
            out_mag_adc := if return_mag_adc then Some (ls_mag_adc ls) else None;
            out_store := ls_store ls |}
  | _ => Err IndexError
  end.

End Pass.

(** ** The RF mixing calculator as the specification words it *)

(** Combined B1: the sum over coils of transmit field times shim weight when
    more than one shim channel is active, the field sum otherwise. *)
Definition spec_combined_B1 (data : SimData) (p : Pulse) : cten :=
  if Nat.ltb 1 (length (shim_array p))
  then sum0 (map2 (fun (b : cten) (row : R * R) => fun v => mul (b v) (shim_weight row))
               (B1 data) (shim_array p))
  else sum0 (B1 data).

Definition spec_angle (data : SimData) (p : Pulse) : rten :=
  fun v => angle p * abs (spec_combined_B1 data p v).

Definition spec_phase (data : SimData) (p : Pulse) : rten :=
  fun v => phase p + Cx.angle (spec_combined_B1 data p v).

(** The six coefficients, with [k] in the place of the factor one over the
    square root of two. *)
Definition spec_rf_coeffs (k : R) (data : SimData) (p : Pulse) : RFCoeffs :=
  let a := spec_angle data p in
  let phi := spec_phase data p in
  let zp : cten := fun v =>
    opp (mul (mul (mul (of_R k) (imag 1)) (of_R (sin (a v))))
           (cexp (mul (imag 1) (of_R (phi v))))) in
  let pp : rten := fun v => (cos (a v / 2))² in
  {| z_to_z := fun v => cos (a v);
     p_to_p := pp;
     z_to_p := zp;
     p_to_z := fun v => opp (conj (zp v));
     m_to_z := fun v => opp (zp v);
     m_to_p := fun v => mul (of_R (1 - pp v)) (cexp (mul (imag 2) (of_R (phi v)))) |}.

(** Two coefficient records agree at a voxel. *)
Definition coeffs_agree_at (c c' : RFCoeffs) (v : voxel) : Prop :=
  z_to_z c v = z_to_z c' v /\ p_to_p c v = p_to_p c' v /\
  z_to_p c v = z_to_p c' v /\ p_to_z c v = p_to_z c' v /\
  m_to_z c v = m_to_z c' v /\ m_to_p c v = m_to_p c' v.

(** ** Single precision *)

(** The tensors of the pass hold single-precision numbers ([torch.cfloat],
    and [torch.float] for the angles), and a Python scalar that meets one is
    taken in single precision.  From 1/2 up to 1 the single-precision
    numbers are the multiples of 2^-24; [to_single] gives the one nearest to
    a real of that range (the upper one at a tie). *)
Definition to_single (x : R) : R := IZR (up (x * 16777216 - 1 / 2)) / 16777216.

(** ** Example inputs *)

Module Examples.

(** One voxel at the origin, one transmit and one receive coil of unit
    sensitivity, no motion. *)
Definition phantom : SimData :=
  {| PD := fun _ => 1; T1 := fun _ => 1; T2 := fun _ => 1; T2dash := fun _ => 1;
     D := fun _ => 0; B0 := fun _ => 0;
     voxel_count := 1;
     coil_sens := [fun _ => C1];
     B1 := [fun _ => C1];
     voxel_pos := fun _ => v3_zero;
     size := v3_ones;
     nyquist := v3_ones;
     dephasing_func := fun _ _ => 1;
     voxel_motion := None;
     phantom_motion := None |}.

(** A 90 degree pulse of phase 0 on a single shim channel. *)
Definition pulse90 : Pulse :=
  {| angle := PI / 2; phase := 0; shim_array := [(1, 0)] |}.

(** The same pulse with three shim channels, for a phantom with one
    transmit coil. *)
Definition pulse_3ch : Pulse :=
  {| angle := PI / 2; phase := 0; shim_array := [(1, 0); (1, 0); (1, 0)] |}.

Definition event_adc : Event :=
  {| gradm := v3_zero; event_time := 1; adc_usage := 1; adc_phase := 0 |}.

Definition event_idle : Event :=
  {| gradm := v3_zero; event_time := 1; adc_usage := 0; adc_phase := 0 |}.

Definition rep90 : Repetition :=
  {| pulse := pulse90; events := [event_idle; event_adc] |}.

Definition rep_3ch : Repetition :=
  {| pulse := pulse_3ch; events := [event_idle; event_adc] |}.

Definition seq1 : Sequence := {| normalized_grads := false; reps := [rep90] |}.

(** Twice the same repetition. *)
Definition seq2 : Sequence := {| normalized_grads := false; reps := [rep90; rep90] |}.

(** A repetition of three events, the first and the last of them sampled. *)
Definition rep_ada : Repetition :=
  {| pulse := pulse90; events := [event_adc; event_idle; event_adc] |}.

(** Two repetitions with one and with two samples. *)
Definition seq_two : Sequence :=
  {| normalized_grads := false; reps := [rep90; rep_ada] |}.

(** Three repetitions, for a graph that runs out before them. *)
Definition seq_three : Sequence :=
  {| normalized_grads := false; reps := [rep90; rep_ada; rep_3ch] |}.


(** A store in which no distribution has been simulated yet. *)
Definition fresh_store : store := fun _ => {| mag := None; kt_vec := v4_zero |}.

End Examples.

(** ** The state evolver as the specification words it *)

(** The six transitions an RF pulse offers. *)
Inductive transition : Type := T_zz | T_pp | T_zp | T_pz | T_mz | T_mp.

Definition transition_of (label : string) : option transition :=
  if (label =? "zz")%string then Some T_zz
  else if (label =? "++")%string then Some T_pp
  else if (label =? "z+")%string then Some T_zp
  else if (label =? "+z")%string then Some T_pz
  else if (label =? "-z")%string then Some T_mz
  else if (label =? "-+")%string then Some T_mp
  else None.

(** The coefficient that belongs to a transition. *)
Definition coefficient (c : RFCoeffs) (t : transition) (v : voxel) : C :=
  match t with
  | T_zz => of_R (z_to_z c v)
  | T_pp => of_R (p_to_p c v)
  | T_zp => z_to_p c v
  | T_pz => p_to_z c v
  | T_mz => m_to_z c v
  | T_mp => m_to_p c v
  end.

(** The transitions that reverse the pathway. *)
Definition reverses (t : transition) : bool :=
  match t with
  | T_mz | T_mp => true
  | _ => false
  end.

(** What one ancestor contributes at a voxel. *)
Definition spec_contribution (c : RFCoeffs) (t : transition) (parent : cten)
    (v : voxel) : C :=
  mul (if reverses t then conj (parent v) else parent v) (coefficient c t v).

(** The sum of the contributions of the ancestors whose magnetisation is
    present. *)
Fixpoint spec_magnetization (c : RFCoeffs) (s : store)
    (anc : list (string * node_id)) (v : voxel) : C :=
  match anc with
  | [] => C0
  | (label, parent) :: rest =>
      match mag (s parent), transition_of label with
      | Some m, Some t =>
          add (spec_contribution c t m v) (spec_magnetization c s rest v)
      | _, _ => spec_magnetization c s rest v
      end
  end.

(** The first ancestor whose magnetisation is present. *)
Fixpoint first_surviving (s : store) (anc : list (string * node_id))
  : option (string * node_id) :=
  match anc with
  | [] => None
  | (label, parent) :: rest =>
      match mag (s parent) with
      | Some _ => Some (label, parent)
      | None => first_surviving s rest
      end
  end.

Definition v4_neg (a : vec4) : vec4 := V4 (- kx a) (- ky a) (- kz a) (- tau a).

(** The recomputed k-tau vector: zero for the equilibrium type, the negated
    vector of the first surviving ancestor behind a reversing label, a copy
    of it otherwise. *)
Definition spec_k_tau (s : store) (nd : Distribution) : option vec4 :=
  if (dist_type nd =? "z0")%string then Some v4_zero
  else
    match first_surviving s (ancestors nd) with
    | None => None
    | Some (label, parent) =>
        match transition_of label with
        | Some t => Some (if reverses t then v4_neg (kt_vec (s parent))
                          else kt_vec (s parent))
        | None => None
        end
    end.

(** A distribution is evaluated in a store when it is of the equilibrium
    type, or its latent signal reaches the threshold and one of its ancestors
    has a magnetisation. *)
Definition evaluated (nodes : node_id -> Distribution) (min_latent_signal : R)
    (s : store) (d : node_id) : Prop :=
  dist_type (nodes d) = "z0"%string \/
  (~ latent_signal (nodes d) < min_latent_signal /\
   exists e, In e (ancestors (nodes d)) /\ mag (s (snd e)) <> None).

(** ** Well-formed inputs *)

(** The repetition has at least one event. *)
Definition ctx_has_events (ctx : RepCtx) : Prop :=
  c_trajectory ctx <> [] /\ c_dt ctx <> [] /\
  forall mp, c_motion_phase ctx = Some mp -> mp <> [].

(** Every transition label of the distribution is one of the six. *)
Definition labels_known (nd : Distribution) : Prop :=
  Forall (fun e : string * node_id => transition_of (fst e) <> None) (ancestors nd).

(** Every label of an ancestor that has a magnetisation is one of the six;
    the label of an ancestor without one is never looked at. *)
Definition surviving_labels_known (s : store) (nd : Distribution) : Prop :=
  Forall (fun e : string * node_id =>
            mag (s (snd e)) <> None -> transition_of (fst e) <> None)
    (ancestors nd).

(** The shim array has one channel, or as many as there are transmit coils. *)
Definition shim_ok (data : SimData) (p : Pulse) : Prop :=
  length (shim_array p) = 1%nat \/ length (shim_array p) = length (B1 data).

(** The rotation by the motion phase of the last event that a transverse
    state carries over; one when no motion is modelled. *)
Definition final_motion_rotation (ctx : RepCtx) (v : voxel) : C :=
  match c_motion_phase ctx with
  | None => C1
  | Some mp =>
      match last_row mp with
      | Some plast => cexp (mul (mul (imag 2) (of_R PI)) (of_R (plast v)))
      | None => C1
      end
  end.

Module GraphExamples.

Import Examples.

Definition dist (t : string) (latent emitted : R) (anc : list (string * node_id))
  : Distribution :=
  {| dist_type := t; latent_signal := latent; emitted_signal := emitted;
     ancestors := anc |}.

(** Node 0 is the relaxed state of the first repetition.  Nodes 1 and 2 are
    the transverse and longitudinal states an excitation makes of it, node 3
    a longitudinal state of negligible latent signal, node 4 an equilibrium
    state of negligible latent signal, node 5 a state behind a label that is
    not a transition, node 6 a state that descends from node 3 only. *)
Definition nodes (d : node_id) : Distribution :=
  match d with
  | 0%nat => dist "z0" 1 0 []
  | 1%nat => dist "+" 1 1 [("z+"%string, 0%nat)]
  | 2%nat => dist "z" 1 0 [("zz"%string, 0%nat)]
  | 3%nat => dist "z" 0.001 0 [("zz"%string, 0%nat)]
  | 4%nat => dist "z0" 0 0 [("zz"%string, 0%nat)]
  | 5%nat => dist "z" 1 0 [("??"%string, 0%nat)]
  | 6%nat => dist "+" 1 1 [("z+"%string, 3%nat)]
  | _ => dist "z" 0 0 []
  end.

Definition graph : list (list node_id) := [[0%nat]; [4%nat; 1%nat; 2%nat; 3%nat]].

(** A graph whose second repetition holds the equilibrium state alone. *)
Definition graph_z0 : list (list node_id) := [[0%nat]; [4%nat]].


(** The store after the first repetition was seeded. *)
Definition seeded : store := set_mag fresh_store 0%nat (Some (fun _ => of_R 1)).

(** The repetition [rep90] as the loop over the distributions sees it. *)
Definition ctx90 : RepCtx :=
  {| c_coeffs := rf_coeffs_of (sum0 (B1 phantom)) pulse90;
     c_adc := [false; true];
     c_trajectory := [V4 0 0 0 1; V4 0 0 0 2];
     c_dt := [1; 1];
     c_total_time := 2;
     c_r1 := fun _ => exp (- 2);
     c_r2 := fun _ => exp (- 2);
     c_adc_rot := [C1; C1];
     c_motion_phase := None |}.

Definition loop0 : DistLoop :=
  {| dl_store := seeded; dl_rep_sig := zeros2 1 1; dl_mag_adc_rep := [] |}.

(** The example graph with a third repetition. *)
Definition graph_two : list (list node_id) :=
  [[0%nat]; [4%nat; 1%nat; 2%nat; 3%nat]; [6%nat]].

(** A graph in which node 3 and then its descendant node 6 are visited, and
    a store in which node 3 still holds a magnetisation from an earlier
    call. *)
Definition graph_stale : list (list node_id) := [[0%nat]; [3%nat]; [6%nat]].

Definition stale_store : store := set_mag fresh_store 3%nat (Some (fun _ => of_R 1)).

End GraphExamples.

Module EvolverExamples.

Import Examples.

(** Node 4 is a transverse state with three ancestors: node 3, listed first,
    whose magnetisation was released, node 1 behind the refocussing label
    and node 2 behind the excitation label. *)
Definition nodes (d : node_id) : Distribution :=
  match d with
  | 0%nat => GraphExamples.dist "z0" 1 0 []
  | 1%nat => GraphExamples.dist "+" 1 1 [("z+"%string, 0%nat)]
  | 2%nat => GraphExamples.dist "z" 1 0 [("zz"%string, 0%nat)]
  | 3%nat => GraphExamples.dist "+" 1 1 [("z+"%string, 0%nat)]
  | 4%nat => GraphExamples.dist "+" 1 1
               [("++"%string, 3%nat); ("-+"%string, 1%nat); ("z+"%string, 2%nat)]
  | _ => GraphExamples.dist "z" 0 0 []
  end.

Definition mag1 : cten := fun _ => imag 1.
Definition mag2 : cten := fun _ => of_R (1 / 2).

(** What an earlier repetition left: nodes 1 and 2 carry a magnetisation
    and a k-tau vector, node 3 was released. *)
Definition carried : store :=
  fun d =>
    match d with
    | 1%nat => {| mag := Some mag1; kt_vec := V4 1 2 3 4 |}
    | 2%nat => {| mag := Some mag2; kt_vec := V4 0 0 0 5 |}
    | 3%nat => {| mag := None; kt_vec := V4 7 7 7 7 |}
    | _ => {| mag := None; kt_vec := v4_zero |}
    end.

Definition loop1 : DistLoop :=
  {| dl_store := carried; dl_rep_sig := zeros2 1 1; dl_mag_adc_rep := [] |}.

End EvolverExamples.

(** ** Shapes *)

(** The number of true entries of the ADC usage mask of a repetition. *)
Definition adc_count (rep : Repetition) : nat :=
  count_true (map (fun e => Z.ltb 0 (adc_usage e)) (events rep)).

Definition well_shaped (rows cols : nat) (t : tensor2) : Prop :=
  length (t_rows t) = rows /\ t_cols t = cols /\
  Forall (fun row : list C => length row = cols) (t_rows t).

(** The per-event tensors of a repetition share their first axis. *)
Definition ctx_shaped (ctx : RepCtx) : Prop :=
  length (c_trajectory ctx) = length (c_adc ctx) /\
  length (c_dt ctx) = length (c_adc ctx) /\
  length (c_adc_rot ctx) = length (c_adc ctx) /\
  forall mp, c_motion_phase ctx = Some mp -> length mp = length (c_adc ctx).

(** An input on which the pass raises nothing: the graph starts with a
    non-empty repetition, at least one repetition is processed, and every
    processed repetition has a fitting shim array, at least one event and
    only known transition labels. *)
Definition well_formed (nodes : node_id -> Distribution) (data : SimData)
    (graph : list (list node_id)) (seq : Sequence) : Prop :=
  (exists root r g, graph = (root :: r) :: g) /\
  paired graph seq <> [] /\
  Forall (fun pr : list node_id * Repetition =>
            shim_ok data (pulse (snd pr)) /\ events (snd pr) <> [] /\
            Forall (fun d => labels_known (nodes d)) (fst pr))
    (paired graph seq).

(** ** Sampling every event *)

(** The ADC usage mask of a repetition (line 172). *)
Definition adc_mask (rep : Repetition) : list bool :=
  map (fun e => Z.ltb 0 (adc_usage e)) (events rep).

(** The same event, repetition and sequence with every event sampled. *)
Definition sampled (e : Event) : Event :=
  {| gradm := gradm e; event_time := event_time e; adc_usage := 1;
     adc_phase := adc_phase e |}.

Definition sample_all_rep (rep : Repetition) : Repetition :=
  {| pulse := pulse rep; events := map sampled (events rep) |}.

Definition sample_all (seq : Sequence) : Sequence :=
  {| normalized_grads := normalized_grads seq;
     reps := map sample_all_rep (reps seq) |}.

(** The context of a repetition with every event sampled. *)
Definition all_sampled_ctx (ctx : RepCtx) : RepCtx :=
  {| c_coeffs := c_coeffs ctx;
     c_adc := map (fun _ => true) (c_adc ctx);
     c_trajectory := c_trajectory ctx;
     c_dt := c_dt ctx;
     c_total_time := c_total_time ctx;
     c_r1 := c_r1 ctx;
     c_r2 := c_r2 ctx;
     c_adc_rot := c_adc_rot ctx;
     c_motion_phase := c_motion_phase ctx |}.

(** The first tensor holds the rows of the second that the mask selects. *)
Definition masked (m : list bool) (a b : tensor2) : Prop :=
  t_rows a = mask_select m (t_rows b) /\ t_cols a = t_cols b.

(** The state of the loop over the distributions in the pass as given and
    in the pass that samples every event. *)
Definition loop_masked (m : list bool) (a b : DistLoop) : Prop :=
  dl_store a = dl_store b /\ masked m (dl_rep_sig a) (dl_rep_sig b).

(** ** Runs of a loop body *)

(** The body [f] runs on the elements of the list one after the other, from
    the state [s] to the state [s'], and raises on none of them. *)
Inductive steps {A S : Type} (f : A -> S -> result S) : list A -> S -> S -> Prop :=
| steps_nil (s : S) : steps f [] s s
| steps_cons (x : A) (l : list A) (s s1 s2 : S) :
    f x s = Ok s1 -> steps f l s1 s2 -> steps f (x :: l) s s2.

(** The pairs [(graph[i+1], seq[i])] for [i] below [n], read by index. *)
Definition indexed_pairs (graph : list (list node_id)) (seq : Sequence) (n : nat)
  : list (list node_id * Repetition) :=
  flat_map (fun i => match nth_error graph (S i), nth_error (reps seq) i with
                     | Some dists, Some rep => [(dists, rep)]
                     | _, _ => []
                     end)
    (List.seq 0 n).

(** ** Pruning *)

(** The distributions the pass never evaluates on a graph without stale
    magnetisation: those that are neither of the equilibrium type nor the
    seeded root, and whose latent signal is below the threshold or all of
    whose ancestors are such distributions. *)
Inductive pruned (nodes : node_id -> Distribution) (min_latent_signal : R)
    (root : node_id) : node_id -> Prop :=
| pruned_latent (d : node_id) :
    dist_type (nodes d) <> "z0"%string -> d <> root ->
    latent_signal (nodes d) < min_latent_signal ->
    pruned nodes min_latent_signal root d
| pruned_ancestors (d : node_id) :
    dist_type (nodes d) <> "z0"%string -> d <> root ->
    (forall e, In e (ancestors (nodes d)) ->
               pruned nodes min_latent_signal root (snd e)) ->
    pruned nodes min_latent_signal root d.

(** No pruned distribution has a magnetisation. *)
Definition unsimulated (nodes : node_id -> Distribution) (min_latent_signal : R)
    (root : node_id) (s : store) : Prop :=
  forall d, pruned nodes min_latent_signal root d -> mag (s d) = None.

(** The first [n] repetitions of a sequence. *)
Definition truncate_seq (n : nat) (seq : Sequence) : Sequence :=
  {| normalized_grads := normalized_grads seq; reps := firstn n (reps seq) |}.

(** The number of repetitions the pass processes. *)
Definition processed_count (graph : list (list node_id)) (seq : Sequence) : nat :=
  Nat.min (length graph - 1) (length (reps seq)).

(** ** Further notions used by the properties of the pass *)


(** The identity rotation. *)
Definition mat3_id : mat3 := M3 (V3 1 0 0) (V3 0 1 0) (V3 0 0 1).

(** Line 345: the distribution is measured. *)
Definition measured (min_emitted_signal : R) (nd : Distribution) : Prop :=
  dist_type nd = "+"%string /\ min_emitted_signal <= emitted_signal nd.

(** Every entry of the tensor is zero. *)
Definition all_zero (t : tensor2) : Prop :=
  Forall (Forall (fun x : C => x = C0)) (t_rows t).

(** The graph has a first distribution [graph[0][0]]. *)
Definition has_root (graph : list (list node_id)) : Prop :=
  exists root r g, graph = (root :: r) :: g.

(** The sum of the entries of a list of reals. *)
Definition sum_list (l : list R) : R := fold_right Rplus 0 l.

(** A motion function that leaves every voxel where the phantom has it. *)
Definition motionless (data : SimData) : Prop :=
  (exists f, voxel_motion data = Some f /\ forall t v, f t v = voxel_pos data v) \/
  (voxel_motion data = None /\
   exists m, phantom_motion data = Some m /\ forall t, m t = (mat3_id, v3_zero)).

Module MotionExamples.

(** The example phantom under a rigid motion that does not move it. *)
Definition phantom_rigid : SimData :=
  {| PD := fun _ => 1; T1 := fun _ => 1; T2 := fun _ => 1; T2dash := fun _ => 1;
     D := fun _ => 0; B0 := fun _ => 0;
     voxel_count := 1;
     coil_sens := [fun _ => C1];
     B1 := [fun _ => C1];
     voxel_pos := fun _ => v3_zero;
     size := v3_ones;
     nyquist := v3_ones;
     dephasing_func := fun _ _ => 1;
     voxel_motion := None;
     phantom_motion := Some (fun _ => (mat3_id, v3_zero)) |}.

(** A repetition without events. *)
Definition rep_empty : Repetition := {| pulse := Examples.pulse90; events := [] |}.

Definition seq_empty_rep : Sequence :=
  {| normalized_grads := false; reps := [rep_empty] |}.

(** A sequence without repetitions. *)
Definition seq_none : Sequence := {| normalized_grads := false; reps := [] |}.

End MotionExamples.

(** Two results are the same exception, or two values in relation. *)
Definition rel_result {A B : Type} (rel : A -> B -> Prop)
    (r1 : result A) (r2 : result B) : Prop :=
  match r1, r2 with
  | Ok a, Ok b => rel a b
  | Err e1, Err e2 => e1 = e2
  | _, _ => False
  end.

(** The repetitions of a graph are layered: the ancestors of a distribution
    are in the repetition just before its own, and no distribution of a
    repetition is in an earlier one.  [prev] is the repetition before
    [layers], [earlier] holds the ones before that. *)
Fixpoint layered (nodes : node_id -> Distribution) (earlier prev : list node_id)
    (layers : list (list node_id)) : Prop :=
  match layers with
  | [] => True
  | l :: rest =>
      (forall d, In d l ->
         (forall e, In e (ancestors (nodes d)) -> In (snd e) prev) /\
         ~ In d prev /\ ~ In d earlier) /\
      layered nodes (prev ++ earlier) l rest
  end.

Definition well_layered (nodes : node_id -> Distribution)
    (graph : list (list node_id)) : Prop :=
  match graph with
  | [] => True
  | l0 :: rest => layered nodes [] l0 rest
  end.

(** Two stores agree on every distribution outside [zone]; inside it the
    first may have lost a magnetisation the second still has. *)
Definition agree_outside (zone : list node_id) (sA sB : store) : Prop :=
  forall d,
    (~ In d zone -> sA d = sB d) /\
    kt_vec (sA d) = kt_vec (sB d) /\
    (mag (sA d) = None \/ mag (sA d) = mag (sB d)).

(** Line 345 as a test on the attributes of a distribution. *)
Definition measuredb (min_emitted_signal : R) (nd : Distribution) : bool :=
  (dist_type nd =? "+")%string && Rleb min_emitted_signal (emitted_signal nd).

(** The measured magnetisation of one repetition: at most one tensor per
    distribution that passes the test of line 345, each with one row per
    ADC sample. *)
Definition mag_adc_rep_shaped (nodes : node_id -> Distribution)
    (min_emitted_signal : R) (per_rep : list (list cten))
    (pr : list node_id * Repetition) : Prop :=
  (length per_rep
   <= length (filter (fun d => measuredb min_emitted_signal (nodes d)) (fst pr)))%nat /\
  Forall (fun t : list cten => length t = adc_count (snd pr)) per_rep.

(** ** The loop body as an effect *)

(** What visiting one distribution does: nothing, an exception, or writing
    the state of the distribution and, when it is measured, adding its
    transverse magnetisation at the ADC samples to the signal. *)
Inductive effect : Type :=
| Skip
| Raise (e : error)
| Write (x : NodeState) (tm : option (list cten)).

Section Effects.

Variable nodes : node_id -> Distribution.
Variable data : SimData.
Variable min_emitted_signal min_latent_signal : R.
Variable return_mag_adc : bool.

(** The effect of visiting [d], read off the store. *)
Definition effect_of (ctx : RepCtx) (d : node_id) (s : store) : effect :=
  let nd := nodes d in
  let anc := simulated s (ancestors nd) in
  if skipped nodes min_latent_signal s d then Skip
  else
    match sum_mags (c_coeffs ctx) s anc with
    | Err e => Raise e
    | Ok m =>
        match new_kt_vec s (dist_type nd) anc with
        | Err e => Raise e
        | Ok kt =>
            let dist_traj := map (v4_add kt) (c_trajectory ctx) in
            match b_factors ctx kt dist_traj with
            | Err e => Raise e
            | Ok b =>
                match carry_over data ctx (dist_type nd) m kt dist_traj
                        (diffusion_of data b) with
                | Err e => Raise e
                | Ok mk =>
                    Write {| mag := Some (fst mk); kt_vec := snd mk |}
                      (if measuredb min_emitted_signal nd
                       then Some (transverse_mag data ctx m dist_traj
                                    (diffusion_of data b))
                       else None)
                end
            end
        end
    end.

Definition apply_effect (ctx : RepCtx) (d : node_id) (eff : effect) (st : DistLoop)
  : result DistLoop :=
  match eff with
  | Skip => Ok st
  | Raise e => Err e
  | Write x tm =>
      Ok {| dl_store := upd (dl_store st) d x;
            dl_rep_sig :=
              match tm with
              | Some t => add_inplace (dl_rep_sig st) (dist_signal data t)
              | None => dl_rep_sig st
              end;
            dl_mag_adc_rep :=
              match tm with
              | Some t =>
                  if return_mag_adc
                  then dl_mag_adc_rep st ++ [measured_mag data ctx t]
                  else dl_mag_adc_rep st
              | None => dl_mag_adc_rep st
              end |}
  end.

End Effects.

(** Both results are exceptions, or both are values in relation. *)
Definition both_ok_or_raise {A B : Type} (rel : A -> B -> Prop)
    (r1 : result A) (r2 : result B) : Prop :=
  match r1, r2 with
  | Ok a, Ok b => rel a b
  | Err _, Err _ => True
  | _, _ => False
  end.

(** Two stores hold the same state for every distribution. *)
Definition same_store (sA sB : store) : Prop := forall j, sA j = sB j.

From Stdlib Require Import Permutation.

(** Two states of the loop over the distributions with the same store and
    the same measured magnetisations in some order.  The signal of the
    repetition is left out: it is a sum that line 387 accumulates in
    visiting order. *)
Definition dist_loop_equiv (a b : DistLoop) : Prop :=
  same_store (dl_store a) (dl_store b) /\
  Permutation (dl_mag_adc_rep a) (dl_mag_adc_rep b).

(** Two states of the loop over the repetitions with the same store, time
    and number of segments, and the same measured magnetisations in some
    order within each repetition. *)
Definition loop_state_equiv (a b : LoopState) : Prop :=
  same_store (ls_store a) (ls_store b) /\
  ls_t0 a = ls_t0 b /\
  length (ls_signal a) = length (ls_signal b) /\
  Forall2 (@Permutation (list cten)) (ls_mag_adc a) (ls_mag_adc b).

(** Two outputs with the same final store and the same measured
    magnetisations in some order within each repetition. *)
Definition states_equiv (a b : Output) : Prop :=
  same_store (out_store a) (out_store b) /\
  match out_mag_adc a, out_mag_adc b with
  | Some x, Some y => Forall2 (@Permutation (list cten)) x y
  | None, None => True
  | _, _ => False
  end.

(** No distribution of the list is an ancestor of one of the list. *)
Definition no_ancestor_inside (nodes : node_id -> Distribution)
    (dists : list node_id) : Prop :=
  forall d e, In d dists -> In e (ancestors (nodes d)) -> ~ In (snd e) dists.

(** The distributions that [clear_mags] releases. *)
Definition ancestor_ids (nodes : node_id -> Distribution) (dists : list node_id)
  : list node_id :=
  flat_map (fun d => map snd (ancestors (nodes d))) dists.

(** * Properties *)

(** ** Complex arithmetic *)

Lemma C_eq_intro (a b : C) : re a = re b -> im a = im b -> a = b.
Proof. destruct a, b; simpl; intros; subst; reflexivity. Qed.

Lemma add_0_l (a : C) : add C0 a = a.
Proof. apply C_eq_intro; simpl; ring. Qed.

Lemma add_0_r (a : C) : add a C0 = a.
Proof. apply C_eq_intro; simpl; ring. Qed.

Lemma mul_1_r (a : C) : mul a C1 = a.
Proof. apply C_eq_intro; simpl; ring. Qed.

Lemma cexp_imag (t : R) : cexp (mul (imag 1) (of_R t)) = (cos t, sin t).
Proof.
  unfold cexp, mul, imag, of_R, re, im; simpl.
  replace (0 * t - 1 * 0) with 0 by ring.
  replace (0 * 0 + 1 * t) with t by ring.
  rewrite exp_0. f_equal; ring.
Qed.


Lemma cexp_0 : cexp C0 = C1.
Proof.
  unfold cexp, C0, C1, re, im; simpl.
  rewrite exp_0, cos_0, sin_0. f_equal; ring.
Qed.

(** ** Comparisons *)

Lemma Rltb_true (a b : R) : Rltb a b = true <-> a < b.
Proof. unfold Rltb; destruct (Rlt_dec a b); split; auto; discriminate. Qed.

Lemma Rltb_false (a b : R) : Rltb a b = false <-> ~ a < b.
Proof. unfold Rltb; destruct (Rlt_dec a b); split; auto; try discriminate; tauto. Qed.

Lemma Rleb_true (a b : R) : Rleb a b = true <-> a <= b.
Proof. unfold Rleb; destruct (Rle_dec a b); split; auto; discriminate. Qed.


(** ** Lists *)

Lemma map2_map_r {A B B' D : Type} (f : A -> B -> D) (g : B' -> B)
    (l : list A) (m : list B') :
  map2 f l (map g m) = map2 (fun a b => f a (g b)) l m.
Proof.
  revert m; induction l as [|x l IH]; intros [|y m]; simpl; try reflexivity.
  now rewrite IH.
Qed.

Example mask_select_keeps_order :
  mask_select [false; true; false; true] [1; 2; 3; 4]%nat = [2; 4]%nat.
Proof. reflexivity. Qed.

Example cumsum_prefix_sums : cumsum Nat.add [1; 2; 3; 4]%nat = [1; 3; 6; 10]%nat.
Proof. reflexivity. Qed.

Example last_row_of_three : last_row [1; 2; 3]%nat = Some 3%nat.
Proof. reflexivity. Qed.

Example transition_of_known : transition_of "-+" = Some T_mp.
Proof. reflexivity. Qed.

Example transition_of_unknown : transition_of "+-" = None.
Proof. reflexivity. Qed.

Example paired_drops_excess :
  paired GraphExamples.graph
    {| normalized_grads := false;
       reps := [Examples.rep90; Examples.rep_3ch; Examples.rep90] |}
  = [([4; 1; 2; 3]%nat, Examples.rep90)].
Proof. reflexivity. Qed.

Example adc_count_rep90 : adc_count Examples.rep90 = 1%nat.
Proof. reflexivity. Qed.

(** ** RF mixing calculator *)

Lemma combined_B1_spec (data : SimData) (p : Pulse) (b1 : cten) :
  combined_B1 data p = Ok b1 -> b1 = spec_combined_B1 data p.
Proof.
  unfold combined_B1, spec_combined_B1.
  destruct (Nat.eqb (length (shim_array p)) 1) eqn:E1.
  - apply Nat.eqb_eq in E1. rewrite E1. simpl. now intros [= <-].
  - destruct (Nat.eqb (length (shim_array p)) (length (B1 data))) eqn:E2;
      [|discriminate].
    intros [= <-]. apply Nat.eqb_neq in E1. apply Nat.eqb_eq in E2.
    destruct (Nat.ltb 1 (length (shim_array p))) eqn:E3.
    + now rewrite map2_map_r.
    + apply Nat.ltb_ge in E3.
      assert (H0 : length (shim_array p) = 0%nat) by lia.
      rewrite H0 in E2.
      destruct (shim_array p); [|discriminate].
      destruct (B1 data); [reflexivity|discriminate].
Qed.

Lemma z_to_p_components (b1 : cten) (p : Pulse) (v : voxel) :
  z_to_p (rf_coeffs_of b1 p) v =
  (0.70710678118 * sin (angle p * abs (b1 v)) * sin (phase p + Cx.angle (b1 v)),
   - (0.70710678118 * sin (angle p * abs (b1 v)) * cos (phase p + Cx.angle (b1 v)))).
Proof.
  unfold rf_coeffs_of; cbn [z_to_p]. rewrite cexp_imag.
  replace (-0.70710678118) with (Ropp 0.70710678118) by lra.
  generalize 0.70710678118; intro k.
  apply C_eq_intro; unfold mul, imag, of_R, re, im; cbn [fst snd]; ring.
Qed.

Lemma spec_z_to_p_components (k : R) (data : SimData) (p : Pulse) (v : voxel) :
  z_to_p (spec_rf_coeffs k data p) v =
  (k * sin (spec_angle data p v) * sin (spec_phase data p v),
   - (k * sin (spec_angle data p v) * cos (spec_phase data p v))).
Proof.
  unfold spec_rf_coeffs; cbn [z_to_p]. rewrite cexp_imag.
  apply C_eq_intro; unfold opp, mul, imag, of_R, re, im; cbn [fst snd]; ring.
Qed.

Lemma rf_coeffs_of_spec (data : SimData) (p : Pulse) (v : voxel) :
  coeffs_agree_at (rf_coeffs_of (spec_combined_B1 data p) p)
    (spec_rf_coeffs 0.70710678118 data p) v.
Proof.
  assert (Hzp : z_to_p (rf_coeffs_of (spec_combined_B1 data p) p) v =
                z_to_p (spec_rf_coeffs 0.70710678118 data p) v).
  { rewrite z_to_p_components, spec_z_to_p_components. reflexivity. }
  unfold coeffs_agree_at. repeat split.
  - unfold rf_coeffs_of, spec_rf_coeffs, spec_angle; simpl.
    now rewrite Rsqr_pow2.
  - exact Hzp.
  - change (opp (conj (z_to_p (rf_coeffs_of (spec_combined_B1 data p) p) v)) =
            opp (conj (z_to_p (spec_rf_coeffs 0.70710678118 data p) v))).
    now rewrite Hzp.
  - change (opp (z_to_p (rf_coeffs_of (spec_combined_B1 data p) p) v) =
            opp (z_to_p (spec_rf_coeffs 0.70710678118 data p) v)).
    now rewrite Hzp.
  - unfold rf_coeffs_of, spec_rf_coeffs, spec_angle, spec_phase; simpl.
    now rewrite Rsqr_pow2.
Qed.

Lemma inv_sqrt2_bounds : 0.70710678118 <= 1 / sqrt 2 <= 0.70710678119.
Proof.
  assert (Hs : 0 < sqrt 2) by (apply sqrt_lt_R0; lra).
  assert (Hp : 0 < 1 / sqrt 2) by (apply Rdiv_lt_0_compat; lra).
  assert (Hq : 1 / sqrt 2 * (1 / sqrt 2) = 1 / 2).
  { replace (1 / sqrt 2 * (1 / sqrt 2)) with (1 / (sqrt 2 * sqrt 2)) by (field; lra).
    now rewrite sqrt_sqrt by lra. }
  generalize dependent (1 / sqrt 2). intros s Hp Hq. split.
  - destruct (Rle_lt_dec 0.70710678118 s) as [H|H]; [exact H|exfalso].
    assert (s * s < 0.70710678118 * 0.70710678118).
    { apply Rmult_le_0_lt_compat; lra. }
    lra.
  - destruct (Rle_lt_dec s 0.70710678119) as [H|H]; [exact H|exfalso].
    assert (0.70710678119 * 0.70710678119 < s * s).
    { apply Rmult_le_0_lt_compat; lra. }
    lra.
Qed.

Lemma to_single_near (x : R) (n : Z) :
  IZR n - 1 / 2 <= x * 16777216 < IZR n + 1 / 2 ->
  to_single x = IZR n / 16777216.
Proof.
  intros [H1 H2]. unfold to_single. f_equal. f_equal. symmetry.
  apply tech_up; lra.
Qed.

(** The literal of line 149 and one over the square root of two are the same
    single-precision number, 11863283 / 2^24. *)
Lemma literal_is_inv_sqrt2_in_single :
  to_single 0.70710678118 = 11863283 / 16777216 /\
  to_single (1 / sqrt 2) = 11863283 / 16777216.
Proof.
  pose proof inv_sqrt2_bounds as [H1 H2].
  split; apply to_single_near; lra.
Qed.

Lemma abs_le (z : C) (b : R) :
  0 <= b -> re z * re z + im z * im z <= b * b -> abs z <= b.
Proof.
  intros Hb H. unfold abs. rewrite <- (sqrt_square b) by exact Hb.
  now apply sqrt_le_1_alt.
Qed.

Lemma z_to_p_literal_close (k s a phi : R) :
  0 <= s - k <= 1e-11 ->
  let d := Cx.sub (k * sin a * sin phi, - (k * sin a * cos phi))
                  (s * sin a * sin phi, - (s * sin a * cos phi)) in
  abs d <= 1e-11 /\ abs (opp (conj d)) <= 1e-11 /\ abs (opp d) <= 1e-11.
Proof.
  intros Hk d.
  assert (Hn : re d * re d + im d * im d = (s - k) * (s - k) * (sin a * sin a)).
  { unfold d, Cx.sub, add, opp, re, im; cbn [fst snd].
    pose proof (sin2_cos2 phi) as Hphi. unfold Rsqr in Hphi.
    replace ((k * sin a * sin phi + - (s * sin a * sin phi))
             * (k * sin a * sin phi + - (s * sin a * sin phi))
             + (- (k * sin a * cos phi) + - - (s * sin a * cos phi))
               * (- (k * sin a * cos phi) + - - (s * sin a * cos phi)))
      with ((s - k) * (s - k) * (sin a * sin a)
            * (sin phi * sin phi + cos phi * cos phi)) by ring.
    rewrite Hphi. ring. }
  assert (Hb : re d * re d + im d * im d <= 1e-11 * 1e-11).
  { rewrite Hn.
    pose proof (sin2_cos2 a) as Ha. unfold Rsqr in Ha.
    assert (0 <= cos a * cos a) by nra.
    assert (0 <= sin a * sin a <= 1) by nra.
    assert (0 <= (s - k) * (s - k) <= 1e-11 * 1e-11) by nra.
    generalize dependent (sin a * sin a). generalize dependent ((s - k) * (s - k)).
    intros q Hq t _ _ Ht. nra. }
  split; [|split]; apply abs_le; try lra;
    unfold opp, conj, re, im in *; cbn [fst snd] in *; nra.
Qed.

(** C1: whenever the coefficients of a repetition are computed, they are, at
    every voxel, z_to_z = cos(angle), p_to_p = cos(angle/2)^2,
    z_to_p = -k i sin(angle) exp(i phase), p_to_z = -conj(z_to_p),
    m_to_z = -z_to_p and m_to_p = (1 - p_to_p) exp(2i phase), with the
    effective angle and phase taken from the combined B1 of the
    specification.  The source writes the factor k as the decimal literal
    0.70710678118, which is one over the square root of two in the single
    precision of the tensors it multiplies: both are the single-precision
    number 11863283 / 2^24.  Read as exact reals, z_to_z, p_to_p and m_to_p
    are the stated formulas, and z_to_p, p_to_z and m_to_z are within 1e-11
    of the formulas with one over the square root of two. *)
Theorem rf_coefficients_formulas (data : SimData) (p : Pulse) (c : RFCoeffs) :
  rf_coefficients data p = Ok c ->
  to_single 0.70710678118 = to_single (1 / sqrt 2) /\
  forall v,
    let spec := spec_rf_coeffs (1 / sqrt 2) data p in
    coeffs_agree_at c (spec_rf_coeffs 0.70710678118 data p) v /\
    z_to_z c v = z_to_z spec v /\
    p_to_p c v = p_to_p spec v /\
    m_to_p c v = m_to_p spec v /\
    abs (Cx.sub (z_to_p c v) (z_to_p spec v)) <= 1e-11 /\
    abs (Cx.sub (p_to_z c v) (p_to_z spec v)) <= 1e-11 /\
    abs (Cx.sub (m_to_z c v) (m_to_z spec v)) <= 1e-11.
Proof.
  unfold rf_coefficients. intros H.
  split.
  { destruct literal_is_inv_sqrt2_in_single as [-> ->]. reflexivity. }
  intros v. set (spec := spec_rf_coeffs (1 / sqrt 2) data p).
  destruct (combined_B1 data p) as [b1|e] eqn:E; simpl in H; [|discriminate].
  injection H as <-. apply combined_B1_spec in E. subst b1.
  pose proof (rf_coeffs_of_spec data p v) as Hlit.
  split; [exact Hlit|].
  destruct Hlit as (Hzz & Hpp & Hzp & Hpz & Hmz & Hmp).
  split; [rewrite Hzz; reflexivity|].
  split; [rewrite Hpp; reflexivity|].
  split; [rewrite Hmp; reflexivity|].
  assert (Hk : 0 <= 1 / sqrt 2 - 0.70710678118 <= 1e-11).
  { pose proof inv_sqrt2_bounds. lra. }
  pose proof (z_to_p_literal_close 0.70710678118 (1 / sqrt 2)
                (spec_angle data p v) (spec_phase data p v) Hk) as Hclose.
  cbv zeta in Hclose.
  rewrite Hpz, Hmz, Hzp.
  change (p_to_z (spec_rf_coeffs 0.70710678118 data p) v)
    with (opp (conj (z_to_p (spec_rf_coeffs 0.70710678118 data p) v))).
  change (m_to_z (spec_rf_coeffs 0.70710678118 data p) v)
    with (opp (z_to_p (spec_rf_coeffs 0.70710678118 data p) v)).
  change (p_to_z spec v) with (opp (conj (z_to_p spec v))).
  change (m_to_z spec v) with (opp (z_to_p spec v)).
  unfold spec. rewrite !spec_z_to_p_components.
  destruct Hclose as (H1 & H2 & H3).
  split; [exact H1|]. split.
  - replace (Cx.sub (opp (conj _)) (opp (conj _))) with
      (opp (conj (Cx.sub
         (0.70710678118 * sin (spec_angle data p v) * sin (spec_phase data p v),
          - (0.70710678118 * sin (spec_angle data p v) * cos (spec_phase data p v)))
         (1 / sqrt 2 * sin (spec_angle data p v) * sin (spec_phase data p v),
          - (1 / sqrt 2 * sin (spec_angle data p v) * cos (spec_phase data p v)))))).
    + exact H2.
    + apply C_eq_intro; unfold Cx.sub, add, opp, conj, re, im; cbn [fst snd]; ring.
  - replace (Cx.sub (opp _) (opp _)) with
      (opp (Cx.sub
         (0.70710678118 * sin (spec_angle data p v) * sin (spec_phase data p v),
          - (0.70710678118 * sin (spec_angle data p v) * cos (spec_phase data p v)))
         (1 / sqrt 2 * sin (spec_angle data p v) * sin (spec_phase data p v),
          - (1 / sqrt 2 * sin (spec_angle data p v) * cos (spec_phase data p v))))).
    + exact H3.
    + apply C_eq_intro; unfold Cx.sub, add, opp, conj, re, im; cbn [fst snd]; ring.
Qed.

Lemma rf_coefficients_formulas_witness :
  rf_coefficients Examples.phantom Examples.pulse90
  = Ok (rf_coeffs_of (sum0 (B1 Examples.phantom)) Examples.pulse90) /\
  abs (Cx.sub
         (z_to_p (rf_coeffs_of (sum0 (B1 Examples.phantom)) Examples.pulse90) 0%nat)
         (z_to_p (spec_rf_coeffs (1 / sqrt 2) Examples.phantom Examples.pulse90) 0%nat))
  <= 1e-11.
Proof.
  split; [reflexivity|].
  destruct (rf_coefficients_formulas Examples.phantom Examples.pulse90
              (rf_coeffs_of (sum0 (B1 Examples.phantom)) Examples.pulse90) eq_refl)
    as [_ H].
  destruct (H 0%nat) as (_ & _ & _ & _ & Hzp & _). exact Hzp.
Defined.

Lemma add_assoc (a b c : C) : add (add a b) c = add a (add b c).
Proof. apply C_eq_intro; unfold add, re, im; simpl; ring. Qed.

Lemma v4_scale_neg (a : vec4) : v4_scale (-1.0) a = v4_neg a.
Proof. unfold v4_scale, v4_neg. f_equal; lra. Qed.

(** ** The state evolver: one distribution *)

Lemma transition_of_cases (label : string) :
  match transition_of label with
  | Some T_zz => label = "zz"%string
  | Some T_pp => label = "++"%string
  | Some T_zp => label = "z+"%string
  | Some T_pz => label = "+z"%string
  | Some T_mz => label = "-z"%string
  | Some T_mp => label = "-+"%string
  | None => True
  end.
Proof.
  unfold transition_of.
  repeat match goal with
         | |- context [String.eqb ?a ?b] =>
             let E := fresh "E" in
             destruct (String.eqb a b) eqn:E;
             [apply String.eqb_eq in E; exact E|]
         end.
  exact I.
Qed.

Section NodeFacts.

Variable nodes : node_id -> Distribution.
Variable data : SimData.
Variable min_emitted_signal min_latent_signal : R.
Variable return_mag_adc : bool.

Local Abbreviation exec_dist' :=
  (exec_dist nodes data min_emitted_signal min_latent_signal return_mag_adc).
Local Abbreviation skipped' := (skipped nodes min_latent_signal).
Local Abbreviation measure' := (measure data min_emitted_signal return_mag_adc).

Lemma simulated_nil_iff (s : store) (anc : list (string * node_id)) :
  simulated s anc = [] <-> forall e, In e anc -> mag (s (snd e)) = None.
Proof.
  unfold simulated. induction anc as [|a anc IH]; simpl.
  - split; [intros _ e []|reflexivity].
  - destruct (mag (s (snd a))) eqn:E; simpl.
    + split; [discriminate|].
      intros H. specialize (H a (or_introl eq_refl)). congruence.
    + rewrite IH. split.
      * intros H e [<-|He]; auto.
      * intros H e He. apply H. now right.
Qed.

Lemma simulated_In (s : store) (anc : list (string * node_id)) (e : string * node_id) :
  In e (simulated s anc) <-> In e anc /\ mag (s (snd e)) <> None.
Proof.
  unfold simulated. rewrite filter_In.
  destruct (mag (s (snd e))); simpl; split; intros [H1 H2]; split; auto;
    congruence.
Qed.

Lemma first_surviving_simulated (s : store) (anc : list (string * node_id)) :
  first_surviving s anc = hd_error (simulated s anc).
Proof.
  unfold simulated. induction anc as [|[l p] anc IH]; simpl; [reflexivity|].
  destruct (mag (s p)); simpl; auto.
Qed.

Lemma skipped_true_iff (s : store) (d : node_id) :
  skipped' s d = true <->
  dist_type (nodes d) <> "z0"%string /\
  (latent_signal (nodes d) < min_latent_signal \/
   simulated s (ancestors (nodes d)) = []).
Proof.
  unfold skipped.
  destruct (String.eqb (dist_type (nodes d)) "z0") eqn:Ez; simpl.
  - apply String.eqb_eq in Ez. split; [discriminate|]. intros [H _]. contradiction.
  - apply String.eqb_neq in Ez.
    rewrite orb_true_iff, Rltb_true, Nat.eqb_eq, length_zero_iff_nil. tauto.
Qed.

Lemma skipped_false_iff (s : store) (d : node_id) :
  skipped' s d = false <-> evaluated nodes min_latent_signal s d.
Proof.
  unfold evaluated. rewrite <- not_true_iff_false, skipped_true_iff.
  destruct (String.eqb (dist_type (nodes d)) "z0") eqn:Ez.
  - apply String.eqb_eq in Ez. split; [now left|]. intros _ [H _]. contradiction.
  - apply String.eqb_neq in Ez. split.
    + intros H. right. split.
      * intros Hl. apply H. split; auto.
      * destruct (simulated s (ancestors (nodes d))) as [|e l] eqn:El.
        -- exfalso. apply H. split; auto.
        -- exists e. apply simulated_In. rewrite El. now left.
    + intros [Hz|[Hl [e [He Hm]]]] [_ [H|H]]; try contradiction.
      rewrite simulated_nil_iff in H. apply Hm. now apply H.
Qed.

Lemma exec_dist_skipped (ctx : RepCtx) (d : node_id) (st : DistLoop) :
  skipped' (dl_store st) d = true -> exec_dist' ctx d st = Ok st.
Proof. unfold exec_dist. now intros ->. Qed.

(** What an evaluated distribution goes through. *)
Lemma exec_dist_evaluated (ctx : RepCtx) (d : node_id) (st st' : DistLoop) :
  skipped' (dl_store st) d = false ->
  exec_dist' ctx d st = Ok st' ->
  exists m kt b mk,
    let s := dl_store st in
    let anc := simulated s (ancestors (nodes d)) in
    let dist_traj := map (v4_add kt) (c_trajectory ctx) in
    sum_mags (c_coeffs ctx) s anc = Ok m /\
    new_kt_vec s (dist_type (nodes d)) anc = Ok kt /\
    b_factors ctx kt dist_traj = Ok b /\
    carry_over data ctx (dist_type (nodes d)) m kt dist_traj (diffusion_of data b) = Ok mk /\
    st' = {| dl_store := upd s d {| mag := Some (fst mk); kt_vec := snd mk |};
             dl_rep_sig := fst (measure' ctx (nodes d) m dist_traj (diffusion_of data b) st);
             dl_mag_adc_rep :=
               snd (measure' ctx (nodes d) m dist_traj (diffusion_of data b) st) |}.
Proof.
  unfold exec_dist. intros -> H.
  destruct (sum_mags _ _ _) as [m|] eqn:Em; simpl in H; [|discriminate].
  destruct (new_kt_vec _ _ _) as [kt|] eqn:Ek; simpl in H; [|discriminate].
  destruct (b_factors _ _ _) as [b|] eqn:Eb; simpl in H; [|discriminate].
  destruct (measure _ _ _ _ _ _ _ _ _) as [sig madc] eqn:Eme.
  destruct (carry_over _ _ _ _ _ _ _) as [mk|] eqn:Ec; simpl in H; [|discriminate].
  injection H as <-.
  exists m, kt, b, mk. cbv zeta. rewrite Eme.
  repeat split; assumption || reflexivity.
Qed.

Lemma calc_mag_ok (c : RFCoeffs) (s : store) (label : string) (p : node_id)
    (m0 y : cten) :
  mag (s p) = Some m0 ->
  calc_mag c s (label, p) = Ok y ->
  exists t, transition_of label = Some t /\
            forall v, y v = spec_contribution c t m0 v.
Proof.
  unfold calc_mag, transition_of; simpl. intros ->.
  repeat match goal with
         | |- context [String.eqb ?a ?b] =>
             destruct (String.eqb a b);
             [intros [= <-]; eexists; split; [reflexivity|intro v; reflexivity]|]
         end.
  discriminate.
Qed.

Lemma mapM_calc_mag_spec (c : RFCoeffs) (s : store) (anc : list (string * node_id)) :
  forall ms, mapM (calc_mag c s) (simulated s anc) = Ok ms ->
  forall acc v,
    fold_left t_add ms acc v = add (acc v) (spec_magnetization c s anc v).
Proof.
  unfold simulated.
  induction anc as [|[l p] anc IH]; simpl; intros ms H acc v.
  - injection H as <-. simpl. now rewrite add_0_r.
  - destruct (mag (s p)) as [m0|] eqn:Em; simpl in H.
    + destruct (calc_mag c s (l, p)) as [y|] eqn:Ey; simpl in H; [|discriminate].
      destruct (mapM (calc_mag c s) _) as [ys|] eqn:Eys; simpl in H; [|discriminate].
      injection H as <-. simpl.
      destruct (calc_mag_ok c s l p m0 y Em Ey) as [t [-> Hy]].
      rewrite (IH ys eq_refl). unfold t_add. rewrite Hy. apply add_assoc.
    + destruct (transition_of l); now apply IH.
Qed.

Lemma sum_mags_spec (c : RFCoeffs) (s : store) (anc : list (string * node_id))
    (m : cten) :
  sum_mags c s (simulated s anc) = Ok m ->
  forall v, m v = spec_magnetization c s anc v.
Proof.
  unfold sum_mags. intros H v.
  destruct (mapM _ _) as [ms|] eqn:E; simpl in H; [|discriminate].
  injection H as <-.
  rewrite (mapM_calc_mag_spec c s anc ms E). apply add_0_l.
Qed.

Lemma sum_mags_first_label (c : RFCoeffs) (s : store) (anc : list (string * node_id))
    (m : cten) (l : string) (p : node_id) :
  sum_mags c s (simulated s anc) = Ok m ->
  first_surviving s anc = Some (l, p) ->
  exists t, transition_of l = Some t.
Proof.
  rewrite first_surviving_simulated. unfold sum_mags. intros H Hf.
  destruct (simulated s anc) as [|e rest] eqn:Es; [discriminate|].
  injection Hf as ->.
  assert (Hin : In (l, p) (simulated s anc)) by (rewrite Es; now left).
  apply simulated_In in Hin. destruct Hin as [_ Hm]. simpl in Hm.
  destruct (mag (s p)) as [m0|] eqn:Em; [|congruence].
  simpl in H.
  destruct (calc_mag c s (l, p)) as [y|] eqn:Ey; simpl in H; [|discriminate].
  destruct (calc_mag_ok c s l p m0 y Em Ey) as [t [Ht _]]. eauto.
Qed.

Lemma new_kt_vec_spec (c : RFCoeffs) (s : store) (nd : Distribution) (m : cten)
    (kt : vec4) :
  sum_mags c s (simulated s (ancestors nd)) = Ok m ->
  new_kt_vec s (dist_type nd) (simulated s (ancestors nd)) = Ok kt ->
  spec_k_tau s nd = Some kt.
Proof.
  unfold new_kt_vec, spec_k_tau. intros Hm.
  destruct (String.eqb (dist_type nd) "z0"); [now intros [= <-]|].
  pose proof (fun l p => sum_mags_first_label c s (ancestors nd) m l p Hm) as Hl.
  rewrite first_surviving_simulated in *.
  destruct (simulated s (ancestors nd)) as [|[l p] rest]; [discriminate|].
  simpl in *. destruct (Hl l p eq_refl) as [t Ht]. rewrite Ht.
  pose proof (transition_of_cases l) as Hc. rewrite Ht in Hc.
  destruct t; subst l; simpl; intros [= <-]; try reflexivity;
    now rewrite v4_scale_neg.
Qed.

End NodeFacts.

(** ** An evaluated distribution does not raise on well-formed inputs *)

Lemma last_row_some {A : Type} (l : list A) :
  l <> [] -> exists x, last_row l = Some x.
Proof.
  induction l as [|a l IH]; [congruence|]. intros _.
  destruct l as [|b l]; [now exists a|].
  destruct IH as [x Hx]; [discriminate|]. exists x. exact Hx.
Qed.

Lemma map2_nonempty {A B D : Type} (f : A -> B -> D) (l : list A) (m : list B) :
  l <> [] -> m <> [] -> map2 f l m <> [].
Proof. destruct l, m; simpl; congruence. Qed.

Lemma cumsum_nonempty {A : Type} (plus : A -> A -> A) (l : list A) :
  l <> [] -> cumsum plus l <> [].
Proof. destruct l; simpl; congruence. Qed.

Lemma map_nonempty {A B : Type} (f : A -> B) (l : list A) :
  l <> [] -> map f l <> [].
Proof. destruct l; simpl; congruence. Qed.

Lemma calc_mag_total (c : RFCoeffs) (s : store) (e : string * node_id) :
  transition_of (fst e) <> None -> mag (s (snd e)) <> None ->
  exists y, calc_mag c s e = Ok y.
Proof.
  unfold calc_mag, transition_of. intros Hl Hm.
  destruct (mag (s (snd e))) as [m0|]; [|congruence].
  repeat match goal with
         | H : context [String.eqb ?a ?b] |- _ =>
             destruct (String.eqb a b); [eexists; reflexivity|]
         end.
  congruence.
Qed.

Lemma sum_mags_total (c : RFCoeffs) (s : store) (anc : list (string * node_id)) :
  Forall (fun e : string * node_id => transition_of (fst e) <> None) anc ->
  exists m, sum_mags c s (simulated s anc) = Ok m.
Proof.
  intros Hl. unfold sum_mags.
  assert (H : exists ms, mapM (calc_mag c s) (simulated s anc) = Ok ms).
  { unfold simulated. induction Hl as [|e anc He _ IH]; simpl; [now eexists|].
    destruct (mag (s (snd e))) eqn:Em; simpl; [|exact IH].
    destruct (calc_mag_total c s e He) as [y ->]; [congruence|].
    destruct IH as [ms ->]. simpl. now eexists. }
  destruct H as [ms ->]. simpl. now eexists.
Qed.

Lemma sum_mags_surviving (c : RFCoeffs) (s : store) (anc : list (string * node_id)) :
  Forall (fun e : string * node_id =>
            mag (s (snd e)) <> None -> transition_of (fst e) <> None) anc ->
  exists m, sum_mags c s (simulated s anc) = Ok m.
Proof.
  intros Hl. unfold sum_mags.
  assert (H : exists ms, mapM (calc_mag c s) (simulated s anc) = Ok ms).
  { unfold simulated. induction Hl as [|e anc He _ IH]; simpl; [now eexists|].
    destruct (mag (s (snd e))) eqn:Em; simpl; [|exact IH].
    destruct (calc_mag_total c s e) as [y ->]; [apply He| |]; try congruence.
    destruct IH as [ms ->]. simpl. now eexists. }
  destruct H as [ms ->]. simpl. now eexists.
Qed.

Lemma b_factors_total (ctx : RepCtx) (kt : vec4) :
  c_trajectory ctx <> [] -> c_dt ctx <> [] ->
  exists b, b_factors ctx kt (map (v4_add kt) (c_trajectory ctx)) = Ok b /\ b <> [].
Proof.
  intros Ht Hd. unfold b_factors.
  destruct (c_trajectory ctx) as [|t0 tr]; [congruence|]. simpl map.
  eexists. split; [reflexivity|].
  apply map2_nonempty; [exact Hd|]. discriminate.
Qed.

Section Totality.

Variable nodes : node_id -> Distribution.
Variable data : SimData.
Variable min_emitted_signal min_latent_signal : R.
Variable return_mag_adc : bool.

Local Abbreviation exec_dist' :=
  (exec_dist nodes data min_emitted_signal min_latent_signal return_mag_adc).

Lemma carry_over_total (ctx : RepCtx) (dtype : string) (m : cten) (kt : vec4)
    (b : list R) :
  ctx_has_events ctx -> b <> [] ->
  exists mk,
    carry_over data ctx dtype m kt (map (v4_add kt) (c_trajectory ctx))
      (diffusion_of data b) = Ok mk.
Proof.
  intros [Ht [_ Hmp]] Hb. unfold carry_over.
  destruct (String.eqb dtype "+").
  - destruct (last_row_some (diffusion_of data b)) as [dl ->].
    { unfold diffusion_of. now apply map_nonempty, cumsum_nonempty. }
    destruct (last_row_some (map (v4_add kt) (c_trajectory ctx))) as [tl ->].
    { now apply map_nonempty. }
    destruct (c_motion_phase ctx) as [mp|] eqn:Em.
    + destruct (last_row_some mp) as [pl ->]; [now apply Hmp|].
      simpl. destruct (String.eqb dtype "z0"); now eexists.
    + simpl. destruct (String.eqb dtype "z0"); now eexists.
  - simpl. destruct (String.eqb dtype "z0"); now eexists.
Qed.

Lemma exec_dist_total (ctx : RepCtx) (d : node_id) (st : DistLoop) :
  ctx_has_events ctx -> labels_known (nodes d) ->
  exists st', exec_dist' ctx d st = Ok st'.
Proof.
  intros Hc Hl. unfold exec_dist.
  destruct (skipped nodes min_latent_signal (dl_store st) d) eqn:Es; [now eexists|].
  destruct (sum_mags_total (c_coeffs ctx) (dl_store st) _ Hl) as [m ->]. simpl.
  assert (Hk : exists kt, new_kt_vec (dl_store st) (dist_type (nodes d))
                 (simulated (dl_store st) (ancestors (nodes d))) = Ok kt).
  { unfold new_kt_vec. unfold skipped in Es.
    destruct (String.eqb (dist_type (nodes d)) "z0"); [now eexists|].
    simpl in Es. apply orb_false_elim in Es. destruct Es as [_ Es].
    destruct (simulated (dl_store st) (ancestors (nodes d))) as [|[l p] r];
      [discriminate|].
    destruct (_ || _); now eexists. }
  destruct Hk as [kt ->]. simpl.
  destruct Hc as [Ht [Hd Hmp]].
  destruct (b_factors_total ctx kt Ht Hd) as [b [-> Hb]]. simpl.
  destruct (measure _ _ _ _ _ _ _ _ _) as [sig madc].
  destruct (carry_over_total ctx (dist_type (nodes d)) m kt b) as [mk ->];
    [repeat split; assumption|exact Hb|].
  simpl. now eexists.
Qed.

Lemma exec_dist_returns (ctx : RepCtx) (d : node_id) (st : DistLoop) :
  ctx_has_events ctx -> surviving_labels_known (dl_store st) (nodes d) ->
  exists st', exec_dist' ctx d st = Ok st'.
Proof.
  intros Hc Hl. unfold exec_dist.
  destruct (skipped nodes min_latent_signal (dl_store st) d) eqn:Es; [now eexists|].
  destruct (sum_mags_surviving (c_coeffs ctx) (dl_store st) _ Hl) as [m ->]. simpl.
  assert (Hk : exists kt, new_kt_vec (dl_store st) (dist_type (nodes d))
                 (simulated (dl_store st) (ancestors (nodes d))) = Ok kt).
  { unfold new_kt_vec. unfold skipped in Es.
    destruct (String.eqb (dist_type (nodes d)) "z0"); [now eexists|].
    simpl in Es. apply orb_false_elim in Es. destruct Es as [_ Es].
    destruct (simulated (dl_store st) (ancestors (nodes d))) as [|[l p] r];
      [discriminate|].
    destruct (_ || _); now eexists. }
  destruct Hk as [kt ->]. simpl.
  destruct Hc as [Ht [Hd Hmp]].
  destruct (b_factors_total ctx kt Ht Hd) as [b [-> Hb]]. simpl.
  destruct (measure _ _ _ _ _ _ _ _ _) as [sig madc].
  destruct (carry_over_total ctx (dist_type (nodes d)) m kt b) as [mk ->];
    [repeat split; assumption|exact Hb|].
  simpl. now eexists.
Qed.

End Totality.

(** ** Stores *)

Lemma upd_same (s : store) (d : node_id) (x : NodeState) : upd s d x d = x.
Proof. unfold upd. now rewrite Nat.eqb_refl. Qed.

Lemma upd_other (s : store) (d j : node_id) (x : NodeState) :
  j <> d -> upd s d x j = s j.
Proof. unfold upd. intros H. apply Nat.eqb_neq in H. now rewrite H. Qed.

Lemma last_row_map {A B : Type} (f : A -> B) (l : list A) :
  last_row (map f l) = option_map f (last_row l).
Proof.
  induction l as [|a l IH]; [reflexivity|].
  destruct l as [|b l]; [reflexivity|]. exact IH.
Qed.

Lemma last_row_cumsum_from (acc : R) (l : list R) :
  l <> [] -> last_row (cumsum_from Rplus acc l) = Some (fold_left Rplus l acc).
Proof.
  revert acc. induction l as [|x l IH]; [congruence|]. intros acc _.
  destruct l as [|y l]; [reflexivity|].
  change (last_row (cumsum_from Rplus (acc + x) (y :: l)) =
          Some (fold_left Rplus (y :: l) (acc + x))).
  apply IH. discriminate.
Qed.

Lemma last_row_cumsum (l : list R) :
  l <> [] -> last_row (cumsum Rplus l) = Some (fold_left Rplus l 0).
Proof.
  destruct l as [|x l]; [congruence|]. intros _. simpl fold_left.
  rewrite Rplus_0_l.
  destruct l as [|y l]; [reflexivity|].
  change (last_row (cumsum_from Rplus x (y :: l)) = Some (fold_left Rplus (y :: l) x)).
  apply last_row_cumsum_from. discriminate.
Qed.

(** ** The carry-over of one distribution *)

Section CarryOver.

Variable data : SimData.

Lemma carry_over_transverse (ctx : RepCtx) (m : cten) (kt : vec4)
    (dist_traj : list vec4) (diffusion : list rten) (mk : cten * vec4) :
  carry_over data ctx "+" m kt dist_traj diffusion = Ok mk ->
  exists dlast tlast,
    last_row diffusion = Some dlast /\ last_row dist_traj = Some tlast /\
    snd mk = tlast /\
    forall v, fst mk v =
              mul (mul (mul (m v) (of_R (c_r2 ctx v))) (of_R (dlast v)))
                (final_motion_rotation ctx v).
Proof.
  unfold carry_over, final_motion_rotation. simpl String.eqb. cbv iota.
  destruct (last_row diffusion) as [dlast|]; [|discriminate].
  destruct (c_motion_phase ctx) as [mp|].
  - destruct (last_row mp) as [plast|]; [|discriminate]. simpl.
    destruct (last_row dist_traj) as [tlast|]; [|discriminate]. simpl.
    intros [= <-]. exists dlast, tlast. repeat split.
  - simpl. destruct (last_row dist_traj) as [tlast|]; [|discriminate]. simpl.
    intros [= <-]. exists dlast, tlast. repeat split.
    intro v. simpl. unfold t_mul_r. now rewrite mul_1_r.
Qed.

Lemma carry_over_longitudinal (ctx : RepCtx) (dtype : string) (m : cten) (kt : vec4)
    (dist_traj : list vec4) (diffusion : list rten) (mk : cten * vec4) :
  dtype <> "+"%string ->
  carry_over data ctx dtype m kt dist_traj diffusion = Ok mk ->
  snd mk = kt /\
  forall v, fst mk v =
            add (mul (mul (m v) (of_R (c_r1 ctx v)))
                   (of_R (exp (- 1e-9 * D data v * c_total_time ctx
                               * v3_norm (spatial kt) ^ 2))))
              (if (dtype =? "z0")%string then of_R (1 - c_r1 ctx v) else C0).
Proof.
  unfold carry_over. intros Hp. apply String.eqb_neq in Hp. rewrite Hp. simpl.
  destruct (String.eqb dtype "z0"); intros [= <-]; split; try reflexivity;
    intro v; simpl; unfold t_mul_r.
  - apply C_eq_intro; unfold sub, add, opp, of_R, re, im; simpl; ring.
  - now rewrite add_0_r.
Qed.

End CarryOver.

(** ** The context of a repetition *)

Lemma cumsum_from_length {A : Type} (plus : A -> A -> A) (acc : A) (l : list A) :
  length (cumsum_from plus acc l) = length l.
Proof. revert acc; induction l as [|x l IH]; intro acc; simpl; auto. Qed.

Lemma cumsum_length {A : Type} (plus : A -> A -> A) (l : list A) :
  length (cumsum plus l) = length l.
Proof. destruct l as [|x l]; simpl; [reflexivity|]. now rewrite cumsum_from_length. Qed.

Lemma rep_ctx_inv (data : SimData) (gs : vec3) (t0 : R) (rep : Repetition)
    (ctx : RepCtx) :
  rep_ctx data gs t0 rep = Ok ctx ->
  rf_coefficients data (pulse rep) = Ok (c_coeffs ctx) /\
  c_adc ctx = map (fun e => Z.ltb 0 (adc_usage e)) (events rep) /\
  c_dt ctx = map event_time (events rep) /\
  c_total_time ctx = fold_right Rplus 0 (map event_time (events rep)) /\
  (forall v, c_r1 ctx v = exp (- c_total_time ctx / Rabs (T1 data v))) /\
  (forall v, c_r2 ctx v = exp (- c_total_time ctx / Rabs (T2 data v))) /\
  length (c_trajectory ctx) = length (events rep) /\
  length (c_adc_rot ctx) = length (events rep) /\
  c_motion_phase ctx = motion_phase_of data gs t0 rep (c_trajectory ctx).
Proof.
  unfold rep_ctx. destruct (rf_coefficients data (pulse rep)) as [c|]; simpl;
    [|discriminate].
  intros [= <-]. simpl. repeat split; try reflexivity.
  - now rewrite cumsum_length, length_map.
  - now rewrite length_map.
Qed.

Lemma rep_ctx_has_events (data : SimData) (gs : vec3) (t0 : R) (rep : Repetition)
    (ctx : RepCtx) :
  events rep <> [] -> rep_ctx data gs t0 rep = Ok ctx -> ctx_has_events ctx.
Proof.
  intros He H. unfold rep_ctx in H.
  destruct (rf_coefficients data (pulse rep)) as [c|]; simpl in H; [|discriminate].
  injection H as <-. unfold ctx_has_events; simpl.
  unfold motion_phase_of, scaled_gradm.
  destruct (events rep) as [|e es]; [congruence|].
  repeat split; try discriminate.
  destruct (voxel_pos_func data); intros mp; [|discriminate].
  intros [= <-]. simpl. discriminate.
Qed.

Lemma rep_ctx_static (data : SimData) (gs : vec3) (t0 : R) (rep : Repetition)
    (ctx : RepCtx) :
  voxel_motion data = None -> phantom_motion data = None ->
  rep_ctx data gs t0 rep = Ok ctx -> c_motion_phase ctx = None.
Proof.
  intros Hv Hp H. apply rep_ctx_inv in H.
  destruct H as (_ & _ & _ & _ & _ & _ & _ & _ & ->).
  unfold motion_phase_of, voxel_pos_func. now rewrite Hv, Hp.
Qed.

(** ** The claims about one distribution *)

Section NodeClaims.

Variable nodes : node_id -> Distribution.
Variable data : SimData.
Variable min_emitted_signal min_latent_signal : R.
Variable return_mag_adc : bool.

Local Abbreviation exec_dist' :=
  (exec_dist nodes data min_emitted_signal min_latent_signal return_mag_adc).
Local Abbreviation measure' := (measure data min_emitted_signal return_mag_adc).

Lemma simulated_without (s : store) (d : node_id) (anc : list (string * node_id)) :
  mag (s d) = None ->
  simulated s anc
  = simulated s (filter (fun e : string * node_id => negb (Nat.eqb (snd e) d)) anc).
Proof.
  intros Hm. unfold simulated. induction anc as [|e anc IH]; [reflexivity|].
  cbn [filter]. destruct (Nat.eqb (snd e) d) eqn:Ed; cbn [negb filter].
  - apply Nat.eqb_eq in Ed. rewrite Ed, Hm. exact IH.
  - destruct (is_some (mag (s (snd e)))); [now rewrite IH|exact IH].
Qed.

(** C2: a distribution that is evaluated (it is of the equilibrium type, or
    its latent signal reaches the threshold and one of its ancestors has a
    magnetisation) in a repetition with at least one event, and whose
    ancestors with a magnetisation stand behind one of the six labels, gets
    a magnetisation: the visit does not raise, whatever the ancestors
    without magnetisation are, and the value computed at line 236 is, at
    every voxel, the sum over the ancestors with a magnetisation of the
    parent magnetisation times the coefficient of the label (zz, ++, z+,
    +z), or of the conjugated parent magnetisation times the coefficient
    (-z, -+); it is this sum that is measured and then carried over. *)
Theorem evaluated_magnetization (ctx : RepCtx) (d : node_id) (st : DistLoop) :
  evaluated nodes min_latent_signal (dl_store st) d ->
  surviving_labels_known (dl_store st) (nodes d) ->
  ctx_has_events ctx ->
  exists st' m kt b mk,
    let dist_traj := map (v4_add kt) (c_trajectory ctx) in
    exec_dist' ctx d st = Ok st' /\
    sum_mags (c_coeffs ctx) (dl_store st)
      (simulated (dl_store st) (ancestors (nodes d))) = Ok m /\
    (forall v, m v = spec_magnetization (c_coeffs ctx) (dl_store st)
                       (ancestors (nodes d)) v) /\
    dl_rep_sig st' =
      fst (measure' ctx (nodes d) m dist_traj (diffusion_of data b) st) /\
    carry_over data ctx (dist_type (nodes d)) m kt dist_traj (diffusion_of data b)
      = Ok mk /\
    mag (dl_store st' d) = Some (fst mk).
Proof.
  intros He Hl Hc.
  destruct (exec_dist_returns nodes data min_emitted_signal min_latent_signal
              return_mag_adc ctx d st Hc Hl) as [st' H].
  apply skipped_false_iff in He.
  destruct (exec_dist_evaluated _ _ _ _ _ ctx d st st' He H)
    as (m & kt & b & mk & Hm & _ & _ & Hco & Hst).
  exists st', m, kt, b, mk. cbv zeta. split; [exact H|]. subst st'.
  simpl. rewrite upd_same. simpl.
  repeat split; auto. now apply sum_mags_spec.
Qed.

(** C3, as the code has it: a distribution that is not of the equilibrium
    type, that holds no magnetisation from before, and whose latent signal
    is below the threshold or none of whose ancestors has a magnetisation,
    is skipped: the visit returns with the store, the signal of the
    repetition and the measured magnetisation as they were, the distribution
    is still without magnetisation, and in the store the visit leaves it is
    among the simulated ancestors of no distribution, so that every
    distribution finds the simulated ancestors it would find if the skipped
    one were not listed among its ancestors. *)
Theorem skipped_node_untouched (ctx : RepCtx) (d : node_id) (st : DistLoop) :
  dist_type (nodes d) <> "z0"%string ->
  latent_signal (nodes d) < min_latent_signal \/
  simulated (dl_store st) (ancestors (nodes d)) = [] ->
  mag (dl_store st d) = None ->
  exists st',
    exec_dist' ctx d st = Ok st' /\
    dl_store st' = dl_store st /\
    dl_rep_sig st' = dl_rep_sig st /\
    dl_mag_adc_rep st' = dl_mag_adc_rep st /\
    mag (dl_store st' d) = None /\
    (forall n label,
       ~ In (label, d) (simulated (dl_store st') (ancestors (nodes n)))) /\
    (forall n,
       simulated (dl_store st') (ancestors (nodes n))
       = simulated (dl_store st')
           (filter (fun e : string * node_id => negb (Nat.eqb (snd e) d))
              (ancestors (nodes n)))).
Proof.
  intros Hz Hs Hm. exists st.
  split; [apply exec_dist_skipped; apply skipped_true_iff; auto|].
  do 3 (split; [reflexivity|]). split; [exact Hm|]. split.
  - intros n label Hin. apply simulated_In in Hin. simpl in Hin. tauto.
  - intro n. now apply simulated_without.
Qed.

(** C5: for a distribution that is evaluated in a repetition with at least
    one event, and whose ancestors with a magnetisation stand behind one of
    the six labels, the visit does not raise and the k-tau vector recomputed
    at lines 259-264 is zero for the equilibrium type, the negated k-tau
    vector of the first ancestor with a magnetisation when that ancestor's
    label is -+ or -z, and that ancestor's k-tau vector otherwise.  No other
    k-tau vector is read: in any store with the same ancestors simulated and
    the same k-tau vector at the first of them, the recomputed vector is the
    same.  It is the vector the distribution keeps, advanced by the last row
    of the trajectory for a transverse distribution. *)
Theorem evaluated_k_tau (ctx : RepCtx) (d : node_id) (st : DistLoop) :
  evaluated nodes min_latent_signal (dl_store st) d ->
  surviving_labels_known (dl_store st) (nodes d) ->
  ctx_has_events ctx ->
  exists st' kt,
    exec_dist' ctx d st = Ok st' /\
    new_kt_vec (dl_store st) (dist_type (nodes d))
      (simulated (dl_store st) (ancestors (nodes d))) = Ok kt /\
    spec_k_tau (dl_store st) (nodes d) = Some kt /\
    (forall s2 : store,
       (forall e, In e (ancestors (nodes d)) ->
                  is_some (mag (s2 (snd e))) = is_some (mag (dl_store st (snd e)))) ->
       (forall label parent,
          first_surviving (dl_store st) (ancestors (nodes d)) = Some (label, parent) ->
          kt_vec (s2 parent) = kt_vec (dl_store st parent)) ->
       new_kt_vec s2 (dist_type (nodes d)) (simulated s2 (ancestors (nodes d)))
       = Ok kt) /\
    (dist_type (nodes d) <> "+"%string -> kt_vec (dl_store st' d) = kt) /\
    (dist_type (nodes d) = "+"%string ->
     exists tlast, last_row (c_trajectory ctx) = Some tlast /\
                   kt_vec (dl_store st' d) = v4_add kt tlast).
Proof.
  intros He Hl Hc.
  destruct (exec_dist_returns nodes data min_emitted_signal min_latent_signal
              return_mag_adc ctx d st Hc Hl) as [st' H].
  apply skipped_false_iff in He.
  destruct (exec_dist_evaluated _ _ _ _ _ ctx d st st' He H)
    as (m & kt & b & mk & Hm & Hk & _ & Hco & Hst).
  exists st', kt. split; [exact H|]. subst st'.
  simpl. rewrite upd_same. simpl.
  split; [exact Hk|]. split; [eapply new_kt_vec_spec; eauto|]. split; [|split].
  - intros s2 Hsame Hfirst.
    assert (Hsim : simulated s2 (ancestors (nodes d))
                   = simulated (dl_store st) (ancestors (nodes d))).
    { unfold simulated. apply filter_ext_in. intros e Hin. now apply Hsame. }
    rewrite Hsim. rewrite first_surviving_simulated in Hfirst.
    unfold new_kt_vec in *.
    destruct (String.eqb (dist_type (nodes d)) "z0"); [exact Hk|].
    destruct (simulated (dl_store st) (ancestors (nodes d))) as [|[l p] rest];
      [exact Hk|].
    now rewrite (Hfirst l p eq_refl).
  - intros Hp. now destruct (carry_over_longitudinal _ _ _ _ _ _ _ _ Hp Hco).
  - intros Hp. rewrite Hp in Hco.
    destruct (carry_over_transverse _ _ _ _ _ _ _ Hco)
      as (dlast & tlast & _ & Ht & Hs & _).
    rewrite last_row_map in Ht.
    destruct (last_row (c_trajectory ctx)) as [t|]; [|discriminate].
    exists t. split; [reflexivity|]. simpl in Ht. congruence.
Qed.

(** C6: what an evaluated distribution carries over.  A transverse ("+")
    distribution keeps its magnetisation times exp(-total_time/|T2|), times
    the diffusion attenuation of the b factors summed over the whole
    repetition, times the rotation by the motion phase of the last event when
    motion is modelled, and its k-tau vector advanced by the last row of the
    trajectory.  Any other distribution keeps its k-tau vector and its
    magnetisation times exp(-total_time/|T1|) times
    exp(-1e-9 D total_time k^2), k the norm of its k vector; the equilibrium
    type adds 1 - exp(-total_time/|T1|). *)
Theorem carried_over_state (gs : vec3) (t0 : R) (rep : Repetition) (ctx : RepCtx)
    (d : node_id) (st st' : DistLoop) :
  rep_ctx data gs t0 rep = Ok ctx ->
  evaluated nodes min_latent_signal (dl_store st) d ->
  exec_dist' ctx d st = Ok st' ->
  exists m kt b mag',
    let total_time := fold_right Rplus 0 (map event_time (events rep)) in
    let r1 := fun v => exp (- total_time / Rabs (T1 data v)) in
    let r2 := fun v => exp (- total_time / Rabs (T2 data v)) in
    sum_mags (c_coeffs ctx) (dl_store st)
      (simulated (dl_store st) (ancestors (nodes d))) = Ok m /\
    new_kt_vec (dl_store st) (dist_type (nodes d))
      (simulated (dl_store st) (ancestors (nodes d))) = Ok kt /\
    b_factors ctx kt (map (v4_add kt) (c_trajectory ctx)) = Ok b /\
    mag (dl_store st' d) = Some mag' /\
    (dist_type (nodes d) = "+"%string ->
     exists tlast,
       last_row (c_trajectory ctx) = Some tlast /\
       kt_vec (dl_store st' d) = v4_add kt tlast /\
       forall v,
         mag' v =
         mul (mul (mul (m v) (of_R (r2 v)))
                (of_R (exp (- 1e-9 * D data v * fold_left Rplus b 0))))
           (final_motion_rotation ctx v)) /\
    (dist_type (nodes d) <> "+"%string ->
     kt_vec (dl_store st' d) = kt /\
     forall v,
       mag' v =
       add (mul (mul (m v) (of_R (r1 v)))
              (of_R (exp (- 1e-9 * D data v * total_time * v3_norm (spatial kt) ^ 2))))
         (if (dist_type (nodes d) =? "z0")%string then of_R (1 - r1 v) else C0)).
Proof.
  intros Hctx He H. apply skipped_false_iff in He.
  destruct (exec_dist_evaluated _ _ _ _ _ ctx d st st' He H)
    as (m & kt & b & mk & Hm & Hk & Hb & Hc & ->).
  destruct (rep_ctx_inv _ _ _ _ _ Hctx) as (_ & _ & _ & Ht & Hr1 & Hr2 & _).
  exists m, kt, b, (fst mk). cbv zeta. cbn [dl_store]. rewrite upd_same.
  cbn [mag kt_vec]. rewrite <- Ht.
  do 4 (split; [assumption || reflexivity|]). split.
  - intros Hp. rewrite Hp in Hc.
    destruct (carry_over_transverse _ _ _ _ _ _ _ Hc)
      as (dlast & tlast & Hd & Htl & Hs & Hmag).
    rewrite last_row_map in Htl.
    destruct (last_row (c_trajectory ctx)) as [t|]; [|discriminate].
    exists t. split; [reflexivity|]. simpl in Htl. split; [congruence|].
    intro v. rewrite Hmag, Hr2.
    unfold diffusion_of in Hd. rewrite last_row_map in Hd.
    destruct (last_row (cumsum Rplus b)) as [cb|] eqn:Ecb; [|discriminate].
    assert (Hne : b <> []) by (intro; subst b; discriminate).
    rewrite (last_row_cumsum b Hne) in Ecb. injection Ecb as <-.
    simpl in Hd. injection Hd as <-. reflexivity.
  - intros Hp.
    destruct (carry_over_longitudinal _ _ _ _ _ _ _ _ Hp Hc) as [Hs Hmag].
    split; [exact Hs|].
    intro v. rewrite Hmag, Hr1. reflexivity.
Qed.

End NodeClaims.

(** C8: with neither a voxel motion function nor a rigid motion function in
    the phantom data, the motion phase of every repetition is the integer
    zero: the rotation of the signal at every ADC sample is
    exp(2 pi i (tau B0 + k . r)), with nothing added for motion, and the
    magnetisation a transverse distribution carries over is its magnetisation
    times the relaxation and diffusion factors, with no rotation. *)
Theorem static_phantom_no_motion_phase (data : SimData) (gs : vec3) (t0 : R)
    (rep : Repetition) (ctx : RepCtx) :
  voxel_motion data = None -> phantom_motion data = None ->
  rep_ctx data gs t0 rep = Ok ctx ->
  c_motion_phase ctx = None /\
  (forall adc_dist_traj,
     signal_rot data ctx adc_dist_traj =
     map (fun t => fun v => adc_rot_term data t 0 v) adc_dist_traj) /\
  (forall t v,
     adc_rot_term data t 0 v =
     cexp (mul (mul (imag 2) (of_R PI))
             (of_R (tau t * B0 data v + v3_dot (spatial t) (voxel_pos data v))))) /\
  (forall m kt dist_traj diffusion mk,
     carry_over data ctx "+" m kt dist_traj diffusion = Ok mk ->
     exists dlast,
       last_row diffusion = Some dlast /\
       forall v, fst mk v = mul (mul (m v) (of_R (c_r2 ctx v))) (of_R (dlast v))).
Proof.
  intros Hv Hp H. pose proof (rep_ctx_static _ _ _ _ _ Hv Hp H) as Hm.
  repeat split; auto.
  - intro tr. unfold signal_rot. now rewrite Hm.
  - intros t v. unfold adc_rot_term. now rewrite Rplus_0_r.
  - intros m kt dist_traj diffusion mk Hc.
    destruct (carry_over_transverse _ _ _ _ _ _ _ Hc) as (dlast & tlast & Hd & _ & _ & Hmag).
    exists dlast. split; [exact Hd|]. intro v. rewrite Hmag.
    unfold final_motion_rotation. rewrite Hm. apply mul_1_r.
Qed.

(** ** The claims about one distribution on the example graph *)

Lemma ctx90_has_events : ctx_has_events GraphExamples.ctx90.
Proof.
  unfold ctx_has_events, GraphExamples.ctx90; simpl.
  repeat split; discriminate.
Qed.

Lemma example_labels_known (d : node_id) :
  d <> 5%nat -> labels_known (GraphExamples.nodes d).
Proof.
  intros H. unfold labels_known.
  do 7 (destruct d as [|d]; [try congruence; simpl; repeat constructor; discriminate|]).
  simpl. constructor.
Qed.

Lemma example_node1_evaluated :
  evaluated GraphExamples.nodes 0.01 GraphExamples.seeded 1%nat.
Proof.
  right. split.
  - simpl. lra.
  - exists ("z+"%string, 0%nat). split; [now left|]. simpl. discriminate.
Qed.

Lemma example_node4_evaluated :
  evaluated EvolverExamples.nodes 0.01 EvolverExamples.carried 4%nat.
Proof.
  right. split.
  - simpl. lra.
  - exists ("-+"%string, 1%nat). split; [right; now left|]. simpl. discriminate.
Qed.

Lemma example_node4_labels :
  surviving_labels_known EvolverExamples.carried (EvolverExamples.nodes 4%nat).
Proof.
  unfold surviving_labels_known. simpl. repeat constructor; intros _; discriminate.
Qed.

Lemma evaluated_magnetization_witness :
  exists st' m,
    exec_dist EvolverExamples.nodes Examples.phantom 0.01 0.01 false
      GraphExamples.ctx90 4%nat EvolverExamples.loop1 = Ok st' /\
    sum_mags (c_coeffs GraphExamples.ctx90) EvolverExamples.carried
      (simulated EvolverExamples.carried (ancestors (EvolverExamples.nodes 4%nat)))
    = Ok m /\
    forall v,
      m v = add (mul (conj (EvolverExamples.mag1 v))
                   (m_to_p (c_coeffs GraphExamples.ctx90) v))
              (add (mul (EvolverExamples.mag2 v)
                      (z_to_p (c_coeffs GraphExamples.ctx90) v))
                 C0).
Proof.
  destruct (evaluated_magnetization EvolverExamples.nodes Examples.phantom 0.01 0.01
              false GraphExamples.ctx90 4%nat EvolverExamples.loop1
              example_node4_evaluated example_node4_labels ctx90_has_events)
    as (st' & m & kt & b & mk & H & Hm & Hs & _).
  exists st', m. split; [exact H|]. split; [exact Hm|].
  intro v. rewrite (Hs v). reflexivity.
Defined.

Lemma skipped_node_untouched_witness :
  exists st',
    exec_dist GraphExamples.nodes Examples.phantom 0.01 0.01 false
      GraphExamples.ctx90 3%nat GraphExamples.loop0 = Ok st' /\
    dl_store st' = GraphExamples.seeded /\
    forall label,
      ~ In (label, 3%nat) (simulated (dl_store st')
                             (ancestors (GraphExamples.nodes 6%nat))).
Proof.
  destruct (skipped_node_untouched GraphExamples.nodes Examples.phantom 0.01 0.01
              false GraphExamples.ctx90 3%nat GraphExamples.loop0)
    as (st' & H & Hs & _ & _ & _ & Hin & _).
  - simpl. discriminate.
  - left. simpl. lra.
  - reflexivity.
  - exists st'. split; [exact H|]. split; [exact Hs|]. intro label. apply Hin.
Defined.

Lemma evaluated_k_tau_witness :
  exists st',
    exec_dist EvolverExamples.nodes Examples.phantom 0.01 0.01 false
      GraphExamples.ctx90 4%nat EvolverExamples.loop1 = Ok st' /\
    spec_k_tau EvolverExamples.carried (EvolverExamples.nodes 4%nat)
    = Some (v4_neg (V4 1 2 3 4)) /\
    kt_vec (dl_store st' 4%nat) = v4_add (v4_neg (V4 1 2 3 4)) (V4 0 0 0 2).
Proof.
  destruct (evaluated_k_tau EvolverExamples.nodes Examples.phantom 0.01 0.01
              false GraphExamples.ctx90 4%nat EvolverExamples.loop1
              example_node4_evaluated example_node4_labels ctx90_has_events)
    as (st' & kt & H & _ & Hs & _ & _ & Hp).
  destruct (Hp eq_refl) as (tlast & Ht & Hk).
  injection Ht as <-.
  assert (Hkt : kt = v4_neg (V4 1 2 3 4)).
  { cbn in Hs. now injection Hs as <-. }
  subst kt. exists st'. split; [exact H|]. split; [reflexivity|exact Hk].
Defined.

Lemma example_rep_ctx :
  exists ctx, rep_ctx Examples.phantom v3_ones 0 Examples.rep90 = Ok ctx.
Proof. eexists. reflexivity. Qed.

Lemma carried_over_state_witness :
  exists ctx st' m kt b mag' tlast,
    rep_ctx Examples.phantom v3_ones 0 Examples.rep90 = Ok ctx /\
    exec_dist GraphExamples.nodes Examples.phantom 0.01 0.01 false
      ctx 1%nat GraphExamples.loop0 = Ok st' /\
    mag (dl_store st' 1%nat) = Some mag' /\
    last_row (c_trajectory ctx) = Some tlast /\
    kt_vec (dl_store st' 1%nat) = v4_add kt tlast /\
    forall v,
      mag' v =
      mul (mul (mul (m v)
                  (of_R (exp (- fold_right Rplus 0
                                  (map event_time (events Examples.rep90))
                              / Rabs (T2 Examples.phantom v)))))
             (of_R (exp (- 1e-9 * D Examples.phantom v * fold_left Rplus b 0))))
        (final_motion_rotation ctx v).
Proof.
  destruct example_rep_ctx as [ctx Hctx].
  assert (Hev : ctx_has_events ctx).
  { apply (rep_ctx_has_events Examples.phantom v3_ones 0 Examples.rep90);
      [discriminate|exact Hctx]. }
  assert (Hl : labels_known (GraphExamples.nodes 1%nat)).
  { apply example_labels_known. discriminate. }
  destruct (exec_dist_total GraphExamples.nodes Examples.phantom 0.01 0.01 false
              ctx 1%nat GraphExamples.loop0 Hev Hl) as [st' H].
  destruct (carried_over_state GraphExamples.nodes Examples.phantom 0.01 0.01 false
              v3_ones 0 Examples.rep90 ctx 1%nat GraphExamples.loop0 st'
              Hctx example_node1_evaluated H)
    as (m & kt & b & mag' & _ & _ & _ & Hmag & Hp & _).
  destruct (Hp eq_refl) as (tlast & Ht & Hk & Hv).
  exists ctx, st', m, kt, b, mag', tlast. repeat split; assumption.
Defined.

Lemma static_phantom_no_motion_phase_witness :
  exists ctx,
    rep_ctx Examples.phantom v3_ones 0 Examples.rep90 = Ok ctx /\
    c_motion_phase ctx = None.
Proof.
  destruct example_rep_ctx as [ctx Hctx]. exists ctx. split; [exact Hctx|].
  apply (static_phantom_no_motion_phase Examples.phantom v3_ones 0 Examples.rep90 ctx
           eq_refl eq_refl Hctx).
Defined.

(** ** Loops that may raise *)

Lemma foldM_app {A S : Type} (f : A -> S -> result S) (l1 l2 : list A) (s : S) :
  foldM f (l1 ++ l2) s = bind (foldM f l1 s) (foldM f l2).
Proof.
  revert s. induction l1 as [|x l1 IH]; intro s; simpl; [reflexivity|].
  destruct (f x s); simpl; auto.
Qed.

Lemma foldM_invariant {A S : Type} (f : A -> S -> result S) (P : S -> Prop)
    (l : list A) :
  (forall x s s', In x l -> P s -> f x s = Ok s' -> P s') ->
  forall s s', P s -> foldM f l s = Ok s' -> P s'.
Proof.
  induction l as [|x l IH]; simpl; intros Hf s s' Hs H.
  - now injection H as <-.
  - destruct (f x s) as [s1|] eqn:E; simpl in H; [|discriminate].
    apply (IH (fun y t t' Hy => Hf y t t' (or_intror Hy)) s1 s'); auto.
    apply (Hf x s s1); auto.
Qed.

Lemma foldM_total {A S : Type} (f : A -> S -> result S) (l : list A) :
  (forall x s, In x l -> exists s', f x s = Ok s') ->
  forall s, exists s', foldM f l s = Ok s'.
Proof.
  induction l as [|x l IH]; simpl; intros Hf s; [now eexists|].
  destruct (Hf x s (or_introl eq_refl)) as [s1 ->]. simpl.
  apply IH. intros y t Hy. apply Hf. now right.
Qed.

Lemma foldM_raises {A S : Type} (f : A -> S -> result S) (l : list A) (x : A) :
  In x l -> (forall s, exists e, f x s = Err e) ->
  forall s, exists e, foldM f l s = Err e.
Proof.
  intros Hin Hx. induction l as [|y l IH]; [contradiction|]. intro s. simpl.
  destruct (f y s) as [s1|e] eqn:E; simpl; [|now exists e].
  destruct Hin as [->|Hin]; [|now apply IH].
  destruct (Hx s) as [e He]. congruence.
Qed.

Lemma foldM_rel {A S1 S2 : Type} (rel : S1 -> S2 -> Prop)
    (f1 : A -> S1 -> result S1) (f2 : A -> S2 -> result S2) (l : list A) :
  (forall x a b, In x l -> rel a b -> rel_result rel (f1 x a) (f2 x b)) ->
  forall a b, rel a b -> rel_result rel (foldM f1 l a) (foldM f2 l b).
Proof.
  induction l as [|x l IH]; intros Hf a b Hab; cbn [foldM]; [exact Hab|].
  pose proof (Hf x a b (or_introl eq_refl) Hab) as Hx.
  destruct (f1 x a) as [a'|e1], (f2 x b) as [b'|e2]; cbn in Hx |- *;
    try contradiction; [|exact Hx].
  apply IH; [|exact Hx]. intros y a0 b0 Hy. apply Hf. now right.
Qed.

(** ** Shapes of masked and combined tensors *)

Lemma map2_length {A B D : Type} (f : A -> B -> D) (l : list A) (m : list B) :
  length (map2 f l m) = Nat.min (length l) (length m).
Proof.
  revert m; induction l as [|x l IH]; intros [|y m]; simpl; auto.
Qed.

Lemma mask_select_length {A : Type} (m : list bool) (l : list A) :
  length l = length m -> length (mask_select m l) = count_true m.
Proof.
  unfold count_true. revert l; induction m as [|b m IH]; intros [|x l]; simpl;
    try discriminate; auto.
  intros [= H]. destruct b; simpl; auto.
Qed.

Lemma removelast_length {A : Type} (l : list A) :
  length (removelast l) = (length l - 1)%nat.
Proof.
  induction l as [|x l IH]; [reflexivity|].
  destruct l as [|y l]; [reflexivity|].
  change (S (length (removelast (y :: l))) = (S (S (length l)) - 1)%nat).
  rewrite IH. simpl. lia.
Qed.

Lemma Forall_map2 {A B D : Type} (f : A -> B -> D) (P : D -> Prop)
    (l : list A) (m : list B) :
  (forall x y, In x l -> In y m -> P (f x y)) -> Forall P (map2 f l m).
Proof.
  revert m; induction l as [|x l IH]; intros [|y m] H; simpl; constructor.
  - apply H; now left.
  - apply IH. intros a b Ha Hb. apply H; now right.
Qed.

Lemma zeros2_shaped (n c : nat) : well_shaped n c (zeros2 n c).
Proof.
  unfold well_shaped, zeros2; simpl. rewrite repeat_length. repeat split.
  apply Forall_forall. intros row Hr. apply repeat_spec in Hr. subst row.
  apply repeat_length.
Qed.

Lemma add_inplace_shaped (n c : nat) (a b : tensor2) :
  well_shaped n c a -> well_shaped n c b -> well_shaped n c (add_inplace a b).
Proof.
  intros (Ha & Hca & Hfa) (Hb & _ & Hfb). unfold well_shaped, add_inplace; simpl.
  rewrite map2_length, Ha, Hb, Nat.min_id. repeat split; auto.
  apply Forall_map2. intros x y Hx Hy. rewrite map2_length.
  rewrite Forall_forall in Hfa, Hfb. rewrite (Hfa x Hx), (Hfb y Hy).
  apply Nat.min_id.
Qed.

Lemma motion_phase_of_length (data : SimData) (gs : vec3) (t0 : R)
    (rep : Repetition) (trajectory : list vec4) (mp : list rten) :
  length trajectory = length (events rep) ->
  motion_phase_of data gs t0 rep trajectory = Some mp ->
  length mp = length (events rep).
Proof.
  unfold motion_phase_of, scaled_gradm. intros Hl.
  destruct (voxel_pos_func data); [|discriminate]. cbv zeta.
  remember (map (fun x => t0 + x) (0 :: map tau trajectory)) as time eqn:Et.
  assert (Hn : length time = S (length (events rep))).
  { subst time. rewrite length_map. simpl. now rewrite length_map, Hl. }
  intros [= <-].
  rewrite cumsum_length, map2_length, !length_map, map2_length, removelast_length.
  destruct time as [|a time]; [discriminate|]. simpl in *. lia.
Qed.

Lemma rep_ctx_shaped (data : SimData) (gs : vec3) (t0 : R) (rep : Repetition)
    (ctx : RepCtx) :
  rep_ctx data gs t0 rep = Ok ctx ->
  ctx_shaped ctx /\ count_true (c_adc ctx) = adc_count rep.
Proof.
  intros H. destruct (rep_ctx_inv _ _ _ _ _ H)
    as (_ & Ha & Hd & _ & _ & _ & Ht & Hr & Hm).
  unfold ctx_shaped, adc_count. rewrite Ha, Hd, !length_map. repeat split; auto.
  intros mp Hmp. rewrite Hm in Hmp.
  now apply (motion_phase_of_length data gs t0 rep (c_trajectory ctx)).
Qed.

Lemma b_factors_length (ctx : RepCtx) (kt : vec4) (dist_traj : list vec4)
    (b : list R) :
  b_factors ctx kt dist_traj = Ok b ->
  length b = Nat.min (length (c_dt ctx)) (length dist_traj).
Proof.
  unfold b_factors.
  destruct (map spatial dist_traj) as [|k ks] eqn:Ek; [discriminate|].
  intros H.
  apply (f_equal (fun r => match r with Ok x => length x | Err _ => 0%nat end)) in H.
  cbv beta iota in H. rewrite <- H, map2_length, length_combine.
  apply (f_equal (@length _)) in Ek. rewrite length_map in Ek.
  cbn [length] in *. rewrite removelast_length. cbn [length]. lia.
Qed.

Section Shapes.

Variable nodes : node_id -> Distribution.
Variable data : SimData.
Variable min_emitted_signal min_latent_signal : R.
Variable return_mag_adc clear_state_mag : bool.

Local Abbreviation exec_dist' :=
  (exec_dist nodes data min_emitted_signal min_latent_signal return_mag_adc).
Local Abbreviation exec_rep' :=
  (exec_rep nodes data min_emitted_signal min_latent_signal return_mag_adc
     clear_state_mag).

Lemma signal_rot_length (ctx : RepCtx) (dist_traj : list vec4) :
  ctx_shaped ctx -> length dist_traj = length (c_adc ctx) ->
  length (signal_rot data ctx (mask_select (c_adc ctx) dist_traj))
  = count_true (c_adc ctx).
Proof.
  intros (_ & _ & _ & Hmp) Hl. unfold signal_rot.
  destruct (c_motion_phase ctx) as [mp|] eqn:Em; simpl.
  - rewrite map2_length, !mask_select_length; auto using Nat.min_id.
  - rewrite length_map. now apply mask_select_length.
Qed.

Lemma transverse_mag_length (ctx : RepCtx) (m : cten) (dist_traj : list vec4)
    (diffusion : list rten) :
  ctx_shaped ctx ->
  length dist_traj = length (c_adc ctx) ->
  length diffusion = length (c_adc ctx) ->
  length (transverse_mag data ctx m dist_traj diffusion) = count_true (c_adc ctx).
Proof.
  intros Hs Hl Hd. pose proof Hs as (Ht & _).
  unfold transverse_mag.
  rewrite !map2_length, !length_map, signal_rot_length by assumption.
  rewrite !mask_select_length by assumption. now rewrite !Nat.min_id.
Qed.

Lemma dist_signal_shaped (tm : list cten) :
  well_shaped (length tm) (coil_count data) (dist_signal data tm).
Proof.
  unfold well_shaped, dist_signal; simpl. rewrite length_map. repeat split.
  apply Forall_forall. intros row Hr. apply in_map_iff in Hr.
  destruct Hr as [r [<- _]]. now rewrite length_map.
Qed.

Lemma exec_dist_shaped (ctx : RepCtx) (d : node_id) (st st' : DistLoop) :
  ctx_shaped ctx ->
  well_shaped (count_true (c_adc ctx)) (coil_count data) (dl_rep_sig st) ->
  exec_dist' ctx d st = Ok st' ->
  well_shaped (count_true (c_adc ctx)) (coil_count data) (dl_rep_sig st').
Proof.
  intros Hs Hw H.
  destruct (skipped nodes min_latent_signal (dl_store st) d) eqn:Esk.
  - rewrite (exec_dist_skipped _ _ _ _ _ ctx d st Esk) in H. now injection H as <-.
  - destruct (exec_dist_evaluated _ _ _ _ _ ctx d st st' Esk H)
      as (m & kt & b & mk & _ & _ & Hb & _ & ->).
    simpl. unfold measure.
    destruct (_ && _); simpl; [|exact Hw].
    apply add_inplace_shaped; [exact Hw|].
    pose proof Hs as (Ht & Hd & _).
    apply b_factors_length in Hb. rewrite length_map in Hb.
    rewrite <- (transverse_mag_length ctx m (map (v4_add kt) (c_trajectory ctx))
                  (diffusion_of data b)); auto.
    + apply dist_signal_shaped.
    + now rewrite length_map.
    + unfold diffusion_of. rewrite length_map, cumsum_length, Hb, Ht, Hd.
      apply Nat.min_id.
Qed.

Lemma rotate_signal_shaped (ctx : RepCtx) (t : tensor2) :
  ctx_shaped ctx ->
  well_shaped (count_true (c_adc ctx)) (coil_count data) t ->
  well_shaped (count_true (c_adc ctx)) (coil_count data) (rotate_signal ctx t).
Proof.
  intros (_ & _ & Hr & _) (Hn & Hc & Hf). unfold well_shaped, rotate_signal; simpl.
  rewrite map2_length, Hn, mask_select_length, Nat.min_id by assumption.
  repeat split; auto.
  apply Forall_map2. intros row r Hrow _. rewrite length_map.
  rewrite Forall_forall in Hf. now apply Hf.
Qed.

Lemma exec_rep_signal (gs : vec3) (dists : list node_id) (rep : Repetition)
    (ls ls' : LoopState) :
  exec_rep' gs (dists, rep) ls = Ok ls' ->
  exists seg madc,
    ls_signal ls' = ls_signal ls ++ [seg] /\
    ls_mag_adc ls' = ls_mag_adc ls ++ [madc] /\
    well_shaped (adc_count rep) (coil_count data) seg.
Proof.
  unfold exec_rep. intros H.
  destruct (rep_ctx data gs (ls_t0 ls) rep) as [ctx|] eqn:Ec; simpl in H;
    [|discriminate].
  destruct (foldM _ _ _) as [st|] eqn:Ef; simpl in H; [|discriminate].
  injection H as <-. simpl.
  exists (rotate_signal ctx (dl_rep_sig st)), (dl_mag_adc_rep st).
  do 2 (split; [reflexivity|]).
  destruct (rep_ctx_shaped _ _ _ _ _ Ec) as [Hs Hn]. rewrite <- Hn.
  apply rotate_signal_shaped; [exact Hs|].
  refine (foldM_invariant (exec_dist' ctx)
            (fun st => well_shaped (count_true (c_adc ctx)) (coil_count data)
                         (dl_rep_sig st)) dists _ _ st _ Ef).
  - intros x s s' _ Hw Hx. eapply exec_dist_shaped; eauto.
  - apply zeros2_shaped.
Qed.

Lemma run_reps_signal (gs : vec3) (prs : list (list node_id * Repetition)) :
  forall ls ls',
    foldM (exec_rep' gs) prs ls = Ok ls' ->
    exists segs,
      ls_signal ls' = ls_signal ls ++ segs /\
      length (ls_mag_adc ls') = (length (ls_mag_adc ls) + length prs)%nat /\
      Forall2 (fun seg (pr : list node_id * Repetition) =>
                 well_shaped (adc_count (snd pr)) (coil_count data) seg)
        segs prs.
Proof.
  induction prs as [|[dists rep] prs IH]; cbn [foldM]; intros ls ls' H.
  - injection H as <-. exists []. rewrite app_nil_r. repeat split; auto.
  - destruct (exec_rep' gs (dists, rep) ls) as [ls1|] eqn:E1; cbn [bind] in H;
      [|discriminate].
    destruct (exec_rep_signal gs dists rep ls ls1 E1) as (seg & madc & Hs & Hm & Hw).
    destruct (IH ls1 ls' H) as (segs & Hs' & Hm' & Hf).
    exists (seg :: segs). rewrite Hs', Hs, Hm', Hm, <- app_assoc, length_app.
    simpl. repeat split; auto. lia.
Qed.

End Shapes.

(** ** Masks commute with row-wise operations *)

Lemma mask_select_nil_r {A : Type} (m : list bool) : mask_select m ([] : list A) = [].
Proof. now destruct m. Qed.

Lemma mask_select_map {A B : Type} (f : A -> B) (m : list bool) (l : list A) :
  mask_select m (map f l) = map f (mask_select m l).
Proof.
  revert l. induction m as [|b m IH]; intros [|x l]; cbn [mask_select map];
    try reflexivity.
  destruct b; cbn [map]; now rewrite IH.
Qed.

Lemma mask_select_map2 {A B D : Type} (f : A -> B -> D) (m : list bool)
    (l1 : list A) (l2 : list B) :
  mask_select m (map2 f l1 l2) = map2 f (mask_select m l1) (mask_select m l2).
Proof.
  revert l1 l2. induction m as [|b m IH]; intros l1 l2.
  - destruct (map2 f l1 l2), l1, l2; reflexivity.
  - destruct l1 as [|x l1]; [now rewrite !mask_select_nil_r|].
    destruct l2 as [|y l2].
    + cbn [map2]. rewrite !mask_select_nil_r. now destruct (mask_select _ _).
    + cbn [map2 mask_select]. destruct b; cbn [map2]; now rewrite IH.
Qed.

Lemma mask_select_all {A X : Type} (evs : list X) (l : list A) :
  (length l <= length evs)%nat -> mask_select (map (fun _ => true) evs) l = l.
Proof.
  revert l. induction evs as [|e evs IH]; intros [|x l] H; cbn in *;
    try reflexivity; try lia.
  rewrite IH by lia. reflexivity.
Qed.

Lemma mask_select_repeat {A : Type} (x : A) (m : list bool) :
  mask_select m (repeat x (length m)) = repeat x (count_true m).
Proof.
  unfold count_true. induction m as [|b m IH]; [reflexivity|].
  cbn [length repeat mask_select filter]. destruct b; cbn [length repeat];
    now rewrite IH.
Qed.

Lemma mask_select_none {A : Type} (m : list bool) (l : list A) :
  count_true m = 0%nat -> mask_select m l = [].
Proof.
  unfold count_true. revert l. induction m as [|b m IH]; intros l H;
    [now destruct l|].
  destruct l as [|x l]; [reflexivity|]. cbn [mask_select].
  destruct b; [discriminate|]. now apply IH.
Qed.

Lemma count_true_all {X : Type} (evs : list X) :
  count_true (map (fun _ => true) evs) = length evs.
Proof.
  unfold count_true. induction evs as [|e evs IH]; [reflexivity|].
  cbn. now rewrite IH.
Qed.

Lemma adc_mask_sampled (rep : Repetition) :
  adc_mask (sample_all_rep rep) = map (fun _ => true) (adc_mask rep).
Proof.
  unfold adc_mask, sample_all_rep; cbn [events]. rewrite !map_map. reflexivity.
Qed.

Lemma rep_ctx_sampled (data : SimData) (gs : vec3) (t0 : R) (rep : Repetition) :
  rep_ctx data gs t0 (sample_all_rep rep)
  = bind (rep_ctx data gs t0 rep) (fun ctx => Ok (all_sampled_ctx ctx)).
Proof.
  unfold rep_ctx, sample_all_rep; cbn [pulse events].
  destruct (rf_coefficients data (pulse rep)) as [c|e]; cbn [bind]; [|reflexivity].
  unfold all_sampled_ctx, motion_phase_of, scaled_gradm;
    cbn [c_coeffs c_adc c_trajectory c_dt c_total_time c_r1 c_r2 c_adc_rot
         c_motion_phase events].
  rewrite !map_map. reflexivity.
Qed.

Lemma masked_add_inplace (m : list bool) (a b x y : tensor2) :
  masked m a b -> masked m x y -> masked m (add_inplace a x) (add_inplace b y).
Proof.
  intros [Ha Hc] [Hx _]. unfold masked, add_inplace; cbn [t_rows t_cols].
  split; [|exact Hc]. now rewrite mask_select_map2, Ha, Hx.
Qed.

Lemma masked_zeros (m : list bool) (c : nat) :
  masked m (zeros2 (count_true m) c)
    (zeros2 (count_true (map (fun _ : bool => true) m)) c).
Proof.
  unfold masked, zeros2; cbn [t_rows t_cols]. split; [|reflexivity].
  now rewrite count_true_all, mask_select_repeat.
Qed.

Section Sampling.

Variable nodes : node_id -> Distribution.
Variable data : SimData.
Variable min_emitted_signal min_latent_signal : R.
Variable return_mag_adc clear_state_mag : bool.

Local Abbreviation exec_dist' :=
  (exec_dist nodes data min_emitted_signal min_latent_signal return_mag_adc).
Local Abbreviation exec_rep' :=
  (exec_rep nodes data min_emitted_signal min_latent_signal return_mag_adc
     clear_state_mag).

Lemma masked_dist_signal (m : list bool) (tm : list cten) :
  masked m (dist_signal data (mask_select m tm)) (dist_signal data tm).
Proof.
  unfold masked, dist_signal; cbn [t_rows t_cols]. split; [|reflexivity].
  now rewrite mask_select_map.
Qed.

Lemma signal_rot_sampled (ctx : RepCtx) (dist_traj : list vec4) :
  ctx_shaped ctx -> length dist_traj = length (c_adc ctx) ->
  signal_rot data ctx (mask_select (c_adc ctx) dist_traj)
  = mask_select (c_adc ctx) (signal_rot data (all_sampled_ctx ctx) dist_traj).
Proof.
  intros (_ & _ & _ & Hmp) Hl. unfold signal_rot, all_sampled_ctx;
    cbn [c_adc c_motion_phase].
  destruct (c_motion_phase ctx) as [mp|]; cbn [option_map].
  - rewrite (mask_select_all (c_adc ctx) mp) by (rewrite (Hmp mp eq_refl); lia).
    now rewrite mask_select_map2.
  - now rewrite mask_select_map.
Qed.

Lemma transverse_mag_sampled (ctx : RepCtx) (m : cten) (dist_traj : list vec4)
    (diffusion : list rten) :
  ctx_shaped ctx ->
  length dist_traj = length (c_adc ctx) ->
  length diffusion = length (c_adc ctx) ->
  transverse_mag data ctx m dist_traj diffusion
  = mask_select (c_adc ctx)
      (transverse_mag data (all_sampled_ctx ctx) m dist_traj diffusion).
Proof.
  intros Hs Hl Hd. pose proof Hs as (Ht & _).
  unfold transverse_mag. rewrite (signal_rot_sampled ctx dist_traj Hs Hl).
  cbn [c_adc all_sampled_ctx c_trajectory].
  rewrite !(mask_select_all (c_adc ctx)) by lia.
  now rewrite !mask_select_map2, !mask_select_map.
Qed.

Lemma exec_dist_sampled (ctx : RepCtx) (d : node_id) (a b : DistLoop) :
  ctx_shaped ctx -> loop_masked (c_adc ctx) a b ->
  rel_result (loop_masked (c_adc ctx)) (exec_dist' ctx d a)
    (exec_dist' (all_sampled_ctx ctx) d b).
Proof.
  intros Hs [Hst Hsig]. unfold exec_dist. rewrite Hst.
  destruct (skipped nodes min_latent_signal (dl_store b) d);
    [split; assumption|].
  change (c_coeffs (all_sampled_ctx ctx)) with (c_coeffs ctx).
  change (c_trajectory (all_sampled_ctx ctx)) with (c_trajectory ctx).
  destruct (sum_mags _ _ _) as [mg|e]; cbn [bind]; [|reflexivity].
  destruct (new_kt_vec _ _ _) as [kt|e]; cbn [bind]; [|reflexivity].
  change (b_factors (all_sampled_ctx ctx) kt (map (v4_add kt) (c_trajectory ctx)))
    with (b_factors ctx kt (map (v4_add kt) (c_trajectory ctx))).
  destruct (b_factors ctx kt _) as [bf|e] eqn:Eb; cbn [bind]; [|reflexivity].
  change (carry_over data (all_sampled_ctx ctx)) with (carry_over data ctx).
  assert (Hm : masked (c_adc ctx)
                 (fst (measure data min_emitted_signal return_mag_adc ctx (nodes d)
                         mg (map (v4_add kt) (c_trajectory ctx))
                         (diffusion_of data bf) a))
                 (fst (measure data min_emitted_signal return_mag_adc
                         (all_sampled_ctx ctx) (nodes d) mg
                         (map (v4_add kt) (c_trajectory ctx))
                         (diffusion_of data bf) b))).
  { unfold measure. destruct (_ && _); cbn [fst]; [|exact Hsig].
    apply masked_add_inplace; [exact Hsig|].
    pose proof Hs as (Ht & Hd & _).
    apply b_factors_length in Eb. rewrite length_map in Eb.
    rewrite transverse_mag_sampled.
    - apply masked_dist_signal.
    - exact Hs.
    - now rewrite length_map.
    - unfold diffusion_of. rewrite length_map, cumsum_length, Eb, Ht, Hd.
      apply Nat.min_id. }
  destruct (measure _ _ _ ctx _ _ _ _ a) as [sigA madcA].
  destruct (measure _ _ _ (all_sampled_ctx ctx) _ _ _ _ b) as [sigB madcB].
  cbn [fst] in Hm.
  destruct (carry_over data ctx _ _ _ _ _) as [mk|e]; cbn [bind]; [|reflexivity].
  split; [reflexivity|exact Hm].
Qed.

Lemma rotate_signal_sampled (ctx : RepCtx) (a b : tensor2) :
  ctx_shaped ctx -> masked (c_adc ctx) a b ->
  masked (c_adc ctx) (rotate_signal ctx a) (rotate_signal (all_sampled_ctx ctx) b).
Proof.
  intros (_ & _ & Hr & _) [Ha Hc]. unfold masked, rotate_signal;
    cbn [t_rows t_cols c_adc c_adc_rot all_sampled_ctx].
  split; [|exact Hc].
  rewrite (mask_select_all (c_adc ctx)) by lia.
  now rewrite mask_select_map2, Ha.
Qed.

(** One repetition in the pass as given and in the pass that samples every
    event: the same exception, or the same store and time with one more
    segment each, the first made of the rows of the second that the ADC
    mask of the repetition selects. *)
Lemma exec_rep_sampled (gs : vec3) (dists : list node_id) (rep : Repetition)
    (lsA lsB : LoopState) :
  ls_store lsA = ls_store lsB -> ls_t0 lsA = ls_t0 lsB ->
  rel_result
    (fun a b =>
       ls_store a = ls_store b /\ ls_t0 a = ls_t0 b /\
       exists seg seg_all,
         ls_signal a = ls_signal lsA ++ [seg] /\
         ls_signal b = ls_signal lsB ++ [seg_all] /\
         masked (adc_mask rep) seg seg_all /\
         length (t_rows seg_all) = length (events rep))
    (exec_rep' gs (dists, rep) lsA)
    (exec_rep' gs (dists, sample_all_rep rep) lsB).
Proof.
  intros Hst Ht. unfold exec_rep. rewrite rep_ctx_sampled, <- Ht.
  destruct (rep_ctx data gs (ls_t0 lsA) rep) as [ctx|e] eqn:Ec; cbn [bind];
    [|reflexivity].
  destruct (rep_ctx_shaped _ _ _ _ _ Ec) as [Hs _].
  destruct (rep_ctx_inv _ _ _ _ _ Ec) as (_ & Hadc & _).
  pose proof (foldM_rel (loop_masked (c_adc ctx)) (exec_dist' ctx)
                (exec_dist' (all_sampled_ctx ctx)) dists
                (fun d a b _ => exec_dist_sampled ctx d a b Hs)
                {| dl_store := ls_store lsA;
                   dl_rep_sig := zeros2 (count_true (c_adc ctx)) (coil_count data);
                   dl_mag_adc_rep := [] |}
                {| dl_store := ls_store lsB;
                   dl_rep_sig :=
                     zeros2 (count_true (c_adc (all_sampled_ctx ctx)))
                       (coil_count data);
                   dl_mag_adc_rep := [] |}) as Hf.
  assert (Hshape :
            forall stB,
              foldM (exec_dist' (all_sampled_ctx ctx)) dists
                {| dl_store := ls_store lsB;
                   dl_rep_sig :=
                     zeros2 (count_true (c_adc (all_sampled_ctx ctx)))
                       (coil_count data);
                   dl_mag_adc_rep := [] |} = Ok stB ->
              length (t_rows (dl_rep_sig stB)) = length (events rep)).
  { intros stB HB.
    assert (HsB : ctx_shaped (all_sampled_ctx ctx)).
    { destruct Hs as (H1 & H2 & H3 & H4). unfold ctx_shaped, all_sampled_ctx;
        cbn [c_adc c_trajectory c_dt c_adc_rot c_motion_phase].
      rewrite length_map. repeat split; assumption. }
    assert (Hw : well_shaped (count_true (c_adc (all_sampled_ctx ctx)))
                   (coil_count data) (dl_rep_sig stB)).
    { refine (foldM_invariant (exec_dist' (all_sampled_ctx ctx))
                (fun st => well_shaped (count_true (c_adc (all_sampled_ctx ctx)))
                             (coil_count data) (dl_rep_sig st)) dists _ _ stB _ HB).
      - intros x s s' _ Hw Hx. eapply exec_dist_shaped; eauto.
      - apply zeros2_shaped. }
    destruct Hw as [Hn _]. rewrite Hn. cbn [c_adc all_sampled_ctx].
    now rewrite count_true_all, Hadc, length_map. }
  assert (Hf' := Hf (Logic.conj Hst (masked_zeros (c_adc ctx) (coil_count data)))).
  destruct (foldM (exec_dist' ctx) dists _) as [stA|eA],
           (foldM (exec_dist' (all_sampled_ctx ctx)) dists _) as [stB|eB] eqn:EB;
    cbn [rel_result bind] in Hf' |- *; try contradiction; [|exact Hf'].
  destruct Hf' as [Hst' Hsig].
  cbn [ls_store ls_t0 ls_signal]. rewrite Hst'.
  split; [reflexivity|]. split; [reflexivity|].
  exists (rotate_signal ctx (dl_rep_sig stA)),
         (rotate_signal (all_sampled_ctx ctx) (dl_rep_sig stB)).
  do 2 (split; [reflexivity|]).
  unfold adc_mask. rewrite <- Hadc.
  split; [now apply rotate_signal_sampled|].
  unfold rotate_signal; cbn [t_rows c_adc c_adc_rot all_sampled_ctx].
  destruct Hs as (_ & _ & Hr & _).
  rewrite (mask_select_all (c_adc ctx)) by lia.
  rewrite map2_length, (Hshape stB eq_refl), Hr, Hadc, length_map.
  apply Nat.min_id.
Qed.

(** The loop over the repetitions in the pass as given and in the pass that
    samples every event. *)
Lemma run_reps_sampled (gs : vec3) (prs : list (list node_id * Repetition)) :
  forall lsA lsB,
    ls_store lsA = ls_store lsB -> ls_t0 lsA = ls_t0 lsB ->
    rel_result
      (fun a b =>
         ls_store a = ls_store b /\
         exists segs segs_all,
           ls_signal a = ls_signal lsA ++ segs /\
           ls_signal b = ls_signal lsB ++ segs_all /\
           Forall2 (fun (seg_all : tensor2) (pr : list node_id * Repetition) =>
                      length (t_rows seg_all) = length (events (snd pr)))
             segs_all prs /\
           Forall2 (fun seg (x : tensor2 * (list node_id * Repetition)) =>
                      masked (adc_mask (snd (snd x))) seg (fst x))
             segs (combine segs_all prs))
      (foldM (exec_rep' gs) prs lsA)
      (foldM (exec_rep' gs)
         (map (fun pr : list node_id * Repetition => (fst pr, sample_all_rep (snd pr)))
            prs) lsB).
Proof.
  induction prs as [|[dists rep] prs IH]; intros lsA lsB Hst Ht; cbn [foldM map].
  - cbn [rel_result]. split; [exact Hst|]. exists [], [].
    rewrite !app_nil_r. repeat split; constructor.
  - cbn [fst snd].
    pose proof (exec_rep_sampled gs dists rep lsA lsB Hst Ht) as Hx.
    destruct (exec_rep' gs (dists, rep) lsA) as [a|eA],
             (exec_rep' gs (dists, sample_all_rep rep) lsB) as [b|eB];
      cbn [rel_result bind] in Hx |- *; try contradiction; [|exact Hx].
    destruct Hx as (Hst1 & Ht1 & seg & seg_all & Ha & Hb & Hm & Hlen).
    specialize (IH a b Hst1 Ht1).
    destruct (foldM (exec_rep' gs) prs a) as [a'|eA],
             (foldM (exec_rep' gs) _ b) as [b'|eB];
      cbn [rel_result] in IH |- *; try contradiction; [|exact IH].
    destruct IH as (Hst' & segs & segs_all & Ha' & Hb' & Hl & Hmask).
    split; [exact Hst'|]. exists (seg :: segs), (seg_all :: segs_all).
    rewrite Ha', Hb', Ha, Hb, <- !app_assoc. cbn [app combine].
    repeat split; constructor; assumption.
Qed.

End Sampling.

Lemma paired_sample_all (graph : list (list node_id)) (seq : Sequence) :
  paired graph (sample_all seq)
  = map (fun pr : list node_id * Repetition => (fst pr, sample_all_rep (snd pr)))
      (paired graph seq).
Proof.
  unfold paired, sample_all; cbn [reps].
  generalize (tl graph) as l. generalize (reps seq) as m.
  induction m as [|r m IH]; intros [|d l]; cbn [combine map]; try reflexivity.
  now rewrite IH.
Qed.

Lemma masked_segments (segs segs_all : list tensor2)
    (prs : list (list node_id * Repetition)) :
  Forall2 (fun seg (x : tensor2 * (list node_id * Repetition)) =>
             masked (adc_mask (snd (snd x))) seg (fst x))
    segs (combine segs_all prs) ->
  map t_rows segs
  = map2 (fun (rows : list (list C)) (pr : list node_id * Repetition) =>
            mask_select (adc_mask (snd pr)) rows)
      (map t_rows segs_all) prs /\
  (forall seg rest seg_all rest_all,
     segs = seg :: rest -> segs_all = seg_all :: rest_all ->
     t_cols seg = t_cols seg_all).
Proof.
  revert segs prs. induction segs_all as [|sa segs_all IH]; intros segs prs H.
  - cbn in H. inversion H; subst. split; [reflexivity|]. intros; discriminate.
  - destruct prs as [|pr prs].
    + cbn in H. inversion H; subst. split; [reflexivity|]. intros; discriminate.
    + cbn [combine] in H. inversion H as [|seg x segs' l' [Hr Hc] Hrest]; subst.
      cbn [fst snd] in Hr, Hc. destruct (IH segs' prs Hrest) as [IH1 _].
      split.
      * cbn [map map2]. now rewrite Hr, IH1.
      * intros s0 r0 s1 r1 [= <- <-] [= <- <-]. exact Hc.
Qed.

(** ** The whole pass *)

Lemma rf_coefficients_total (data : SimData) (p : Pulse) :
  shim_ok data p -> exists c, rf_coefficients data p = Ok c.
Proof.
  unfold shim_ok, rf_coefficients, combined_B1. intros [H|H].
  - apply Nat.eqb_eq in H. rewrite H. simpl. now eexists.
  - apply Nat.eqb_eq in H. rewrite H.
    destruct (Nat.eqb (length (shim_array p)) 1); simpl; now eexists.
Qed.

Lemma rf_coefficients_mismatch (data : SimData) (p : Pulse) :
  ~ shim_ok data p -> rf_coefficients data p = Err (AssertionError "").
Proof.
  unfold shim_ok, rf_coefficients, combined_B1. intros H.
  destruct (Nat.eqb (length (shim_array p)) 1) eqn:E1.
  - apply Nat.eqb_eq in E1. tauto.
  - destruct (Nat.eqb (length (shim_array p)) (length (B1 data))) eqn:E2;
      [|reflexivity].
    apply Nat.eqb_eq in E2. tauto.
Qed.

Lemma segments_shapes (cc : nat) (sigs : list tensor2)
    (prs : list (list node_id * Repetition)) :
  Forall2 (fun seg (pr : list node_id * Repetition) =>
             well_shaped (adc_count (snd pr)) cc seg) sigs prs ->
  Forall2 (fun (rows : list (list C)) (pr : list node_id * Repetition) =>
             length rows = adc_count (snd pr)) (map t_rows sigs) prs /\
  Forall (fun row : list C => length row = cc) (concat (map t_rows sigs)) /\
  length (concat (map t_rows sigs))
  = list_sum (map (fun pr : list node_id * Repetition => adc_count (snd pr)) prs) /\
  Forall (fun t => t_cols t = cc) sigs.
Proof.
  induction 1 as [|seg pr sigs prs (Hn & Hc & Hf) _ (IH1 & IH2 & IH3 & IH4)]; simpl.
  - repeat split; constructor.
  - repeat split.
    + now constructor.
    + apply Forall_app. now split.
    + rewrite length_app, Hn, IH3. reflexivity.
    + now constructor.
Qed.

Section WholePass.

Variable nodes : node_id -> Distribution.
Variable data : SimData.
Variable min_emitted_signal min_latent_signal : R.
Variable return_mag_adc clear_state_mag : bool.

Local Abbreviation exec_dist' :=
  (exec_dist nodes data min_emitted_signal min_latent_signal return_mag_adc).
Local Abbreviation exec_rep' :=
  (exec_rep nodes data min_emitted_signal min_latent_signal return_mag_adc
     clear_state_mag).
Local Abbreviation run_reps' :=
  (run_reps nodes data min_emitted_signal min_latent_signal return_mag_adc
     clear_state_mag).
Local Abbreviation execute_graph' :=
  (execute_graph nodes data min_emitted_signal min_latent_signal return_mag_adc
     clear_state_mag).

Lemma execute_graph_inv (graph : list (list node_id)) (seq : Sequence)
    (intitial_mag : option cten) (s0 : store) (out : Output) :
  execute_graph' graph seq intitial_mag s0 = Ok out ->
  exists root r g ls sig,
    graph = (root :: r) :: g /\
    run_reps' seq (paired graph seq) (init_state root intitial_mag s0) = Ok ls /\
    cat (ls_signal ls) = Ok sig /\
    out = {| out_signal := sig;
             out_mag_adc := if return_mag_adc then Some (ls_mag_adc ls) else None;
             out_store := ls_store ls |}.
Proof.
  unfold execute_graph. destruct graph as [|[|root r] g]; try discriminate.
  intros H.
  destruct (run_reps' seq _ _) as [ls|] eqn:El; cbn [bind] in H; [|discriminate].
  destruct (cat (ls_signal ls)) as [sig|] eqn:Ec; cbn [bind] in H; [|discriminate].
  injection H as <-. exists root, r, g, ls, sig. repeat split; assumption.
Qed.

Lemma exec_rep_total (gs : vec3) (pr : list node_id * Repetition) (ls : LoopState) :
  shim_ok data (pulse (snd pr)) -> events (snd pr) <> [] ->
  Forall (fun d => labels_known (nodes d)) (fst pr) ->
  exists ls', exec_rep' gs pr ls = Ok ls'.
Proof.
  destruct pr as [dists rep]. simpl. intros Hs He Hl. unfold exec_rep.
  destruct (rep_ctx data gs (ls_t0 ls) rep) as [ctx|e] eqn:Ec.
  - cbn [bind].
    pose proof (rep_ctx_has_events _ _ _ _ _ He Ec) as Hev.
    destruct (foldM_total (exec_dist' ctx) dists) with
      (s := {| dl_store := ls_store ls;
               dl_rep_sig := zeros2 (count_true (c_adc ctx)) (coil_count data);
               dl_mag_adc_rep := [] |}) as [st ->].
    + intros d s Hd. apply exec_dist_total; [exact Hev|].
      rewrite Forall_forall in Hl. now apply Hl.
    + cbn [bind]. now eexists.
  - exfalso. unfold rep_ctx in Ec.
    destruct (rf_coefficients_total data (pulse rep) Hs) as [c Hc].
    rewrite Hc in Ec. discriminate.
Qed.

(** The pass returns on every well-formed input. *)
Lemma execute_graph_total (graph : list (list node_id)) (seq : Sequence)
    (intitial_mag : option cten) (s0 : store) :
  well_formed nodes data graph seq ->
  exists out, execute_graph' graph seq intitial_mag s0 = Ok out.
Proof.
  intros ((root & r & g & Hg) & Hne & Hf). unfold execute_graph. rewrite Hg.
  rewrite <- Hg.
  destruct (foldM_total (exec_rep' (grad_scale data seq)) (paired graph seq))
    with (s := init_state root intitial_mag s0) as [ls Hls].
  - intros pr s Hin. rewrite Forall_forall in Hf.
    destruct (Hf pr Hin) as (H1 & H2 & H3). now apply exec_rep_total.
  - unfold run_reps. rewrite Hls. cbn [bind].
    destruct (run_reps_signal nodes data min_emitted_signal min_latent_signal
                return_mag_adc clear_state_mag _ _ _ _ Hls) as (segs & Hs & _ & H2).
    rewrite Hs. simpl app.
    destruct segs as [|seg segs].
    + inversion H2 as [Hp|]. congruence.
    + simpl. now eexists.
Qed.

(** C7: the pass returns on every well-formed input, and whenever it
    returns, the signal has one column per receive coil and as many rows as
    the ADC usage masks of the processed repetitions have true entries.  The
    rows are those of the sampled events, repetition after repetition and
    event after event: the pass run on the same graph with every event of
    the sequence sampled returns one row per event of the processed
    repetitions, the events of the first processed repetition first, and the
    signal consists of the rows of the events whose ADC usage is positive,
    in that order.  A repetition whose mask is all false contributes no
    row. *)
Theorem signal_shape (graph : list (list node_id)) (seq : Sequence)
    (intitial_mag : option cten) (s0 : store) :
  (well_formed nodes data graph seq ->
   exists out, execute_graph' graph seq intitial_mag s0 = Ok out) /\
  forall out,
    execute_graph' graph seq intitial_mag s0 = Ok out ->
    t_cols (out_signal out) = coil_count data /\
    length (t_rows (out_signal out))
    = list_sum (map (fun pr : list node_id * Repetition => adc_count (snd pr))
                  (paired graph seq)) /\
    Forall (fun row : list C => length row = coil_count data)
      (t_rows (out_signal out)) /\
    (exists (out_all : Output) (per_event : list (list (list C))),
       execute_graph' graph (sample_all seq) intitial_mag s0 = Ok out_all /\
       Forall2 (fun (rows : list (list C)) (pr : list node_id * Repetition) =>
                  length rows = length (events (snd pr)))
         per_event (paired graph seq) /\
       t_rows (out_signal out_all) = concat per_event /\
       t_rows (out_signal out)
       = concat (map2 (fun (rows : list (list C)) (pr : list node_id * Repetition) =>
                         mask_select (adc_mask (snd pr)) rows)
                   per_event (paired graph seq))) /\
    (forall (rows : list (list C)) (pr : list node_id * Repetition),
       adc_count (snd pr) = 0%nat -> mask_select (adc_mask (snd pr)) rows = []).
Proof.
  split; [apply execute_graph_total|].
  intros out H.
  destruct (execute_graph_inv _ _ _ _ _ H) as (root & r & g & ls & sig & Hg & Hl & Hc & ->).
  cbn [out_signal].
  destruct (run_reps_signal nodes data min_emitted_signal min_latent_signal
              return_mag_adc clear_state_mag _ _ _ _ Hl) as (segs0 & Hs & _ & H2).
  simpl in Hs.
  destruct (segments_shapes _ _ _ H2) as (F1 & F2 & F3 & F4).
  pose proof (run_reps_sampled nodes data min_emitted_signal min_latent_signal
                return_mag_adc clear_state_mag (grad_scale data seq)
                (paired graph seq) (init_state root intitial_mag s0)
                (init_state root intitial_mag s0) eq_refl eq_refl) as Hrun.
  unfold run_reps in Hl. rewrite Hl in Hrun.
  destruct (foldM _ (map _ (paired graph seq)) _) as [lsB|eB] eqn:EB;
    cbn [rel_result] in Hrun; [|contradiction].
  destruct Hrun as (_ & segs & segs_all & Ha & Hb & Hlen & Hmask).
  cbn [ls_signal init_state app] in Ha, Hb.
  rewrite Ha in Hs. subst segs0. rewrite Ha in Hc.
  unfold cat in Hc. destruct segs as [|seg segs]; [discriminate|].
  injection Hc as <-. cbn [t_rows t_cols].
  split; [now inversion F4|]. split; [exact F3|]. split; [exact F2|].
  split; [|intros rows pr Hz; now apply mask_select_none].
  destruct segs_all as [|seg_all segs_all]; [inversion Hmask|].
  exists {| out_signal :=
              Tensor2 (concat (map t_rows (seg_all :: segs_all))) (t_cols seg_all);
            out_mag_adc := if return_mag_adc then Some (ls_mag_adc lsB) else None;
            out_store := ls_store lsB |},
         (map t_rows (seg_all :: segs_all)).
  split; [|split; [|split]].
  - unfold execute_graph, run_reps. rewrite Hg, <- Hg, paired_sample_all.
    change (grad_scale data (sample_all seq)) with (grad_scale data seq).
    rewrite EB. cbn [bind]. rewrite Hb. reflexivity.
  - clear - Hlen. induction Hlen; cbn [map]; constructor; assumption.
  - reflexivity.
  - change (t_rows seg ++ concat (map t_rows segs))
      with (concat (map t_rows (seg :: segs))).
    f_equal. exact (proj1 (masked_segments _ _ _ Hmask)).
Qed.

End WholePass.

(** ** Pairing of graph and sequence *)

Lemma nth_error_combine {A B : Type} (l : list A) (m : list B) (i : nat) :
  nth_error (combine l m) i =
  match nth_error l i, nth_error m i with
  | Some a, Some b => Some (a, b)
  | _, _ => None
  end.
Proof.
  revert m i. induction l as [|x l IH]; intros [|y m] [|i]; simpl; auto;
    now destruct (nth_error l i).
Qed.

Lemma paired_length (graph : list (list node_id)) (seq : Sequence) :
  length (paired graph seq) = processed_count graph seq.
Proof.
  unfold paired, processed_count. rewrite length_combine.
  destruct graph; simpl; [reflexivity|]. now rewrite Nat.sub_0_r.
Qed.

Lemma paired_truncate (graph : list (list node_id)) (seq : Sequence) :
  paired (firstn (S (processed_count graph seq)) graph)
    (truncate_seq (processed_count graph seq) seq)
  = paired graph seq.
Proof.
  pose proof (paired_length graph seq) as Hl. unfold paired in *.
  destruct graph as [|g0 g]; simpl; [reflexivity|]. simpl in Hl.
  rewrite <- combine_firstn, <- Hl. apply firstn_all.
Qed.

Lemma steps_foldM {A S : Type} (f : A -> S -> result S) (l : list A) (s s' : S) :
  steps f l s s' <-> foldM f l s = Ok s'.
Proof.
  split.
  - induction 1 as [s|x l s s1 s2 Hx _ IH]; cbn [foldM]; [reflexivity|].
    now rewrite Hx.
  - revert s. induction l as [|x l IH]; intros s H; cbn [foldM] in H.
    + injection H as <-. constructor.
    + destruct (f x s) as [s1|] eqn:Hx; cbn [bind] in H; [|discriminate].
      econstructor; [exact Hx|]. now apply IH.
Qed.

Lemma combine_indexed {A B : Type} (l : list A) (m : list B) :
  combine l m
  = flat_map (fun i => match nth_error l i, nth_error m i with
                       | Some a, Some b => [(a, b)]
                       | _, _ => []
                       end)
      (List.seq 0 (Nat.min (length l) (length m))).
Proof.
  revert m. induction l as [|a l IH]; intros [|b m]; cbn [combine length Nat.min];
    try reflexivity.
  cbn [List.seq flat_map nth_error app]. f_equal.
  rewrite <- seq_shift, flat_map_concat_map, map_map, <- flat_map_concat_map.
  apply IH.
Qed.

Lemma paired_indexed (graph : list (list node_id)) (seq : Sequence) :
  paired graph seq = indexed_pairs graph seq (processed_count graph seq).
Proof.
  unfold paired, indexed_pairs, processed_count. rewrite combine_indexed.
  destruct graph as [|l0 graph]; cbn [tl length nth_error].
  - reflexivity.
  - replace (S (length graph) - 1)%nat with (length graph) by lia. reflexivity.
Qed.

Section Truncation.

Variable nodes : node_id -> Distribution.
Variable data : SimData.
Variable min_emitted_signal min_latent_signal : R.
Variable return_mag_adc clear_state_mag : bool.

Local Abbreviation exec_rep' :=
  (exec_rep nodes data min_emitted_signal min_latent_signal return_mag_adc
     clear_state_mag).
Local Abbreviation execute_graph' :=
  (execute_graph nodes data min_emitted_signal min_latent_signal return_mag_adc
     clear_state_mag).

(** C10: with n = min(len(graph) - 1, len(seq)), the pass returns exactly
    when graph[0][0] exists, the body of the loop over the repetitions runs
    without raising on (graph[1], seq[0]), ..., (graph[n], seq[n-1]), in
    this order and starting from the seeded state, and torch.cat accepts the
    segments; what it returns is the signal, measured magnetisation and
    store this run leaves.  It returns on every well-formed input, then with
    one list of measured magnetisations per processed repetition.  Running
    it on the graph and the sequence cut to that count gives the same result
    (signal, measured magnetisation, store, or exception), whatever the
    graph lists and the repetitions beyond that count are. *)
Theorem excess_repetitions_ignored (graph : list (list node_id)) (seq : Sequence)
    (intitial_mag : option cten) (s0 : store) :
  let n := processed_count graph seq in
  let prs := indexed_pairs graph seq n in
  length prs = n /\
  (forall i,
     nth_error prs i =
     match nth_error graph (S i), nth_error (reps seq) i with
     | Some dists, Some rep => Some (dists, rep)
     | _, _ => None
     end) /\
  (forall out,
     execute_graph' graph seq intitial_mag s0 = Ok out <->
     exists root r g ls sig,
       graph = (root :: r) :: g /\
       steps (exec_rep' (grad_scale data seq)) prs
         (init_state root intitial_mag s0) ls /\
       cat (ls_signal ls) = Ok sig /\
       out = {| out_signal := sig;
                out_mag_adc := if return_mag_adc then Some (ls_mag_adc ls) else None;
                out_store := ls_store ls |}) /\
  (well_formed nodes data graph seq ->
   exists out, execute_graph' graph seq intitial_mag s0 = Ok out) /\
  (forall out madc,
     execute_graph' graph seq intitial_mag s0 = Ok out ->
     out_mag_adc out = Some madc ->
     length madc = n) /\
  execute_graph' graph seq intitial_mag s0
  = execute_graph' (firstn (S n) graph) (truncate_seq n seq) intitial_mag s0.
Proof.
  cbv zeta. rewrite <- paired_indexed.
  split; [apply paired_length|]. split; [|split; [|split; [|split]]].
  - intro i. unfold paired. rewrite nth_error_combine.
    destruct graph; [destruct i|]; reflexivity.
  - intro out. split.
    + intros H.
      destruct (execute_graph_inv _ _ _ _ _ _ _ _ _ _ _ H)
        as (root & r & g & ls & sig & Hg & Hl & Hc & ->).
      exists root, r, g, ls, sig. repeat split; auto. now apply steps_foldM.
    + intros (root & r & g & ls & sig & Hg & Hl & Hc & ->).
      apply steps_foldM in Hl. unfold execute_graph, run_reps.
      rewrite Hg, <- Hg, Hl. cbn [bind]. now rewrite Hc.
  - apply execute_graph_total.
  - intros out madc H Hm.
    destruct (execute_graph_inv _ _ _ _ _ _ _ _ _ _ _ H)
      as (root & r & g & ls & sig & _ & Hl & _ & ->).
    cbn [out_mag_adc] in Hm.
    destruct return_mag_adc; [|discriminate]. injection Hm as <-.
    destruct (run_reps_signal _ _ _ _ _ _ _ _ _ _ Hl) as (_ & _ & Hn & _).
    rewrite Hn, paired_length. reflexivity.
  - unfold execute_graph. rewrite paired_truncate.
    destruct graph as [|[|root r] g]; reflexivity.
Qed.

End Truncation.

(** ** The whole pass on the example graph *)

Lemma example_well_formed :
  well_formed GraphExamples.nodes Examples.phantom GraphExamples.graph Examples.seq1.
Proof.
  unfold well_formed. split; [now exists 0%nat, [], [[4; 1; 2; 3]%nat]|].
  split; [discriminate|].
  repeat constructor; try discriminate;
    apply example_labels_known; discriminate.
Qed.

Lemma example_two_well_formed :
  well_formed GraphExamples.nodes Examples.phantom GraphExamples.graph_two
    Examples.seq_two.
Proof.
  unfold well_formed.
  split; [now exists 0%nat, [], [[4; 1; 2; 3]%nat; [6%nat]]|].
  split; [discriminate|].
  repeat constructor; try discriminate;
    apply example_labels_known; discriminate.
Qed.

Lemma signal_shape_witness :
  exists out,
    execute_graph GraphExamples.nodes Examples.phantom 0.01 0.01 false true
      GraphExamples.graph_two Examples.seq_two None Examples.fresh_store = Ok out /\
    t_cols (out_signal out) = 1%nat /\
    length (t_rows (out_signal out)) = 3%nat /\
    exists rows1 rows2 : list (list C),
      length rows1 = 2%nat /\ length rows2 = 3%nat /\
      t_rows (out_signal out)
      = mask_select [false; true] rows1 ++ mask_select [true; false; true] rows2.
Proof.
  destruct (signal_shape GraphExamples.nodes Examples.phantom 0.01 0.01 false true
              GraphExamples.graph_two Examples.seq_two None Examples.fresh_store)
    as [Hret Hshape].
  destruct (Hret example_two_well_formed) as [out H].
  exists out. split; [exact H|].
  destruct (Hshape out H)
    as (Hc & Hr & _ & (out_all & per_event & _ & Hlen & _ & Hrows) & _).
  split; [exact Hc|]. split; [exact Hr|].
  unfold paired, GraphExamples.graph_two, Examples.seq_two in Hlen, Hrows.
  cbn [tl reps combine] in Hlen, Hrows.
  inversion Hlen as [|rows1 pr1 l1 l1' Hl1 Hrest1]; subst.
  inversion Hrest1 as [|rows2 pr2 l2 l2' Hl2 Hrest2]; subst.
  inversion Hrest2; subst.
  exists rows1, rows2. split; [exact Hl1|]. split; [exact Hl2|].
  rewrite Hrows. cbn [map2 concat]. rewrite app_nil_r. reflexivity.
Defined.

Lemma excess_repetitions_ignored_witness :
  processed_count GraphExamples.graph_two Examples.seq_three = 2%nat /\
  indexed_pairs GraphExamples.graph_two Examples.seq_three 2
  = [([4; 1; 2; 3]%nat, Examples.rep90); ([6%nat], Examples.rep_ada)] /\
  execute_graph GraphExamples.nodes Examples.phantom 0.01 0.01 false true
    GraphExamples.graph_two Examples.seq_three None Examples.fresh_store
  = execute_graph GraphExamples.nodes Examples.phantom 0.01 0.01 false true
      GraphExamples.graph_two Examples.seq_two None Examples.fresh_store.
Proof.
  split; [reflexivity|]. split; [reflexivity|].
  exact (proj2 (proj2 (proj2 (proj2 (proj2
    (excess_repetitions_ignored GraphExamples.nodes Examples.phantom 0.01 0.01 false
       true GraphExamples.graph_two Examples.seq_three None
       Examples.fresh_store)))))).
Defined.

(** ** Pruning *)

Lemma set_mag_None (s : store) (p d : node_id) :
  mag (set_mag s p None d) = None \/ mag (set_mag s p None d) = mag (s d).
Proof.
  unfold set_mag, upd. destruct (Nat.eqb d p); [now left|now right].
Qed.

Lemma clear_ancestors_mag (anc : list (string * node_id)) :
  forall (s : store) (d : node_id),
    let s' := fold_left (fun s ancestor => set_mag s (snd ancestor) None) anc s in
    mag (s' d) = None \/ mag (s' d) = mag (s d).
Proof.
  induction anc as [|a anc IH]; intros s d; simpl; [now right|].
  destruct (IH (set_mag s (snd a) None) d) as [H|H]; [now left|].
  simpl in H. rewrite H. apply set_mag_None.
Qed.

Lemma clear_mags_mag (nodes : node_id -> Distribution) (dists : list node_id) :
  forall (s : store) (d : node_id),
    mag (clear_mags nodes dists s d) = None \/
    mag (clear_mags nodes dists s d) = mag (s d).
Proof.
  unfold clear_mags. induction dists as [|x dists IH]; intros s d; simpl;
    [now right|].
  destruct (IH (fold_left (fun s ancestor => set_mag s (snd ancestor) None)
                  (ancestors (nodes x)) s) d) as [H|H]; [now left|].
  rewrite H. apply clear_ancestors_mag.
Qed.

Section Pruning.

Variable nodes : node_id -> Distribution.
Variable data : SimData.
Variable min_emitted_signal min_latent_signal : R.
Variable return_mag_adc clear_state_mag : bool.
Variable root : node_id.

Local Abbreviation exec_dist' :=
  (exec_dist nodes data min_emitted_signal min_latent_signal return_mag_adc).
Local Abbreviation exec_rep' :=
  (exec_rep nodes data min_emitted_signal min_latent_signal return_mag_adc
     clear_state_mag).
Local Abbreviation run_reps' :=
  (run_reps nodes data min_emitted_signal min_latent_signal return_mag_adc
     clear_state_mag).
Local Abbreviation execute_graph' :=
  (execute_graph nodes data min_emitted_signal min_latent_signal return_mag_adc
     clear_state_mag).
Local Abbreviation pruned' := (pruned nodes min_latent_signal root).
Local Abbreviation unsimulated' := (unsimulated nodes min_latent_signal root).

Lemma pruned_not_root (d : node_id) : pruned' d -> d <> root.
Proof. now destruct 1. Qed.

Lemma pruned_skipped (s : store) (d : node_id) :
  unsimulated' s -> pruned' d -> skipped nodes min_latent_signal s d = true.
Proof.
  intros Hs Hd. apply skipped_true_iff.
  destruct Hd as [d Hz _ Hl|d Hz _ Ha]; split; auto.
  right. apply simulated_nil_iff. intros e He. apply Hs. now apply Ha.
Qed.

Lemma exec_dist_unsimulated (ctx : RepCtx) (d : node_id) (st st' : DistLoop) :
  unsimulated' (dl_store st) -> exec_dist' ctx d st = Ok st' ->
  unsimulated' (dl_store st').
Proof.
  intros Hs H.
  destruct (skipped nodes min_latent_signal (dl_store st) d) eqn:Esk.
  - rewrite (exec_dist_skipped _ _ _ _ _ ctx d st Esk) in H. now injection H as <-.
  - destruct (exec_dist_evaluated _ _ _ _ _ ctx d st st' Esk H)
      as (m & kt & b & mk & _ & _ & _ & _ & ->).
    intros d' Hd'. cbn [dl_store].
    destruct (Nat.eq_dec d' d) as [->|Hne].
    + rewrite (pruned_skipped _ _ Hs Hd') in Esk. discriminate.
    + rewrite upd_other by assumption. now apply Hs.
Qed.

Lemma exec_rep_unsimulated (gs : vec3) (pr : list node_id * Repetition)
    (ls ls' : LoopState) :
  unsimulated' (ls_store ls) -> exec_rep' gs pr ls = Ok ls' ->
  unsimulated' (ls_store ls').
Proof.
  destruct pr as [dists rep]. unfold exec_rep. intros Hs H.
  destruct (rep_ctx data gs (ls_t0 ls) rep) as [ctx|]; cbn [bind] in H;
    [|discriminate].
  destruct (foldM _ _ _) as [st|] eqn:Ef; cbn [bind] in H; [|discriminate].
  injection H as <-. cbn [ls_store].
  assert (Hst : unsimulated' (dl_store st)).
  { refine (foldM_invariant (exec_dist' ctx) (fun st => unsimulated' (dl_store st))
              dists _ _ st _ Ef).
    - intros x s s' _. apply exec_dist_unsimulated.
    - exact Hs. }
  destruct clear_state_mag; [|exact Hst].
  intros d Hd. destruct (clear_mags_mag nodes dists (dl_store st) d) as [H|H]; auto.
  rewrite H. now apply Hst.
Qed.

Lemma run_reps_unsimulated (seq : Sequence) (prs : list (list node_id * Repetition))
    (ls ls' : LoopState) :
  unsimulated' (ls_store ls) -> run_reps' seq prs ls = Ok ls' ->
  unsimulated' (ls_store ls').
Proof.
  intros Hs H.
  refine (foldM_invariant _ (fun ls => unsimulated' (ls_store ls)) prs _ _ ls' Hs H).
  intros x s s' _. apply exec_rep_unsimulated.
Qed.

Lemma init_state_unsimulated (intitial_mag : option cten) (s0 : store) :
  unsimulated' s0 -> unsimulated' (ls_store (init_state root intitial_mag s0)).
Proof.
  intros Hs d Hd. pose proof (pruned_not_root d Hd) as Hne.
  unfold init_state, set_kt_vec, set_mag. cbn [ls_store].
  rewrite !upd_other by assumption. now apply Hs.
Qed.

(** C4, as the code has it: a distribution that is not of the equilibrium
    type and whose latent signal is below the threshold is skipped whenever
    the pass visits it.  On a graph in which no pruned distribution has a
    magnetisation to begin with, a distribution that is not of the
    equilibrium type (and not the seeded root) and whose latent signal is
    below the threshold, or all of whose ancestors are such distributions, is
    skipped whenever the pass visits it, every step of the pass keeps all of
    them without magnetisation, and so they are after every processed
    repetition and in the graph the pass leaves behind. *)
Theorem pruned_never_simulated (graph : list (list node_id)) (seq : Sequence)
    (intitial_mag : option cten) (s0 : store) (r : list node_id)
    (g : list (list node_id)) :
  graph = (root :: r) :: g ->
  unsimulated' s0 ->
  (forall ctx d st,
     dist_type (nodes d) <> "z0"%string ->
     latent_signal (nodes d) < min_latent_signal ->
     exec_dist' ctx d st = Ok st) /\
  (forall ctx d st,
     pruned' d -> unsimulated' (dl_store st) -> exec_dist' ctx d st = Ok st) /\
  (forall ctx d st st',
     unsimulated' (dl_store st) -> exec_dist' ctx d st = Ok st' ->
     unsimulated' (dl_store st')) /\
  (forall pre post ls,
     paired graph seq = pre ++ post ->
     run_reps' seq pre (init_state root intitial_mag s0) = Ok ls ->
     unsimulated' (ls_store ls)) /\
  (forall out,
     execute_graph' graph seq intitial_mag s0 = Ok out ->
     unsimulated' (out_store out)).
Proof.
  intros Hg Hs. split; [|split; [|split; [|split]]].
  - intros ctx d st Hz Hl. apply exec_dist_skipped. apply skipped_true_iff. auto.
  - intros ctx d st Hd Hst. apply exec_dist_skipped. now apply pruned_skipped.
  - intros ctx d st st'. apply exec_dist_unsimulated.
  - intros pre post ls _ H.
    apply (run_reps_unsimulated seq pre _ ls (init_state_unsimulated _ _ Hs) H).
  - intros out H.
    destruct (execute_graph_inv _ _ _ _ _ _ _ _ _ _ _ H)
      as (root' & r' & g' & ls & sig & Hg' & Hl & _ & ->).
    rewrite Hg in Hg'. injection Hg' as <- _ _. cbn [out_store].
    apply (run_reps_unsimulated seq _ _ ls (init_state_unsimulated _ _ Hs) Hl).
Qed.

End Pruning.

Lemma example_node3_pruned : pruned GraphExamples.nodes 0.01 0%nat 3%nat.
Proof.
  apply pruned_latent; simpl; [discriminate|discriminate|lra].
Qed.

Lemma fresh_store_unsimulated :
  unsimulated GraphExamples.nodes 0.01 0%nat Examples.fresh_store.
Proof. intros d _. reflexivity. Qed.

Lemma pruned_never_simulated_witness :
  exists out,
    execute_graph GraphExamples.nodes Examples.phantom 0.01 0.01 false true
      GraphExamples.graph Examples.seq1 None Examples.fresh_store = Ok out /\
    mag (out_store out 3%nat) = None.
Proof.
  destruct (execute_graph_total GraphExamples.nodes Examples.phantom 0.01 0.01 false
              true GraphExamples.graph Examples.seq1 None Examples.fresh_store
              example_well_formed) as [out H].
  exists out. split; [exact H|].
  destruct (pruned_never_simulated GraphExamples.nodes Examples.phantom 0.01 0.01
              false true 0%nat GraphExamples.graph Examples.seq1 None
              Examples.fresh_store [] [[4; 1; 2; 3]%nat] eq_refl
              fresh_store_unsimulated) as (_ & _ & _ & _ & Hout).
  exact (Hout out H 3%nat example_node3_pruned).
Defined.

Lemma exec_dist_sets_mag (nodes : node_id -> Distribution) (data : SimData)
    (min_emitted_signal min_latent_signal : R) (return_mag_adc : bool)
    (ctx : RepCtx) (d : node_id) (st st' : DistLoop) :
  skipped nodes min_latent_signal (dl_store st) d = false ->
  exec_dist nodes data min_emitted_signal min_latent_signal return_mag_adc ctx d st
  = Ok st' ->
  mag (dl_store st' d) <> None.
Proof.
  intros Hs H.
  destruct (exec_dist_evaluated _ _ _ _ _ ctx d st st' Hs H)
    as (m & kt & b & mk & _ & _ & _ & _ & ->).
  cbn [dl_store]. rewrite upd_same. discriminate.
Qed.

Lemma example_rep_ctx_any (gs : vec3) (t0 : R) :
  exists ctx, rep_ctx Examples.phantom gs t0 Examples.rep90 = Ok ctx.
Proof. eexists. reflexivity. Qed.

(** C4 as stated fails: the equilibrium state of the second repetition has a
    latent signal below the threshold, and the pass computes its
    magnetisation all the same. *)
Lemma equilibrium_below_threshold_simulated :
  latent_signal (GraphExamples.nodes 4%nat) < 0.01 /\
  match execute_graph GraphExamples.nodes Examples.phantom 0.01 0.01 false true
          GraphExamples.graph_z0 Examples.seq1 None Examples.fresh_store with
  | Ok out => mag (out_store out 4%nat) <> None
  | Err _ => False
  end.
Proof.
  split; [simpl; lra|].
  unfold execute_graph, GraphExamples.graph_z0, run_reps, paired.
  cbn [tl reps Examples.seq1 combine foldM].
  unfold exec_rep.
  destruct (example_rep_ctx_any (grad_scale Examples.phantom Examples.seq1)
              (ls_t0 (init_state 0%nat None Examples.fresh_store))) as [ctx Hctx].
  rewrite Hctx. cbn [bind foldM].
  assert (Hev : ctx_has_events ctx).
  { eapply rep_ctx_has_events; [|exact Hctx]. discriminate. }
  assert (Hl : labels_known (GraphExamples.nodes 4%nat)).
  { apply example_labels_known. discriminate. }
  match goal with
  | |- context [exec_dist ?n ?d ?a ?b ?c ctx 4%nat ?st] =>
      destruct (exec_dist_total n d a b c ctx 4%nat st Hev Hl) as [st' Hst];
      pose proof (exec_dist_sets_mag n d a b c ctx 4%nat st st' eq_refl Hst) as Hmag;
      rewrite Hst
  end.
  cbn [bind ls_signal init_state app cat out_store ls_store].
  unfold clear_mags. cbn [fold_left GraphExamples.nodes GraphExamples.dist ancestors snd].
  unfold set_mag. rewrite upd_other by discriminate. exact Hmag.
Qed.

Lemma example_node6_evaluated (s : store) :
  mag (s 3%nat) <> None -> skipped GraphExamples.nodes 0.01 s 6%nat = false.
Proof.
  intros Hm. apply skipped_false_iff. right. split.
  - simpl. lra.
  - exists ("z+"%string, 3%nat). split; [now left|exact Hm].
Qed.

(** C3 as stated fails on a graph that still holds a magnetisation from an
    earlier call: node 3 is not of the equilibrium type and its latent
    signal is below the threshold, so the pass skips it, but the
    magnetisation it holds is found by its descendant node 6 in the next
    repetition, which is evaluated from it. *)
Lemma stale_skipped_node_feeds_descendant :
  dist_type (GraphExamples.nodes 3%nat) <> "z0"%string /\
  latent_signal (GraphExamples.nodes 3%nat) < 0.01 /\
  ancestors (GraphExamples.nodes 6%nat) = [("z+"%string, 3%nat)] /\
  match execute_graph GraphExamples.nodes Examples.phantom 0.01 0.01 false true
          GraphExamples.graph_stale Examples.seq2 None GraphExamples.stale_store with
  | Ok out => mag (out_store out 6%nat) <> None
  | Err _ => False
  end.
Proof.
  split; [simpl; discriminate|]. split; [simpl; lra|]. split; [reflexivity|].
  unfold execute_graph, GraphExamples.graph_stale, run_reps, paired.
  cbn [tl reps Examples.seq2 combine foldM].
  unfold exec_rep at 1.
  destruct (example_rep_ctx_any (grad_scale Examples.phantom Examples.seq2)
              (ls_t0 (init_state 0%nat None GraphExamples.stale_store)))
    as [ctx1 Hctx1].
  rewrite Hctx1. cbn [bind foldM].
  rewrite exec_dist_skipped
    by (apply skipped_true_iff; split; [simpl; discriminate|left; simpl; lra]).
  cbn [bind dl_store dl_rep_sig dl_mag_adc_rep].
  unfold exec_rep. cbn [ls_t0 ls_store ls_signal ls_mag_adc].
  destruct (example_rep_ctx_any (grad_scale Examples.phantom Examples.seq2)
              (ls_t0 (init_state 0%nat None GraphExamples.stale_store)
               + c_total_time ctx1)) as [ctx2 Hctx2].
  rewrite Hctx2. cbn [bind foldM].
  assert (Hev : ctx_has_events ctx2).
  { eapply rep_ctx_has_events; [|exact Hctx2]. discriminate. }
  assert (Hl : labels_known (GraphExamples.nodes 6%nat)).
  { apply example_labels_known. discriminate. }
  match goal with
  | |- context [exec_dist ?n ?d ?a ?b ?c ctx2 6%nat ?st] =>
      assert (Hsk : skipped n b (dl_store st) 6%nat = false)
        by (apply example_node6_evaluated; cbn; discriminate);
      destruct (exec_dist_total n d a b c ctx2 6%nat st Hev Hl) as [st' Hst];
      pose proof (exec_dist_sets_mag n d a b c ctx2 6%nat st st' Hsk Hst) as Hmag;
      rewrite Hst
  end.
  cbn [bind ls_signal init_state app cat out_store ls_store].
  unfold clear_mags. cbn [fold_left GraphExamples.nodes GraphExamples.dist ancestors snd].
  unfold set_mag. rewrite upd_other by discriminate. exact Hmag.
Qed.

(** ** Configuration errors *)

Lemma calc_mag_unknown (c : RFCoeffs) (s : store) (label : string) (p : node_id) :
  transition_of label = None ->
  calc_mag c s (label, p) = Err (ValueError ("Unknown transform " ++ label)).
Proof.
  unfold calc_mag, transition_of. cbn [fst snd].
  repeat match goal with
         | |- context [String.eqb ?a ?b] =>
             destruct (String.eqb a b); [discriminate|]
         end.
  reflexivity.
Qed.


Section ConfigurationErrors.

Variable nodes : node_id -> Distribution.
Variable data : SimData.
Variable min_emitted_signal min_latent_signal : R.
Variable return_mag_adc clear_state_mag : bool.

Local Abbreviation exec_dist' :=
  (exec_dist nodes data min_emitted_signal min_latent_signal return_mag_adc).
Local Abbreviation exec_rep' :=
  (exec_rep nodes data min_emitted_signal min_latent_signal return_mag_adc
     clear_state_mag).
Local Abbreviation run_reps' :=
  (run_reps nodes data min_emitted_signal min_latent_signal return_mag_adc
     clear_state_mag).
Local Abbreviation execute_graph' :=
  (execute_graph nodes data min_emitted_signal min_latent_signal return_mag_adc
     clear_state_mag).


Lemma exec_rep_shim_mismatch (gs : vec3) (dists : list node_id) (rep : Repetition)
    (ls : LoopState) :
  ~ shim_ok data (pulse rep) -> exec_rep' gs (dists, rep) ls = Err (AssertionError "").
Proof.
  intros H. unfold exec_rep, rep_ctx.
  now rewrite (rf_coefficients_mismatch data (pulse rep) H).
Qed.




End ConfigurationErrors.





(** * Further properties of the pass *)

(** ** Magnitudes of the RF coefficients *)









(** X2: a pulse of flip angle zero mixes nothing: z_to_z and p_to_p are one,
    the four other coefficients are zero, so a zz or ++ ancestor hands on its
    magnetisation unchanged and any other ancestor contributes nothing. *)
Theorem zero_flip_angle_is_identity (data : SimData) (p : Pulse) (c : RFCoeffs) :
  angle p = 0 ->
  rf_coefficients data p = Ok c ->
  forall v,
    z_to_z c v = 1 /\ p_to_p c v = 1 /\
    z_to_p c v = C0 /\ p_to_z c v = C0 /\ m_to_z c v = C0 /\ m_to_p c v = C0 /\
    forall (t : transition) (parent : cten),
      spec_contribution c t parent v
      = match t with
        | T_zz | T_pp => parent v
        | _ => C0
        end.
Proof.
  unfold rf_coefficients. intros Ha H v.
  destruct (combined_B1 data p) as [b1|] eqn:E; cbn [bind] in H; [|discriminate].
  injection H as <-.
  assert (Hzp : z_to_p (rf_coeffs_of b1 p) v = C0).
  { rewrite z_to_p_components, Ha, Rmult_0_l, sin_0.
    apply C_eq_intro; unfold C0, re, im; cbn [fst snd]; ring. }
  assert (Hzz : z_to_z (rf_coeffs_of b1 p) v = 1).
  { unfold rf_coeffs_of; cbn [z_to_z]. now rewrite Ha, Rmult_0_l, cos_0. }
  assert (Hpp : p_to_p (rf_coeffs_of b1 p) v = 1).
  { unfold rf_coeffs_of; cbn [p_to_p]. rewrite Ha, Rmult_0_l.
    replace (0 / 2) with 0 by field. rewrite cos_0. ring. }
  assert (Hpz : p_to_z (rf_coeffs_of b1 p) v = C0).
  { change (opp (conj (z_to_p (rf_coeffs_of b1 p) v)) = C0). rewrite Hzp.
    apply C_eq_intro; unfold opp, conj, C0, re, im; cbn [fst snd]; ring. }
  assert (Hmz : m_to_z (rf_coeffs_of b1 p) v = C0).
  { change (opp (z_to_p (rf_coeffs_of b1 p) v) = C0). rewrite Hzp.
    apply C_eq_intro; unfold opp, C0, re, im; cbn [fst snd]; ring. }
  assert (Hmp : m_to_p (rf_coeffs_of b1 p) v = C0).
  { change (mul (of_R (1 - p_to_p (rf_coeffs_of b1 p) v))
              (cexp (mul (imag 2) (of_R (phase p + Cx.angle (b1 v))))) = C0).
    rewrite Hpp.
    apply C_eq_intro; unfold mul, of_R, C0, re, im; cbn [fst snd]; ring. }
  repeat split; auto.
  intros t parent. unfold spec_contribution, coefficient.
  destruct t; cbn [reverses]; rewrite ?Hzz, ?Hpp, ?Hzp, ?Hpz, ?Hmz, ?Hmp;
    apply C_eq_intro; unfold mul, of_R, conj, C0, re, im; cbn [fst snd]; ring.
Qed.

Lemma zero_flip_angle_is_identity_witness :
  z_to_z (rf_coeffs_of (sum0 (B1 Examples.phantom))
            {| angle := 0; phase := 0; shim_array := [(1, 0)] |}) 0%nat = 1.
Proof.
  destruct (zero_flip_angle_is_identity Examples.phantom
              {| angle := 0; phase := 0; shim_array := [(1, 0)] |}
              (rf_coeffs_of (sum0 (B1 Examples.phantom))
                 {| angle := 0; phase := 0; shim_array := [(1, 0)] |})
              eq_refl eq_refl 0%nat) as (H & _).
  exact H.
Defined.

(** ** Diffusion and motion that do nothing *)

Lemma mul_of_R_1 (z : C) : mul z (of_R 1) = z.
Proof. apply C_eq_intro; unfold mul, of_R, re, im; cbn [fst snd]; ring. Qed.

(** X3: at a voxel whose diffusion coefficient is zero the attenuation is one
    at every event, and what a distribution carries over there is its
    magnetisation times the relaxation factor alone (times the motion
    rotation for a transverse one, plus the regrowth for the equilibrium
    type). *)
Theorem zero_diffusion_no_attenuation (data : SimData) (v : voxel) :
  D data v = 0 ->
  (forall b, Forall (fun f : rten => f v = 1) (diffusion_of data b)) /\
  (forall ctx dtype m kt dist_traj b mk,
     carry_over data ctx dtype m kt dist_traj (diffusion_of data b) = Ok mk ->
     fst mk v =
     if (dtype =? "+")%string
     then mul (mul (m v) (of_R (c_r2 ctx v))) (final_motion_rotation ctx v)
     else add (mul (m v) (of_R (c_r1 ctx v)))
            (if (dtype =? "z0")%string then of_R (1 - c_r1 ctx v) else C0)).
Proof.
  intros HD.
  assert (Hall : forall b, Forall (fun f : rten => f v = 1) (diffusion_of data b)).
  { intro b. unfold diffusion_of. apply Forall_forall. intros f Hf.
    apply in_map_iff in Hf. destruct Hf as [cb [<- _]].
    rewrite HD. replace (- 1e-9 * 0 * cb) with 0 by ring. apply exp_0. }
  split; [exact Hall|].
  intros ctx dtype m kt dist_traj b mk H.
  destruct (String.eqb dtype "+") eqn:Ep.
  - apply String.eqb_eq in Ep. subst dtype.
    destruct (carry_over_transverse _ _ _ _ _ _ _ H)
      as (dlast & tlast & Hd & _ & _ & Hmag).
    rewrite Hmag.
    assert (Hin : In dlast (diffusion_of data b)).
    { clear - Hd. induction (diffusion_of data b) as [|x l IH]; [discriminate|].
      destruct l as [|y l]; [injection Hd as <-; now left|].
      right. apply IH. exact Hd. }
    pose proof (Hall b) as Hf. rewrite Forall_forall in Hf.
    rewrite (Hf dlast Hin). now rewrite mul_of_R_1.
  - apply String.eqb_neq in Ep.
    destruct (carry_over_longitudinal _ _ _ _ _ _ _ _ Ep H) as [_ Hmag].
    rewrite Hmag, HD.
    replace (- 1e-9 * 0 * c_total_time ctx * v3_norm (spatial kt) ^ 2) with 0 by ring.
    now rewrite exp_0, mul_of_R_1.
Qed.

Lemma zero_diffusion_no_attenuation_witness :
  Forall (fun f : rten => f 0%nat = 1) (diffusion_of Examples.phantom [1; 2]).
Proof.
  exact (proj1 (zero_diffusion_no_attenuation Examples.phantom 0%nat eq_refl) [1; 2]).
Defined.

Lemma rigid_motion_identity (pos : voxel -> vec3) (m : R -> mat3 * vec3) :
  (forall t, m t = (mat3_id, v3_zero)) ->
  forall t v, rigid_motion pos m t v = pos v.
Proof.
  intros Hm t v. unfold rigid_motion. rewrite Hm.
  destruct (pos v) as [x y z].
  unfold v3_add, v3_times_mat, mat3_id, v3_zero; cbn [vx vy vz row0 row1 row2].
  f_equal; ring.
Qed.

Lemma cumsum_from_zero (acc : rten) (l : list rten) :
  (forall v, acc v = 0) ->
  Forall (fun f : rten => forall v, f v = 0) l ->
  Forall (fun f : rten => forall v, f v = 0)
    (cumsum_from (fun (a b : rten) => fun v => a v + b v) acc l).
Proof.
  intros Ha Hl. revert acc Ha.
  induction Hl as [|x l Hx _ IH]; intros acc Ha; cbn [cumsum_from]; constructor.
  - intro v. rewrite Ha, Hx. ring.
  - apply IH. intro v. rewrite Ha, Hx. ring.
Qed.

Lemma cumsum_zero (l : list rten) :
  Forall (fun f : rten => forall v, f v = 0) l ->
  Forall (fun f : rten => forall v, f v = 0)
    (cumsum (fun (a b : rten) => fun v => a v + b v) l).
Proof.
  intros Hl. destruct Hl as [|x l Hx Hl]; cbn [cumsum]; constructor; auto.
  now apply cumsum_from_zero.
Qed.

Lemma last_row_In {A : Type} (l : list A) (x : A) :
  last_row l = Some x -> In x l.
Proof.
  induction l as [|a l IH]; [discriminate|].
  destruct l as [|b l]; [intros [= <-]; now left|].
  intros H. right. now apply IH.
Qed.

Lemma cexp_times_zero (z : C) : cexp (mul z (of_R 0)) = C1.
Proof.
  unfold cexp, mul, of_R, re, im; cbn [fst snd].
  replace (fst z * 0 - snd z * 0) with 0 by ring.
  replace (fst z * 0 + snd z * 0) with 0 by ring.
  rewrite exp_0, cos_0, sin_0. unfold C1. f_equal; ring.
Qed.

Lemma motionless_voxel_pos_func (data : SimData) :
  motionless data ->
  exists f, voxel_pos_func data = Some f /\ forall t v, f t v = voxel_pos data v.
Proof.
  unfold voxel_pos_func. intros [(f & -> & Hf)|(-> & m & -> & Hm)].
  - now exists f.
  - eexists. split; [reflexivity|]. now apply rigid_motion_identity.
Qed.

(** X4: a motion function that leaves every voxel at its position (an
    explicit position function that returns the static positions, or a rigid
    motion by the identity rotation and a zero offset) gives a motion phase
    of zero at every event and voxel, and a rotation of one in the
    carry-over of a transverse state. *)
Theorem motionless_phase_is_zero (data : SimData) (gs : vec3) (t0 : R)
    (rep : Repetition) (ctx : RepCtx) :
  motionless data ->
  rep_ctx data gs t0 rep = Ok ctx ->
  (exists mp, c_motion_phase ctx = Some mp /\
              Forall (fun ph : rten => forall v, ph v = 0) mp) /\
  forall v, final_motion_rotation ctx v = C1.
Proof.
  intros Hm H.
  destruct (rep_ctx_inv _ _ _ _ _ H) as (_ & _ & _ & _ & _ & _ & _ & _ & Hmp).
  destruct (motionless_voxel_pos_func data Hm) as (f & Hf & Hstatic).
  assert (Hz : exists mp, c_motion_phase ctx = Some mp /\
                          Forall (fun ph : rten => forall v, ph v = 0) mp).
  { rewrite Hmp. unfold motion_phase_of. rewrite Hf. eexists. split; [reflexivity|].
    apply cumsum_zero. apply Forall_map2. intros vt g Hvt _ v.
    apply in_map_iff in Hvt. destruct Hvt as [t [<- _]].
    rewrite Hstatic. unfold v3_dot, v3_sum, v3_mul, v3_sub; cbn [vx vy vz]. ring. }
  split; [exact Hz|].
  intro v. destruct Hz as (mp & Hc & Hall). unfold final_motion_rotation.
  rewrite Hc. destruct (last_row mp) as [plast|] eqn:El; [|reflexivity].
  rewrite Forall_forall in Hall. rewrite (Hall plast (last_row_In _ _ El) v).
  apply cexp_times_zero.
Qed.

Lemma motionless_phase_is_zero_witness :
  exists ctx,
    rep_ctx MotionExamples.phantom_rigid v3_ones 0 Examples.rep90 = Ok ctx /\
    final_motion_rotation ctx 0%nat = C1.
Proof.
  assert (H : exists ctx,
             rep_ctx MotionExamples.phantom_rigid v3_ones 0 Examples.rep90 = Ok ctx)
    by (eexists; reflexivity).
  destruct H as [ctx H]. exists ctx. split; [exact H|].
  apply (motionless_phase_is_zero MotionExamples.phantom_rigid v3_ones 0
           Examples.rep90 ctx); [|exact H].
  right. split; [reflexivity|]. eexists. split; [reflexivity|]. reflexivity.
Defined.

(** ** Edge cases of one distribution *)

Lemma new_kt_vec_total (nodes : node_id -> Distribution) (min_latent_signal : R)
    (s : store) (d : node_id) :
  skipped nodes min_latent_signal s d = false ->
  exists kt, new_kt_vec s (dist_type (nodes d)) (simulated s (ancestors (nodes d)))
             = Ok kt.
Proof.
  unfold new_kt_vec, skipped. intros Es.
  destruct (String.eqb (dist_type (nodes d)) "z0"); [now eexists|].
  cbn [negb andb] in Es. apply orb_false_elim in Es. destruct Es as [_ Es].
  destruct (simulated s (ancestors (nodes d))) as [|[l p] r]; [discriminate|].
  destruct (_ || _); now eexists.
Qed.

Section NodeEdges.

Variable nodes : node_id -> Distribution.
Variable data : SimData.
Variable min_emitted_signal min_latent_signal : R.
Variable return_mag_adc : bool.

Local Abbreviation exec_dist' :=
  (exec_dist nodes data min_emitted_signal min_latent_signal return_mag_adc).

(** X5: in a repetition without events every distribution that is evaluated
    makes the pass raise IndexError (the first row of the k-space tensor does
    not exist), while a skipped distribution goes through. *)
Theorem no_events_index_error (gs : vec3) (t0 : R) (rep : Repetition)
    (ctx : RepCtx) (d : node_id) (st : DistLoop) :
  events rep = [] ->
  rep_ctx data gs t0 rep = Ok ctx ->
  labels_known (nodes d) ->
  (evaluated nodes min_latent_signal (dl_store st) d ->
   exec_dist' ctx d st = Err IndexError) /\
  (~ evaluated nodes min_latent_signal (dl_store st) d ->
   exec_dist' ctx d st = Ok st).
Proof.
  intros He Hc Hl.
  destruct (rep_ctx_inv _ _ _ _ _ Hc) as (_ & _ & _ & _ & _ & _ & Ht & _).
  rewrite He in Ht. apply length_zero_iff_nil in Ht. split.
  - intros Hev. apply skipped_false_iff in Hev. unfold exec_dist. rewrite Hev.
    destruct (sum_mags_total (c_coeffs ctx) (dl_store st) _ Hl) as [m ->].
    destruct (new_kt_vec_total nodes min_latent_signal _ d Hev) as [kt ->].
    cbn [bind]. rewrite Ht. reflexivity.
  - intros Hev. apply exec_dist_skipped.
    destruct (skipped nodes min_latent_signal (dl_store st) d) eqn:E; auto.
    apply skipped_false_iff in E. contradiction.
Qed.

(** X6: an equilibrium distribution none of whose ancestors has a
    magnetisation is still evaluated: it starts from zero and is left with
    the regrown magnetisation 1 - exp(-total_time/|T1|) and a zero k-tau
    vector. *)
Theorem equilibrium_regrows_from_zero (gs : vec3) (t0 : R) (rep : Repetition)
    (ctx : RepCtx) (d : node_id) (st st' : DistLoop) :
  rep_ctx data gs t0 rep = Ok ctx ->
  dist_type (nodes d) = "z0"%string ->
  simulated (dl_store st) (ancestors (nodes d)) = [] ->
  exec_dist' ctx d st = Ok st' ->
  kt_vec (dl_store st' d) = v4_zero /\
  exists m',
    mag (dl_store st' d) = Some m' /\
    forall v, m' v = of_R (1 - exp (- sum_list (map event_time (events rep))
                                       / Rabs (T1 data v))).
Proof.
  intros Hc Hz Hs H.
  assert (Hev : skipped nodes min_latent_signal (dl_store st) d = false).
  { apply skipped_false_iff. now left. }
  destruct (exec_dist_evaluated _ _ _ _ _ ctx d st st' Hev H)
    as (m & kt & b & mk & Hm & Hk & _ & Hco & ->).
  destruct (rep_ctx_inv _ _ _ _ _ Hc) as (_ & _ & _ & Ht & Hr1 & _).
  rewrite Hs in Hm, Hk. cbn in Hm. injection Hm as <-.
  unfold new_kt_vec in Hk. rewrite Hz in Hk. cbn in Hk. injection Hk as <-.
  assert (Hp : dist_type (nodes d) <> "+"%string) by (rewrite Hz; discriminate).
  destruct (carry_over_longitudinal _ _ _ _ _ _ _ _ Hp Hco) as [Hkt Hmag].
  cbn [dl_store]. rewrite upd_same. cbn [mag kt_vec]. split; [exact Hkt|].
  exists (fst mk). split; [reflexivity|]. intro v.
  rewrite Hmag, Hz, Hr1, Ht. cbn [String.eqb Ascii.eqb Bool.eqb].
  unfold sum_list, t_zero.
  apply C_eq_intro; unfold add, mul, of_R, C0, re, im; cbn [fst snd]; ring.
Qed.

End NodeEdges.

Lemma no_events_index_error_witness :
  exists ctx,
    rep_ctx Examples.phantom v3_ones 0 MotionExamples.rep_empty = Ok ctx /\
    exec_dist GraphExamples.nodes Examples.phantom 0.01 0.01 false ctx 1%nat
      GraphExamples.loop0 = Err IndexError.
Proof.
  assert (H : exists ctx,
             rep_ctx Examples.phantom v3_ones 0 MotionExamples.rep_empty = Ok ctx)
    by (eexists; reflexivity).
  destruct H as [ctx H]. exists ctx. split; [exact H|].
  assert (Hl : labels_known (GraphExamples.nodes 1%nat)).
  { apply example_labels_known. discriminate. }
  apply (proj1 (no_events_index_error GraphExamples.nodes Examples.phantom 0.01 0.01
                  false v3_ones 0 MotionExamples.rep_empty ctx 1%nat
                  GraphExamples.loop0 eq_refl H Hl)).
  exact example_node1_evaluated.
Defined.

Lemma equilibrium_regrows_from_zero_witness :
  exists ctx st',
    rep_ctx Examples.phantom v3_ones 0 Examples.rep90 = Ok ctx /\
    exec_dist GraphExamples.nodes Examples.phantom 0.01 0.01 false ctx 0%nat
      GraphExamples.loop0 = Ok st' /\
    kt_vec (dl_store st' 0%nat) = v4_zero.
Proof.
  destruct example_rep_ctx as [ctx Hctx].
  assert (Hev : ctx_has_events ctx).
  { apply (rep_ctx_has_events Examples.phantom v3_ones 0 Examples.rep90);
      [discriminate|exact Hctx]. }
  assert (Hl : labels_known (GraphExamples.nodes 0%nat)).
  { apply example_labels_known. discriminate. }
  destruct (exec_dist_total GraphExamples.nodes Examples.phantom 0.01 0.01 false
              ctx 0%nat GraphExamples.loop0 Hev Hl) as [st' H].
  exists ctx, st'. split; [exact Hctx|]. split; [exact H|].
  apply (equilibrium_regrows_from_zero GraphExamples.nodes Examples.phantom 0.01 0.01
           false v3_ones 0 Examples.rep90 ctx 0%nat GraphExamples.loop0 st'
           Hctx eq_refl eq_refl H).
Defined.

(** ** The end of the trajectory *)

Lemma last_row_cumsum_from_v4 (acc : vec4) (l : list vec4) :
  l <> [] ->
  exists x,
    last_row (cumsum_from v4_add acc l) = Some x /\
    kx x = kx acc + sum_list (map kx l) /\
    ky x = ky acc + sum_list (map ky l) /\
    kz x = kz acc + sum_list (map kz l) /\
    tau x = tau acc + sum_list (map tau l).
Proof.
  revert acc. induction l as [|y l IH]; [congruence|]. intros acc _.
  destruct l as [|z l].
  - exists (v4_add acc y). cbn. repeat split; ring.
  - destruct (IH (v4_add acc y) ltac:(discriminate)) as (x & Hx & H1 & H2 & H3 & H4).
    exists x. split; [exact Hx|].
    rewrite H1, H2, H3, H4. unfold sum_list. cbn. repeat split; ring.
Qed.

Lemma last_row_cumsum_v4 (l : list vec4) :
  l <> [] ->
  exists x,
    last_row (cumsum v4_add l) = Some x /\
    kx x = sum_list (map kx l) /\ ky x = sum_list (map ky l) /\
    kz x = sum_list (map kz l) /\ tau x = sum_list (map tau l).
Proof.
  destruct l as [|y l]; [congruence|]. intros _.
  destruct l as [|z l].
  - exists y. unfold sum_list. cbn. repeat split; ring.
  - destruct (last_row_cumsum_from_v4 y (z :: l) ltac:(discriminate))
      as (x & Hx & H1 & H2 & H3 & H4).
    exists x. split; [exact Hx|].
    rewrite H1, H2, H3, H4. unfold sum_list. cbn. repeat split; ring.
Qed.

Section TrajectoryEnd.

Variable nodes : node_id -> Distribution.
Variable data : SimData.
Variable min_emitted_signal min_latent_signal : R.
Variable return_mag_adc : bool.

Local Abbreviation exec_dist' :=
  (exec_dist nodes data min_emitted_signal min_latent_signal return_mag_adc).

(** X7: a transverse distribution leaves a repetition with its time tau
    advanced by the duration of the repetition and its k vector advanced, on
    every axis, by the sum of the scaled gradient moments of the events; any
    other distribution leaves with the k-tau vector it was given after the
    pulse. *)
Theorem k_tau_after_repetition (gs : vec3) (t0 : R) (rep : Repetition)
    (ctx : RepCtx) (d : node_id) (st st' : DistLoop) :
  rep_ctx data gs t0 rep = Ok ctx ->
  evaluated nodes min_latent_signal (dl_store st) d ->
  exec_dist' ctx d st = Ok st' ->
  exists kt,
    new_kt_vec (dl_store st) (dist_type (nodes d))
      (simulated (dl_store st) (ancestors (nodes d))) = Ok kt /\
    (dist_type (nodes d) = "+"%string ->
     tau (kt_vec (dl_store st' d))
     = tau kt + sum_list (map event_time (events rep)) /\
     kx (kt_vec (dl_store st' d))
     = kx kt + sum_list (map (fun e => vx (gradm e) * vx gs) (events rep)) /\
     ky (kt_vec (dl_store st' d))
     = ky kt + sum_list (map (fun e => vy (gradm e) * vy gs) (events rep)) /\
     kz (kt_vec (dl_store st' d))
     = kz kt + sum_list (map (fun e => vz (gradm e) * vz gs) (events rep))) /\
    (dist_type (nodes d) <> "+"%string -> kt_vec (dl_store st' d) = kt).
Proof.
  intros Hc He H. apply skipped_false_iff in He.
  destruct (exec_dist_evaluated _ _ _ _ _ ctx d st st' He H)
    as (m & kt & b & mk & _ & Hk & Hb & Hco & ->).
  exists kt. split; [exact Hk|]. cbn [dl_store]. rewrite upd_same. cbn [kt_vec].
  split.
  - intros Hp. rewrite Hp in Hco.
    destruct (carry_over_transverse _ _ _ _ _ _ _ Hco)
      as (dlast & tlast & _ & Ht & Hs & _).
    rewrite last_row_map in Ht.
    assert (Htraj : c_trajectory ctx =
                    cumsum v4_add
                      (map (fun e => let g := v3_mul (gradm e) gs in
                                     V4 (vx g) (vy g) (vz g) (event_time e))
                         (events rep))).
    { unfold rep_ctx in Hc.
      destruct (rf_coefficients data (pulse rep)); cbn [bind] in Hc; [|discriminate].
      now injection Hc as <-. }
    rewrite Htraj in Ht.
    destruct (events rep) as [|e es] eqn:Ee; [discriminate|].
    destruct (last_row_cumsum_v4
                (map (fun e => let g := v3_mul (gradm e) gs in
                               V4 (vx g) (vy g) (vz g) (event_time e)) (e :: es))
                ltac:(discriminate)) as (x & Hx & H1 & H2 & H3 & H4).
    rewrite Hx in Ht. cbn [option_map] in Ht. injection Ht as <-. rewrite Hs.
    rewrite !map_map in H1, H2, H3, H4.
    cbn [v4_add kx ky kz tau]. rewrite H1, H2, H3, H4. repeat split; reflexivity.
  - intros Hp. now destruct (carry_over_longitudinal _ _ _ _ _ _ _ _ Hp Hco).
Qed.

End TrajectoryEnd.

Lemma k_tau_after_repetition_witness :
  exists ctx st' kt,
    rep_ctx Examples.phantom v3_ones 0 Examples.rep90 = Ok ctx /\
    exec_dist GraphExamples.nodes Examples.phantom 0.01 0.01 false ctx 1%nat
      GraphExamples.loop0 = Ok st' /\
    tau (kt_vec (dl_store st' 1%nat))
    = tau kt + sum_list (map event_time (events Examples.rep90)).
Proof.
  destruct example_rep_ctx as [ctx Hctx].
  assert (Hev : ctx_has_events ctx).
  { apply (rep_ctx_has_events Examples.phantom v3_ones 0 Examples.rep90);
      [discriminate|exact Hctx]. }
  assert (Hl : labels_known (GraphExamples.nodes 1%nat)).
  { apply example_labels_known. discriminate. }
  destruct (exec_dist_total GraphExamples.nodes Examples.phantom 0.01 0.01 false
              ctx 1%nat GraphExamples.loop0 Hev Hl) as [st' H].
  destruct (k_tau_after_repetition GraphExamples.nodes Examples.phantom 0.01 0.01
              false v3_ones 0 Examples.rep90 ctx 1%nat GraphExamples.loop0 st'
              Hctx example_node1_evaluated H) as (kt & _ & Hp & _).
  exists ctx, st', kt. split; [exact Hctx|]. split; [exact H|].
  exact (proj1 (Hp eq_refl)).
Defined.

(** ** The exceptions of the pass *)

Lemma foldM_err_inv {A S : Type} (f : A -> S -> result S) (l : list A) :
  forall s e, foldM f l s = Err e -> exists x s', In x l /\ f x s' = Err e.
Proof.
  induction l as [|x l IH]; intros s e H; [discriminate|]. cbn [foldM] in H.
  destruct (f x s) as [s1|e1] eqn:E; cbn [bind] in H.
  - destruct (IH s1 e H) as (y & s' & Hy & Hf). exists y, s'. split; [now right|auto].
  - injection H as <-. exists x, s. split; [now left|exact E].
Qed.

Lemma calc_mag_err (c : RFCoeffs) (s : store) (label : string) (p : node_id)
    (e : error) :
  mag (s p) <> None ->
  calc_mag c s (label, p) = Err e ->
  transition_of label = None /\ e = ValueError ("Unknown transform " ++ label).
Proof.
  intros Hm H. destruct (transition_of label) as [t|] eqn:Et.
  - destruct (calc_mag_total c s (label, p)) as [y Hy];
      [cbn [fst]; congruence|exact Hm|]. congruence.
  - rewrite (calc_mag_unknown c s label p Et) in H. injection H as <-. auto.
Qed.

Lemma sum_mags_err (c : RFCoeffs) (s : store) (anc : list (string * node_id))
    (e : error) :
  sum_mags c s (simulated s anc) = Err e ->
  exists label parent,
    In (label, parent) anc /\ transition_of label = None /\
    e = ValueError ("Unknown transform " ++ label).
Proof.
  unfold sum_mags. intros H.
  destruct (mapM (calc_mag c s) (simulated s anc)) as [ms|e'] eqn:E;
    cbn [bind] in H; [discriminate|]. injection H as <-.
  assert (Hsub : forall x, In x (simulated s anc) ->
                           In x anc /\ mag (s (snd x)) <> None).
  { intros x Hx. now apply simulated_In. }
  induction (simulated s anc) as [|[l p] rest IH]; [discriminate|].
  cbn [mapM] in E.
  destruct (calc_mag c s (l, p)) as [y|e1] eqn:Ey; cbn [bind] in E.
  - destruct (mapM (calc_mag c s) rest) as [ys|e2] eqn:Er; cbn [bind] in E;
      [discriminate|]. injection E as <-.
    apply IH; [reflexivity|]. intros x Hx. apply Hsub. now right.
  - injection E as <-.
    destruct (Hsub (l, p) (or_introl eq_refl)) as [Hin Hm].
    destruct (calc_mag_err c s l p e1 Hm Ey) as [Ht ->].
    exists l, p. auto.
Qed.

Lemma rf_coefficients_err (data : SimData) (p : Pulse) (e : error) :
  rf_coefficients data p = Err e -> e = AssertionError "" /\ ~ shim_ok data p.
Proof.
  intros H.
  assert (Hn : ~ shim_ok data p).
  { intros Hs. destruct (rf_coefficients_total data p Hs) as [c Hc]. congruence. }
  rewrite (rf_coefficients_mismatch data p Hn) in H. injection H as <-. auto.
Qed.

Section Exceptions.

Variable nodes : node_id -> Distribution.
Variable data : SimData.
Variable min_emitted_signal min_latent_signal : R.
Variable return_mag_adc clear_state_mag : bool.

Local Abbreviation exec_dist' :=
  (exec_dist nodes data min_emitted_signal min_latent_signal return_mag_adc).
Local Abbreviation exec_rep' :=
  (exec_rep nodes data min_emitted_signal min_latent_signal return_mag_adc
     clear_state_mag).
Local Abbreviation execute_graph' :=
  (execute_graph nodes data min_emitted_signal min_latent_signal return_mag_adc
     clear_state_mag).

Lemma exec_dist_err (gs : vec3) (t0 : R) (rep : Repetition) (ctx : RepCtx)
    (d : node_id) (st : DistLoop) (e : error) :
  rep_ctx data gs t0 rep = Ok ctx ->
  exec_dist' ctx d st = Err e ->
  (e = IndexError /\ events rep = []) \/
  (exists label parent,
     In (label, parent) (ancestors (nodes d)) /\ transition_of label = None /\
     e = ValueError ("Unknown transform " ++ label)).
Proof.
  intros Hc H. unfold exec_dist in H.
  destruct (skipped nodes min_latent_signal (dl_store st) d) eqn:Es; [discriminate|].
  destruct (sum_mags (c_coeffs ctx) (dl_store st) _) as [m|e1] eqn:Em;
    cbn [bind] in H.
  - left.
    destruct (new_kt_vec_total nodes min_latent_signal _ d Es) as [kt Hk].
    rewrite Hk in H. cbn [bind] in H.
    destruct (events rep) as [|ev evs] eqn:Ee.
    + destruct (rep_ctx_inv _ _ _ _ _ Hc) as (_ & _ & _ & _ & _ & _ & Ht & _).
      rewrite Ee in Ht. apply length_zero_iff_nil in Ht. rewrite Ht in H.
      cbn in H. injection H as <-. auto.
    + exfalso.
      assert (Hev : ctx_has_events ctx).
      { apply (rep_ctx_has_events data gs t0 rep); [rewrite Ee; discriminate|exact Hc]. }
      pose proof Hev as (Ht & Hd & _).
      destruct (b_factors_total ctx kt Ht Hd) as (b & Hb & Hne).
      rewrite Hb in H. cbn [bind] in H.
      destruct (measure _ _ _ _ _ _ _ _ _) as [sig madc].
      destruct (carry_over_total data ctx (dist_type (nodes d)) m kt b Hev Hne)
        as [mk Hmk].
      rewrite Hmk in H. discriminate.
  - right. injection H as <-. now apply sum_mags_err in Em.
Qed.

Lemma exec_rep_err (gs : vec3) (dists : list node_id) (rep : Repetition)
    (ls : LoopState) (e : error) :
  exec_rep' gs (dists, rep) ls = Err e ->
  (e = AssertionError "" /\ ~ shim_ok data (pulse rep)) \/
  (e = IndexError /\ events rep = []) \/
  (exists d label parent,
     In d dists /\ In (label, parent) (ancestors (nodes d)) /\
     transition_of label = None /\
     e = ValueError ("Unknown transform " ++ label)).
Proof.
  unfold exec_rep. intros H.
  destruct (rep_ctx data gs (ls_t0 ls) rep) as [ctx|e1] eqn:Ec; cbn [bind] in H.
  - destruct (foldM (exec_dist' ctx) dists _) as [st|e2] eqn:Ef; cbn [bind] in H;
      [discriminate|]. injection H as <-.
    destruct (foldM_err_inv _ _ _ _ Ef) as (d & s' & Hd & He).
    destruct (exec_dist_err gs (ls_t0 ls) rep ctx d s' e2 Ec He)
      as [Hi|(l & p & Hin & Hl & ->)]; [now right; left|].
    right; right. exists d, l, p. auto.
  - injection H as <-. left. unfold rep_ctx in Ec.
    destruct (rf_coefficients data (pulse rep)) as [c|e2] eqn:Er; cbn [bind] in Ec;
      [discriminate|]. injection Ec as <-. now apply rf_coefficients_err.
Qed.

(** X8: the exceptions of the pass and their causes.  IndexError: the graph
    has no first distribution, or a processed repetition has no events.
    AssertionError: a processed repetition has a shim array of neither one
    channel nor as many channels as there are transmit coils.  ValueError
    "Unknown transform <label>": a distribution of a processed repetition has
    an ancestor behind a label that is none of the six.  The exception of
    torch.cat for an empty list, whatever class the torch release gives it:
    no repetition is processed.  The pass raises nothing else; in
    particular it never multiplies by a magnetisation that was released. *)
Theorem exceptions_and_causes (graph : list (list node_id)) (seq : Sequence)
    (intitial_mag : option cten) (s0 : store) (e : error) :
  execute_graph' graph seq intitial_mag s0 = Err e ->
  (e = IndexError /\
   (~ has_root graph \/
    exists pr, In pr (paired graph seq) /\ events (snd pr) = [])) \/
  (e = AssertionError "" /\
   exists pr, In pr (paired graph seq) /\ ~ shim_ok data (pulse (snd pr))) \/
  (exists pr d label parent,
     In pr (paired graph seq) /\ In d (fst pr) /\
     In (label, parent) (ancestors (nodes d)) /\ transition_of label = None /\
     e = ValueError ("Unknown transform " ++ label)) \/
  (e = CatOfNothing /\ has_root graph /\ paired graph seq = []).
Proof.
  unfold execute_graph. intros H.
  destruct graph as [|[|root r] g].
  - injection H as <-. left. split; [reflexivity|]. left.
    intros (x & y & z & Hx). discriminate.
  - injection H as <-. left. split; [reflexivity|]. left.
    intros (x & y & z & Hx). discriminate.
  - destruct (run_reps _ _ _ _ _ _ _ _ _) as [ls|e1] eqn:El; cbn [bind] in H.
    + destruct (cat (ls_signal ls)) as [sig|e2] eqn:Ec; cbn [bind] in H;
        [discriminate|]. injection H as <-.
      right; right; right.
      destruct (run_reps_signal _ _ _ _ _ _ _ _ _ _ El) as (segs & Hs & _ & H2).
      cbn [ls_signal init_state app] in Hs. rewrite Hs in Ec.
      destruct segs as [|seg segs]; [|discriminate].
      injection Ec as <-. split; [reflexivity|].
      split; [now exists root, r, g|]. now inversion H2.
    + injection H as <-. unfold run_reps in El.
      destruct (foldM_err_inv _ _ _ _ El) as ([dists rep] & s' & Hin & He).
      destruct (exec_rep_err _ dists rep s' e1 He)
        as [[-> Hs]|[[-> Hev]|(d & l & p & Hd & Hl & Ht & ->)]].
      * right; left. split; [reflexivity|]. now exists (dists, rep).
      * left. split; [reflexivity|]. right. now exists (dists, rep).
      * right; right; left. exists (dists, rep), d, l, p. auto.
Qed.

End Exceptions.

Lemma exceptions_and_causes_witness :
  ~ has_root [] \/
  exists pr, In pr (paired [] Examples.seq1) /\ events (snd pr) = [].
Proof.
  destruct (exceptions_and_causes GraphExamples.nodes Examples.phantom 0.01 0.01
              false true [] Examples.seq1 None Examples.fresh_store IndexError
              eq_refl) as [[_ H]|[[H _]|[(pr & d & l & p & _ & _ & _ & _ & H)|[H _]]]];
    [exact H|discriminate|discriminate|discriminate].
Defined.

(** ** When the pass returns *)

Lemma shim_ok_dec (data : SimData) (p : Pulse) : {shim_ok data p} + {~ shim_ok data p}.
Proof.
  unfold shim_ok.
  destruct (Nat.eq_dec (length (shim_array p)) 1); [left; now left|].
  destruct (Nat.eq_dec (length (shim_array p)) (length (B1 data)));
    [left; now right|].
  right. tauto.
Qed.

Section Returns.

Variable nodes : node_id -> Distribution.
Variable data : SimData.
Variable min_emitted_signal min_latent_signal : R.
Variable return_mag_adc clear_state_mag : bool.

Local Abbreviation exec_rep' :=
  (exec_rep nodes data min_emitted_signal min_latent_signal return_mag_adc
     clear_state_mag).
Local Abbreviation execute_graph' :=
  (execute_graph nodes data min_emitted_signal min_latent_signal return_mag_adc
     clear_state_mag).

(** X9: a graph without a first distribution makes the pass raise IndexError
    before any repetition; a graph with one whose repetitions, or a sequence
    whose repetitions, run out before anything is processed makes torch.cat
    raise on the empty list of segments (with the exception class of the
    torch release), so that no empty signal is returned. *)
Theorem nothing_processed_raises (graph : list (list node_id)) (seq : Sequence)
    (intitial_mag : option cten) (s0 : store) :
  (~ has_root graph -> execute_graph' graph seq intitial_mag s0 = Err IndexError) /\
  (has_root graph -> processed_count graph seq = 0%nat ->
   execute_graph' graph seq intitial_mag s0 = Err CatOfNothing).
Proof.
  split.
  - intros Hn. unfold execute_graph.
    destruct graph as [|[|root r] g]; try reflexivity.
    exfalso. apply Hn. now exists root, r, g.
  - intros (root & r & g & Hg) Hz. rewrite <- paired_length in Hz.
    apply length_zero_iff_nil in Hz. unfold execute_graph, run_reps.
    rewrite Hz, Hg. reflexivity.
Qed.

(** X10: the pass returns on every well-formed input (a first distribution,
    at least one processed repetition, and in every processed repetition a
    fitting shim array, at least one event and only known labels); and
    whenever it returns, the graph has a first distribution, at least one
    repetition was processed and every processed repetition has a fitting
    shim array. *)
Theorem returns_on_well_formed_input (graph : list (list node_id)) (seq : Sequence)
    (intitial_mag : option cten) (s0 : store) :
  (well_formed nodes data graph seq ->
   exists out, execute_graph' graph seq intitial_mag s0 = Ok out) /\
  (forall out,
     execute_graph' graph seq intitial_mag s0 = Ok out ->
     has_root graph /\ (0 < processed_count graph seq)%nat /\
     Forall (fun pr : list node_id * Repetition => shim_ok data (pulse (snd pr)))
       (paired graph seq)).
Proof.
  split; [apply execute_graph_total|].
  intros out H.
  destruct (execute_graph_inv _ _ _ _ _ _ _ _ _ _ _ H)
    as (root & r & g & ls & sig & Hg & Hl & Hc & _).
  split; [now exists root, r, g|]. split.
  - destruct (run_reps_signal _ _ _ _ _ _ _ _ _ _ Hl) as (segs & Hs & _ & H2).
    cbn [ls_signal init_state app] in Hs. rewrite Hs in Hc.
    destruct segs as [|seg segs]; [discriminate|].
    rewrite <- paired_length. inversion H2; subst. cbn [length]. lia.
  - apply Forall_forall. intros [dists rep] Hin. cbn [snd].
    destruct (shim_ok_dec data (pulse rep)) as [Hs|Hs]; [exact Hs|]. exfalso.
    destruct (foldM_raises (exec_rep' (grad_scale data seq)) (paired graph seq)
                (dists, rep) Hin) with (s := init_state root intitial_mag s0)
      as [e He].
    + intro s. exists (AssertionError ""). now apply exec_rep_shim_mismatch.
    + unfold run_reps in Hl. congruence.
Qed.

End Returns.

Lemma nothing_processed_raises_witness :
  execute_graph GraphExamples.nodes Examples.phantom 0.01 0.01 false true
    GraphExamples.graph MotionExamples.seq_none None Examples.fresh_store
  = Err CatOfNothing.
Proof.
  apply (proj2 (nothing_processed_raises GraphExamples.nodes Examples.phantom
                  0.01 0.01 false true GraphExamples.graph MotionExamples.seq_none
                  None Examples.fresh_store)).
  - now exists 0%nat, [], [[4; 1; 2; 3]%nat].
  - reflexivity.
Defined.

Lemma returns_on_well_formed_input_witness :
  exists out,
    execute_graph GraphExamples.nodes Examples.phantom 0.01 0.01 false true
      GraphExamples.graph Examples.seq1 None Examples.fresh_store = Ok out.
Proof.
  exact (proj1 (returns_on_well_formed_input GraphExamples.nodes Examples.phantom
                  0.01 0.01 false true GraphExamples.graph Examples.seq1 None
                  Examples.fresh_store) example_well_formed).
Defined.

(** ** What is measured *)

Lemma mul_C0_l (z : C) : mul C0 z = C0.
Proof. apply C_eq_intro; unfold mul, C0, re, im; cbn [fst snd]; ring. Qed.

Lemma zeros2_all_zero (n c : nat) : all_zero (zeros2 n c).
Proof.
  unfold all_zero, zeros2; cbn [t_rows]. apply Forall_forall. intros row Hr.
  apply repeat_spec in Hr. subst row. apply Forall_forall. intros x Hx.
  now apply repeat_spec in Hx.
Qed.

Lemma rotate_signal_all_zero (ctx : RepCtx) (t : tensor2) :
  all_zero t -> all_zero (rotate_signal ctx t).
Proof.
  unfold all_zero, rotate_signal; cbn [t_rows]. intros H.
  apply Forall_map2. intros row r Hrow _. rewrite Forall_forall in H.
  pose proof (H row Hrow) as Hz. rewrite Forall_forall in Hz.
  apply Forall_forall. intros x Hx. apply in_map_iff in Hx.
  destruct Hx as [y [<- Hy]]. rewrite (Hz y Hy). apply mul_C0_l.
Qed.

Section Measurement.

Variable nodes : node_id -> Distribution.
Variable data : SimData.
Variable min_emitted_signal min_latent_signal : R.
Variable clear_state_mag : bool.

Lemma measure_unmeasured (return_mag_adc : bool) (ctx : RepCtx) (nd : Distribution)
    (m : cten) (dist_traj : list vec4) (diffusion : list rten) (st : DistLoop) :
  ~ measured min_emitted_signal nd ->
  measure data min_emitted_signal return_mag_adc ctx nd m dist_traj diffusion st
  = (dl_rep_sig st, dl_mag_adc_rep st).
Proof.
  unfold measure, measured. intros H.
  destruct (String.eqb (dist_type nd) "+") eqn:Ep; [|reflexivity].
  destruct (Rleb min_emitted_signal (emitted_signal nd)) eqn:El; [|reflexivity].
  exfalso. apply H. apply String.eqb_eq in Ep. apply Rleb_true in El. auto.
Qed.

Lemma exec_dist_unmeasured (return_mag_adc : bool) (ctx : RepCtx) (d : node_id)
    (st st' : DistLoop) :
  ~ measured min_emitted_signal (nodes d) ->
  exec_dist nodes data min_emitted_signal min_latent_signal return_mag_adc ctx d st
  = Ok st' ->
  dl_rep_sig st' = dl_rep_sig st /\ dl_mag_adc_rep st' = dl_mag_adc_rep st.
Proof.
  intros Hn H.
  destruct (skipped nodes min_latent_signal (dl_store st) d) eqn:Es.
  - rewrite (exec_dist_skipped _ _ _ _ _ ctx d st Es) in H. injection H as <-. auto.
  - destruct (exec_dist_evaluated _ _ _ _ _ ctx d st st' Es H)
      as (m & kt & b & mk & _ & _ & _ & _ & ->).
    cbn [dl_rep_sig dl_mag_adc_rep]. now rewrite measure_unmeasured.
Qed.

(** X11: when no distribution of a processed repetition is a "+" state whose
    emitted signal reaches the threshold, nothing is measured: every entry of
    the returned signal is zero and the measured magnetisation of every
    repetition is the empty list. *)
Theorem nothing_measured_zero_signal (return_mag_adc : bool)
    (graph : list (list node_id)) (seq : Sequence) (intitial_mag : option cten)
    (s0 : store) (out : Output) :
  (forall pr d, In pr (paired graph seq) -> In d (fst pr) ->
                ~ measured min_emitted_signal (nodes d)) ->
  execute_graph nodes data min_emitted_signal min_latent_signal return_mag_adc
    clear_state_mag graph seq intitial_mag s0 = Ok out ->
  all_zero (out_signal out) /\
  forall madc, out_mag_adc out = Some madc ->
               Forall (fun per_rep : list (list cten) => per_rep = []) madc.
Proof.
  intros Hn H.
  destruct (execute_graph_inv _ _ _ _ _ _ _ _ _ _ _ H)
    as (root & r & g & ls & sig & _ & Hl & Hc & ->).
  cbn [out_signal out_mag_adc].
  assert (Hinv : Forall all_zero (ls_signal ls) /\
                 Forall (fun per_rep : list (list cten) => per_rep = [])
                   (ls_mag_adc ls)).
  { unfold run_reps in Hl.
    refine (foldM_invariant _
              (fun ls => Forall all_zero (ls_signal ls) /\
                         Forall (fun per_rep : list (list cten) => per_rep = [])
                           (ls_mag_adc ls))
              (paired graph seq) _ _ ls _ Hl); [|split; constructor].
    intros [dists rep] s s' Hin [Hs Hm] Hx. unfold exec_rep in Hx.
    destruct (rep_ctx data _ (ls_t0 s) rep) as [ctx|] eqn:Ec; cbn [bind] in Hx;
      [|discriminate].
    destruct (foldM _ dists _) as [st|] eqn:Ef; cbn [bind] in Hx; [|discriminate].
    injection Hx as <-. cbn [ls_signal ls_mag_adc].
    assert (Hst : dl_rep_sig st = zeros2 (count_true (c_adc ctx)) (coil_count data)
                  /\ dl_mag_adc_rep st = []).
    { refine (foldM_invariant _
                (fun st => dl_rep_sig st
                           = zeros2 (count_true (c_adc ctx)) (coil_count data)
                           /\ dl_mag_adc_rep st = [])
                dists _ _ st _ Ef); [|split; reflexivity].
      intros d a a' Hd [Ha1 Ha2] Hxd.
      destruct (exec_dist_unmeasured return_mag_adc ctx d a a'
                  (Hn (dists, rep) d Hin Hd) Hxd) as [-> ->]. auto. }
    destruct Hst as [-> ->]. split; apply Forall_app; split; auto.
    constructor; [|constructor]. apply rotate_signal_all_zero, zeros2_all_zero. }
  destruct Hinv as [Hs Hm]. split.
  - unfold cat in Hc. destruct (ls_signal ls) as [|seg segs] eqn:E; [discriminate|].
    assert (Hcat : t_rows sig = concat (map t_rows (seg :: segs)))
      by (injection Hc as <-; reflexivity).
    unfold all_zero. rewrite Hcat.
    apply Forall_forall. intros row Hrow. apply in_concat in Hrow.
    destruct Hrow as (rows & Hrows & Hin). apply in_map_iff in Hrows.
    destruct Hrows as (t & <- & Ht). rewrite Forall_forall in Hs.
    pose proof (Hs t Ht) as Hz. unfold all_zero in Hz. rewrite Forall_forall in Hz.
    now apply Hz.
  - intros madc Hmadc. destruct return_mag_adc; [|discriminate].
    now injection Hmadc as <-.
Qed.

(** X12: asking for the measured magnetisation changes nothing else: with
    return_mag_adc set or not, the pass raises the same exception or returns
    the same signal and leaves the same graph; only the second return value
    is there or not. *)
Theorem return_mag_adc_changes_nothing_else (graph : list (list node_id))
    (seq : Sequence) (intitial_mag : option cten) (s0 : store) :
  rel_result
    (fun o1 o2 =>
       out_signal o1 = out_signal o2 /\ out_store o1 = out_store o2 /\
       out_mag_adc o1 <> None /\ out_mag_adc o2 = None)
    (execute_graph nodes data min_emitted_signal min_latent_signal true
       clear_state_mag graph seq intitial_mag s0)
    (execute_graph nodes data min_emitted_signal min_latent_signal false
       clear_state_mag graph seq intitial_mag s0).
Proof.
  unfold execute_graph. destruct graph as [|[|root r] g]; try reflexivity.
  set (prs := paired ((root :: r) :: g) seq).
  assert (Hrun :
    rel_result
      (fun l1 l2 => ls_store l1 = ls_store l2 /\ ls_t0 l1 = ls_t0 l2 /\
                    ls_signal l1 = ls_signal l2)
      (run_reps nodes data min_emitted_signal min_latent_signal true
         clear_state_mag seq prs (init_state root intitial_mag s0))
      (run_reps nodes data min_emitted_signal min_latent_signal false
         clear_state_mag seq prs (init_state root intitial_mag s0))).
  { unfold run_reps. apply foldM_rel; [|repeat split].
    intros [dists rep] l1 l2 _ (Hs & Ht & Hsig). unfold exec_rep. rewrite Ht.
    destruct (rep_ctx data (grad_scale data seq) (ls_t0 l2) rep) as [ctx|e];
      cbn [bind]; [|reflexivity].
    assert (Hd :
      rel_result
        (fun a b => dl_store a = dl_store b /\ dl_rep_sig a = dl_rep_sig b)
        (foldM (exec_dist nodes data min_emitted_signal min_latent_signal true ctx)
           dists
           {| dl_store := ls_store l1;
              dl_rep_sig := zeros2 (count_true (c_adc ctx)) (coil_count data);
              dl_mag_adc_rep := [] |})
        (foldM (exec_dist nodes data min_emitted_signal min_latent_signal false ctx)
           dists
           {| dl_store := ls_store l2;
              dl_rep_sig := zeros2 (count_true (c_adc ctx)) (coil_count data);
              dl_mag_adc_rep := [] |})).
    { apply foldM_rel; [|split; [exact Hs|reflexivity]].
      intros d a b _ [Ha Hb]. unfold exec_dist. rewrite Ha.
      destruct (skipped nodes min_latent_signal (dl_store b) d); [now split|].
      destruct (sum_mags _ _ _) as [m|]; cbn [bind]; [|reflexivity].
      destruct (new_kt_vec _ _ _) as [kt|]; cbn [bind]; [|reflexivity].
      destruct (b_factors _ _ _) as [bf|]; cbn [bind]; [|reflexivity].
      unfold measure. rewrite Hb.
      destruct (_ && _); cbn [fst snd];
        (destruct (carry_over _ _ _ _ _ _ _) as [mk|]; cbn [bind];
         [split; reflexivity|reflexivity]). }
    destruct (foldM _ dists _) as [a|e1], (foldM _ dists _) as [b|e2];
      cbn in Hd |- *; try contradiction; [|exact Hd].
    destruct Hd as [-> ->]. rewrite Hsig. repeat split. }
  unfold prs in Hrun.
  destruct (run_reps _ _ _ _ true _ _ _ _) as [l1|e1],
           (run_reps _ _ _ _ false _ _ _ _) as [l2|e2];
    cbn in Hrun |- *; try contradiction; [|exact Hrun].
  destruct Hrun as (Hs & _ & Hsig). rewrite Hsig.
  destruct (cat (ls_signal l2)) as [sig|e]; cbn; [|reflexivity].
  repeat split; auto. discriminate.
Qed.

End Measurement.

Lemma example_z0_well_formed :
  well_formed GraphExamples.nodes Examples.phantom GraphExamples.graph_z0
    Examples.seq1.
Proof.
  unfold well_formed. split; [now exists 0%nat, [], [[4%nat]]|].
  split; [discriminate|].
  repeat constructor; discriminate.
Qed.

Lemma nothing_measured_zero_signal_witness :
  exists out,
    execute_graph GraphExamples.nodes Examples.phantom 0.01 0.01 false true
      GraphExamples.graph_z0 Examples.seq1 None Examples.fresh_store = Ok out /\
    all_zero (out_signal out).
Proof.
  destruct (execute_graph_total GraphExamples.nodes Examples.phantom 0.01 0.01 false
              true GraphExamples.graph_z0 Examples.seq1 None Examples.fresh_store
              example_z0_well_formed) as [out H].
  exists out. split; [exact H|].
  apply (nothing_measured_zero_signal GraphExamples.nodes Examples.phantom 0.01 0.01
           true false GraphExamples.graph_z0 Examples.seq1 None
           Examples.fresh_store out); [|exact H].
  intros pr d [<-|[]] [<-|[]] [Hp _]. discriminate.
Defined.

(** ** What the pass writes *)

Lemma clear_ancestors_kt_vec (anc : list (string * node_id)) :
  forall (s : store) (j : node_id),
    kt_vec (fold_left (fun s ancestor => set_mag s (snd ancestor) None) anc s j)
    = kt_vec (s j).
Proof.
  induction anc as [|a anc IH]; intros s j; cbn [fold_left]; [reflexivity|].
  rewrite IH. unfold set_mag, upd. destruct (Nat.eqb j (snd a)) eqn:E; [|reflexivity].
  apply Nat.eqb_eq in E. now subst j.
Qed.

Lemma clear_mags_kt_vec (nodes : node_id -> Distribution) (dists : list node_id) :
  forall (s : store) (j : node_id),
    kt_vec (clear_mags nodes dists s j) = kt_vec (s j).
Proof.
  unfold clear_mags. induction dists as [|x dists IH]; intros s j; cbn [fold_left];
    [reflexivity|].
  rewrite IH. apply clear_ancestors_kt_vec.
Qed.

Lemma clear_ancestors_other (anc : list (string * node_id)) :
  forall (s : store) (j : node_id),
    (forall e, In e anc -> snd e <> j) ->
    fold_left (fun s ancestor => set_mag s (snd ancestor) None) anc s j = s j.
Proof.
  induction anc as [|a anc IH]; intros s j H; cbn [fold_left]; [reflexivity|].
  rewrite IH by (intros e He; apply H; now right).
  unfold set_mag. apply upd_other. intro E. apply (H a (or_introl eq_refl)). auto.
Qed.

Lemma clear_mags_other (nodes : node_id -> Distribution) (dists : list node_id) :
  forall (s : store) (j : node_id),
    (forall x e, In x dists -> In e (ancestors (nodes x)) -> snd e <> j) ->
    clear_mags nodes dists s j = s j.
Proof.
  unfold clear_mags. induction dists as [|x dists IH]; intros s j H; cbn [fold_left];
    [reflexivity|].
  rewrite IH by (intros y e Hy; apply H; now right).
  apply clear_ancestors_other. intros e He. apply (H x e); auto. now left.
Qed.

Lemma clear_ancestors_clears (anc : list (string * node_id)) :
  forall (s : store) (e : string * node_id),
    In e anc ->
    mag (fold_left (fun s ancestor => set_mag s (snd ancestor) None) anc s (snd e))
    = None.
Proof.
  induction anc as [|a anc IH]; intros s e Hin; [contradiction|]. cbn [fold_left].
  destruct Hin as [->|Hin]; [|now apply IH].
  destruct (clear_ancestors_mag anc (set_mag s (snd e) None) (snd e)) as [H|H];
    [exact H|].
  cbn zeta in H. rewrite H. unfold set_mag. now rewrite upd_same.
Qed.

Lemma clear_mags_clears (nodes : node_id -> Distribution) (dists : list node_id) :
  forall (s : store) (d : node_id) (e : string * node_id),
    In d dists -> In e (ancestors (nodes d)) ->
    mag (clear_mags nodes dists s (snd e)) = None.
Proof.
  induction dists as [|x dists IH]; intros s d e Hd He; [contradiction|].
  change (clear_mags nodes (x :: dists) s)
    with (clear_mags nodes dists
            (fold_left (fun s ancestor => set_mag s (snd ancestor) None)
               (ancestors (nodes x)) s)).
  destruct Hd as [->|Hd]; [|now apply (IH _ d)].
  destruct (clear_mags_mag nodes dists
              (fold_left (fun s ancestor => set_mag s (snd ancestor) None)
                 (ancestors (nodes d)) s) (snd e)) as [H|H]; [exact H|].
  rewrite H. now apply clear_ancestors_clears.
Qed.

Section Writes.

Variable nodes : node_id -> Distribution.
Variable data : SimData.
Variable min_emitted_signal min_latent_signal : R.
Variable return_mag_adc clear_state_mag : bool.

Local Abbreviation exec_dist' :=
  (exec_dist nodes data min_emitted_signal min_latent_signal return_mag_adc).
Local Abbreviation exec_rep' :=
  (exec_rep nodes data min_emitted_signal min_latent_signal return_mag_adc
     clear_state_mag).
Local Abbreviation execute_graph' :=
  (execute_graph nodes data min_emitted_signal min_latent_signal return_mag_adc
     clear_state_mag).

Lemma exec_dist_other (ctx : RepCtx) (d j : node_id) (st st' : DistLoop) :
  exec_dist' ctx d st = Ok st' -> j <> d -> dl_store st' j = dl_store st j.
Proof.
  intros H Hj.
  destruct (skipped nodes min_latent_signal (dl_store st) d) eqn:Es.
  - rewrite (exec_dist_skipped _ _ _ _ _ ctx d st Es) in H. now injection H as <-.
  - destruct (exec_dist_evaluated _ _ _ _ _ ctx d st st' Es H)
      as (m & kt & b & mk & _ & _ & _ & _ & ->).
    cbn [dl_store]. now apply upd_other.
Qed.

(** X13: the pass writes only the seeded first distribution and the
    distributions of the processed repetitions, and clears only their
    ancestors.  Any other distribution keeps its k-tau vector, and its
    magnetisation is either kept or cleared; it is kept when clear_state_mag
    is off or the distribution is no ancestor of a processed one. *)
Theorem pass_writes_only_processed (graph : list (list node_id)) (seq : Sequence)
    (intitial_mag : option cten) (s0 : store) (root : node_id) (r : list node_id)
    (g : list (list node_id)) (out : Output) (j : node_id) :
  graph = (root :: r) :: g ->
  execute_graph' graph seq intitial_mag s0 = Ok out ->
  j <> root ->
  (forall pr, In pr (paired graph seq) -> ~ In j (fst pr)) ->
  kt_vec (out_store out j) = kt_vec (s0 j) /\
  (mag (out_store out j) = None \/ mag (out_store out j) = mag (s0 j)) /\
  (clear_state_mag = false \/
   (forall pr d e, In pr (paired graph seq) -> In d (fst pr) ->
                   In e (ancestors (nodes d)) -> snd e <> j) ->
   out_store out j = s0 j).
Proof.
  intros Hg H Hroot Hnot.
  destruct (execute_graph_inv _ _ _ _ _ _ _ _ _ _ _ H)
    as (root' & r' & g' & ls & sig & Hg' & Hl & _ & ->).
  rewrite Hg in Hg'. injection Hg' as <- _ _. cbn [out_store].
  set (keep := clear_state_mag = false \/
               (forall pr d e, In pr (paired graph seq) -> In d (fst pr) ->
                               In e (ancestors (nodes d)) -> snd e <> j)).
  unfold run_reps in Hl.
  refine (foldM_invariant _
            (fun ls => kt_vec (ls_store ls j) = kt_vec (s0 j) /\
                       (mag (ls_store ls j) = None \/
                        mag (ls_store ls j) = mag (s0 j)) /\
                       (keep -> ls_store ls j = s0 j))
            (paired graph seq) _ _ ls _ Hl).
  - intros [dists rep] s s' Hin (Hk & Hm & Hkeep) Hx. unfold exec_rep in Hx.
    destruct (rep_ctx data _ (ls_t0 s) rep) as [ctx|]; cbn [bind] in Hx;
      [|discriminate].
    destruct (foldM _ dists _) as [st|] eqn:Ef; cbn [bind] in Hx; [|discriminate].
    injection Hx as <-. cbn [ls_store].
    assert (Hst : dl_store st j = ls_store s j).
    { refine (foldM_invariant _ (fun st => dl_store st j = ls_store s j)
                dists _ _ st _ Ef); [|reflexivity].
      intros d a a' Hd Ha Hxd. rewrite <- Ha.
      apply (exec_dist_other ctx d j a a' Hxd).
      intros ->. apply (Hnot (dists, rep) Hin). exact Hd. }
    destruct clear_state_mag eqn:Ecl.
    + split; [now rewrite clear_mags_kt_vec, Hst|]. split.
      * destruct (clear_mags_mag nodes dists (dl_store st) j) as [Hc|Hc];
          [now left|]. rewrite Hc, Hst. exact Hm.
      * intros Hkp. rewrite <- (Hkeep Hkp), <- Hst.
        destruct Hkp as [Hkp|Hkp]; [discriminate|].
        apply clear_mags_other. intros d e Hd He. now apply (Hkp (dists, rep) d e).
    + rewrite Hst. auto.
  - unfold init_state, set_kt_vec, set_mag. cbn [ls_store].
    rewrite !upd_other by assumption. auto.
Qed.

(** X14: with clear_state_mag on, the pass leaves every ancestor of a
    distribution of the last processed repetition without magnetisation. *)
Theorem last_ancestors_released (graph : list (list node_id)) (seq : Sequence)
    (intitial_mag : option cten) (s0 : store)
    (pre : list (list node_id * Repetition)) (dists : list node_id)
    (rep : Repetition) (out : Output) (d : node_id) (e : string * node_id) :
  paired graph seq = pre ++ [(dists, rep)] ->
  execute_graph nodes data min_emitted_signal min_latent_signal return_mag_adc true
    graph seq intitial_mag s0 = Ok out ->
  In d dists -> In e (ancestors (nodes d)) ->
  mag (out_store out (snd e)) = None.
Proof.
  intros Hp H Hd He.
  destruct (execute_graph_inv _ _ _ _ _ _ _ _ _ _ _ H)
    as (root & r & g & ls & sig & _ & Hl & _ & ->).
  cbn [out_store]. unfold run_reps in Hl. rewrite Hp, foldM_app in Hl.
  destruct (foldM _ pre _) as [l1|]; cbn [bind foldM] in Hl; [|discriminate].
  destruct (exec_rep _ _ _ _ _ _ _ _ l1) as [l2|] eqn:Ex; cbn [bind] in Hl;
    [|discriminate].
  injection Hl as <-. unfold exec_rep in Ex.
  destruct (rep_ctx data _ (ls_t0 l1) rep) as [ctx|]; cbn [bind] in Ex;
    [|discriminate].
  destruct (foldM _ dists _) as [st|]; cbn [bind] in Ex; [|discriminate].
  injection Ex as <-. cbn [ls_store]. now apply (clear_mags_clears nodes dists _ d).
Qed.

End Writes.

Lemma pass_writes_only_processed_witness :
  exists out,
    execute_graph GraphExamples.nodes Examples.phantom 0.01 0.01 false true
      GraphExamples.graph Examples.seq1 None Examples.fresh_store = Ok out /\
    kt_vec (out_store out 6%nat) = kt_vec (Examples.fresh_store 6%nat).
Proof.
  destruct (execute_graph_total GraphExamples.nodes Examples.phantom 0.01 0.01 false
              true GraphExamples.graph Examples.seq1 None Examples.fresh_store
              example_well_formed) as [out H].
  exists out. split; [exact H|].
  apply (pass_writes_only_processed GraphExamples.nodes Examples.phantom 0.01 0.01
           false true GraphExamples.graph Examples.seq1 None Examples.fresh_store
           0%nat [] [[4; 1; 2; 3]%nat] out 6%nat eq_refl H).
  - discriminate.
  - intros pr [<-|[]] Hin. cbn in Hin.
    repeat (destruct Hin as [Hin|Hin]; [discriminate|]). exact Hin.
Defined.

Lemma last_ancestors_released_witness :
  exists out,
    execute_graph GraphExamples.nodes Examples.phantom 0.01 0.01 false true
      GraphExamples.graph Examples.seq1 None Examples.fresh_store = Ok out /\
    mag (out_store out 0%nat) = None.
Proof.
  destruct (execute_graph_total GraphExamples.nodes Examples.phantom 0.01 0.01 false
              true GraphExamples.graph Examples.seq1 None Examples.fresh_store
              example_well_formed) as [out H].
  exists out. split; [exact H|].
  apply (last_ancestors_released GraphExamples.nodes Examples.phantom 0.01 0.01
           false GraphExamples.graph Examples.seq1 None Examples.fresh_store
           [] [4; 1; 2; 3]%nat Examples.rep90 out 1%nat ("z+"%string, 0%nat)
           eq_refl H).
  - right. now left.
  - now left.
Defined.

(** ** Releasing magnetisation on a layered graph *)

Lemma mapM_ext_in {A B : Type} (f g : A -> result B) (l : list A) :
  (forall x, In x l -> f x = g x) -> mapM f l = mapM g l.
Proof.
  induction l as [|x l IH]; intros H; cbn [mapM]; [reflexivity|].
  rewrite (H x (or_introl eq_refl)), IH; [reflexivity|].
  intros y Hy. apply H. now right.
Qed.

Lemma agree_outside_refl (zone : list node_id) (s : store) : agree_outside zone s s.
Proof. intro d. auto. Qed.

Lemma agree_outside_upd (zone : list node_id) (sA sB : store) (d : node_id)
    (x : NodeState) :
  agree_outside zone sA sB -> agree_outside zone (upd sA d x) (upd sB d x).
Proof.
  intros H j. destruct (Nat.eq_dec j d) as [->|Hj].
  - rewrite !upd_same. auto.
  - rewrite !upd_other by assumption. apply H.
Qed.

Section Release.

Variable nodes : node_id -> Distribution.
Variable data : SimData.
Variable min_emitted_signal min_latent_signal : R.
Variable return_mag_adc : bool.

Local Abbreviation exec_dist' :=
  (exec_dist nodes data min_emitted_signal min_latent_signal return_mag_adc).
Local Abbreviation exec_rep_with :=
  (exec_rep nodes data min_emitted_signal min_latent_signal return_mag_adc).
Local Abbreviation execute_graph_with :=
  (execute_graph nodes data min_emitted_signal min_latent_signal return_mag_adc).

(** The body of the loop over the distributions reads the store at the
    ancestors of the distribution only. *)
Lemma exec_dist_agree (zone : list node_id) (ctx : RepCtx) (d : node_id)
    (stA stB : DistLoop) :
  agree_outside zone (dl_store stA) (dl_store stB) ->
  (forall e, In e (ancestors (nodes d)) -> ~ In (snd e) zone) ->
  dl_rep_sig stA = dl_rep_sig stB ->
  dl_mag_adc_rep stA = dl_mag_adc_rep stB ->
  rel_result
    (fun a b => agree_outside zone (dl_store a) (dl_store b) /\
                dl_rep_sig a = dl_rep_sig b /\
                dl_mag_adc_rep a = dl_mag_adc_rep b)
    (exec_dist' ctx d stA) (exec_dist' ctx d stB).
Proof.
  intros Hag Hanc Hsig Hmadc.
  assert (Hsame : forall e, In e (ancestors (nodes d)) ->
                            dl_store stA (snd e) = dl_store stB (snd e)).
  { intros e He. apply Hag. now apply Hanc. }
  assert (Hsim : simulated (dl_store stA) (ancestors (nodes d))
                 = simulated (dl_store stB) (ancestors (nodes d))).
  { unfold simulated. apply filter_ext_in. intros e He. now rewrite (Hsame e He). }
  assert (Hsub : forall e, In e (simulated (dl_store stB) (ancestors (nodes d))) ->
                           dl_store stA (snd e) = dl_store stB (snd e)).
  { intros e He. apply Hsame. now apply simulated_In in He. }
  unfold exec_dist, skipped. rewrite Hsim.
  destruct (_ || _); [split; [exact Hag|split; assumption]|].
  assert (Hsum : sum_mags (c_coeffs ctx) (dl_store stA)
                   (simulated (dl_store stB) (ancestors (nodes d)))
                 = sum_mags (c_coeffs ctx) (dl_store stB)
                     (simulated (dl_store stB) (ancestors (nodes d)))).
  { unfold sum_mags. f_equal. apply mapM_ext_in. intros e He.
    unfold calc_mag. now rewrite (Hsub e He). }
  assert (Hkt : new_kt_vec (dl_store stA) (dist_type (nodes d))
                  (simulated (dl_store stB) (ancestors (nodes d)))
                = new_kt_vec (dl_store stB) (dist_type (nodes d))
                    (simulated (dl_store stB) (ancestors (nodes d)))).
  { unfold new_kt_vec.
    destruct (simulated (dl_store stB) (ancestors (nodes d))) as [|[l p] rest];
      [reflexivity|].
    pose proof (Hsub (l, p) (or_introl eq_refl)) as E. cbn [snd] in E.
    now rewrite E. }
  rewrite Hsum, Hkt. clear Hsum Hkt.
  destruct (sum_mags _ _ _) as [m|]; cbn [bind]; [|exact eq_refl].
  destruct (new_kt_vec _ _ _) as [kt|]; cbn [bind]; [|exact eq_refl].
  destruct (b_factors _ _ _) as [b|]; cbn [bind]; [|exact eq_refl].
  unfold measure. rewrite Hsig, Hmadc.
  destruct (_ && _); cbn [fst snd];
    (destruct (carry_over _ _ _ _ _ _ _) as [mk|]; cbn [bind];
     [|exact eq_refl]);
    (split; [now apply agree_outside_upd|split; reflexivity]).
Qed.

Lemma clear_mags_agree (zone prev : list node_id) (dists : list node_id)
    (sA sB : store) :
  agree_outside zone sA sB ->
  (forall d e, In d dists -> In e (ancestors (nodes d)) -> In (snd e) prev) ->
  agree_outside (prev ++ zone) (clear_mags nodes dists sA) sB.
Proof.
  intros Hag Hanc j. destruct (Hag j) as (H1 & H2 & H3). split; [|split].
  - intros Hj. rewrite clear_mags_other.
    + apply H1. intro Hz. apply Hj. apply in_or_app. now right.
    + intros d e Hd He Heq. apply Hj. apply in_or_app. left.
      rewrite <- Heq. now apply (Hanc d e).
  - now rewrite clear_mags_kt_vec.
  - destruct (clear_mags_mag nodes dists sA j) as [H|H]; [now left|].
    rewrite H. exact H3.
Qed.

Lemma agree_outside_weaken (zone prev : list node_id) (sA sB : store) :
  agree_outside zone sA sB -> agree_outside (prev ++ zone) sA sB.
Proof.
  intros Hag j. destruct (Hag j) as (H1 & H2 & H3). repeat split; auto.
  intros Hj. apply H1. intro Hz. apply Hj. apply in_or_app. now right.
Qed.

Lemma exec_rep_agree (zone prev : list node_id) (gs : vec3)
    (dists : list node_id) (rep : Repetition) (lsA lsB : LoopState) :
  agree_outside zone (ls_store lsA) (ls_store lsB) ->
  ls_t0 lsA = ls_t0 lsB -> ls_signal lsA = ls_signal lsB ->
  ls_mag_adc lsA = ls_mag_adc lsB ->
  (forall d e, In d dists -> In e (ancestors (nodes d)) -> In (snd e) prev) ->
  (forall p, In p prev -> ~ In p zone) ->
  rel_result
    (fun a b => agree_outside (prev ++ zone) (ls_store a) (ls_store b) /\
                ls_t0 a = ls_t0 b /\ ls_signal a = ls_signal b /\
                ls_mag_adc a = ls_mag_adc b)
    (exec_rep_with true gs (dists, rep) lsA)
    (exec_rep_with false gs (dists, rep) lsB).
Proof.
  intros Hag Ht Hsig Hmadc Hanc Hprev. unfold exec_rep. rewrite Ht.
  destruct (rep_ctx data gs (ls_t0 lsB) rep) as [ctx|e]; cbn [bind];
    [|exact eq_refl].
  assert (Hd :
    rel_result
      (fun a b => agree_outside zone (dl_store a) (dl_store b) /\
                  dl_rep_sig a = dl_rep_sig b /\
                  dl_mag_adc_rep a = dl_mag_adc_rep b)
      (foldM (exec_dist' ctx) dists
         {| dl_store := ls_store lsA;
            dl_rep_sig := zeros2 (count_true (c_adc ctx)) (coil_count data);
            dl_mag_adc_rep := [] |})
      (foldM (exec_dist' ctx) dists
         {| dl_store := ls_store lsB;
            dl_rep_sig := zeros2 (count_true (c_adc ctx)) (coil_count data);
            dl_mag_adc_rep := [] |})).
  { apply foldM_rel; [|split; [exact Hag|split; reflexivity]].
    intros d a b Hin (Ha & Hb & Hc). apply exec_dist_agree; auto.
    intros e He. apply Hprev. now apply (Hanc d e). }
  destruct (foldM _ dists _) as [a|e1], (foldM _ dists _) as [b|e2];
    cbn in Hd |- *; try contradiction; [|exact Hd].
  destruct Hd as (Ha & -> & ->). rewrite Hsig, Hmadc.
  split; [now apply clear_mags_agree|repeat split].
Qed.

Lemma run_reps_agree (gs : vec3) (layers : list (list node_id)) :
  forall (rs : list Repetition) (zone prev : list node_id) (lsA lsB : LoopState),
    layered nodes zone prev layers ->
    (forall p, In p prev -> ~ In p zone) ->
    agree_outside zone (ls_store lsA) (ls_store lsB) ->
    ls_t0 lsA = ls_t0 lsB -> ls_signal lsA = ls_signal lsB ->
    ls_mag_adc lsA = ls_mag_adc lsB ->
    rel_result
      (fun a b => ls_signal a = ls_signal b /\ ls_mag_adc a = ls_mag_adc b /\
                  exists zone', agree_outside zone' (ls_store a) (ls_store b))
      (foldM (exec_rep_with true gs) (combine layers rs) lsA)
      (foldM (exec_rep_with false gs) (combine layers rs) lsB).
Proof.
  induction layers as [|l layers IH]; intros rs zone prev lsA lsB Hlay Hprev Hag
    Ht Hsig Hmadc.
  - cbn. repeat split; auto. now exists zone.
  - destruct rs as [|rep rs]; [cbn; repeat split; auto; now exists zone|].
    cbn [combine foldM]. destruct Hlay as [Hl Hrest].
    pose proof (exec_rep_agree zone prev gs l rep lsA lsB Hag Ht Hsig Hmadc)
      as Hstep.
    assert (Hstep' := Hstep (fun d e Hd He => proj1 (Hl d Hd) e He) Hprev).
    destruct (exec_rep_with true gs (l, rep) lsA) as [a|e1],
             (exec_rep_with false gs (l, rep) lsB) as [b|e2];
      cbn in Hstep' |- *; try contradiction; [|exact Hstep'].
    destruct Hstep' as (Ha & Hb & Hc & Hd).
    apply (IH rs (prev ++ zone) l a b); auto.
    intros p Hp Hin. apply in_app_or in Hin.
    destruct (Hl p Hp) as (_ & Hn1 & Hn2). tauto.
Qed.

(** X15: on a layered graph (the ancestors of a distribution are in the
    repetition just before its own, and no distribution belongs to two
    repetitions) releasing magnetisation does not change what is computed:
    with clear_state_mag on or off the pass raises the same exception or
    returns the same signal and the same measured magnetisation, and the two
    graphs it leaves differ only in magnetisations that were released. *)
Theorem clear_state_mag_keeps_signal (graph : list (list node_id)) (seq : Sequence)
    (intitial_mag : option cten) (s0 : store) :
  well_layered nodes graph ->
  rel_result
    (fun oA oB =>
       out_signal oA = out_signal oB /\ out_mag_adc oA = out_mag_adc oB /\
       forall d,
         kt_vec (out_store oA d) = kt_vec (out_store oB d) /\
         (mag (out_store oA d) = None \/
          mag (out_store oA d) = mag (out_store oB d)))
    (execute_graph_with true graph seq intitial_mag s0)
    (execute_graph_with false graph seq intitial_mag s0).
Proof.
  intros Hlay. unfold execute_graph.
  destruct graph as [|[|root r] g]; try exact eq_refl.
  unfold run_reps, paired. cbn [tl].
  pose proof (run_reps_agree (grad_scale data seq) g (reps seq) [] (root :: r)
                (init_state root intitial_mag s0) (init_state root intitial_mag s0)
                Hlay (fun p _ H => H) (agree_outside_refl _ _)
                eq_refl eq_refl eq_refl) as Hrun.
  destruct (foldM (exec_rep_with true _) _ _) as [a|e1],
           (foldM (exec_rep_with false _) _ _) as [b|e2];
    cbn in Hrun |- *; try contradiction; [|exact Hrun].
  destruct Hrun as (Hsig & Hmadc & zone & Hag). rewrite Hsig.
  destruct (cat (ls_signal b)) as [sig|e]; cbn; [|reflexivity].
  rewrite Hmadc. split; [reflexivity|]. split; [reflexivity|].
  intro d. destruct (Hag d) as (_ & H2 & H3). auto.
Qed.

End Release.

Lemma example_well_layered : well_layered GraphExamples.nodes GraphExamples.graph.
Proof.
  cbn. split; [|exact I]. intros d Hd.
  repeat (destruct Hd as [<-|Hd];
          [cbn; split; [intros e [<-|[]]; now left|split; [intros [H|[]]; discriminate|tauto]]|]).
  contradiction.
Qed.

Lemma clear_state_mag_keeps_signal_witness :
  rel_result
    (fun oA oB =>
       out_signal oA = out_signal oB /\ out_mag_adc oA = out_mag_adc oB /\
       forall d,
         kt_vec (out_store oA d) = kt_vec (out_store oB d) /\
         (mag (out_store oA d) = None \/
          mag (out_store oA d) = mag (out_store oB d)))
    (execute_graph GraphExamples.nodes Examples.phantom 0.01 0.01 true true
       GraphExamples.graph Examples.seq1 None Examples.fresh_store)
    (execute_graph GraphExamples.nodes Examples.phantom 0.01 0.01 true false
       GraphExamples.graph Examples.seq1 None Examples.fresh_store).
Proof.
  apply (clear_state_mag_keeps_signal GraphExamples.nodes Examples.phantom 0.01 0.01
           true GraphExamples.graph Examples.seq1 None Examples.fresh_store).
  exact example_well_layered.
Defined.

(** ** The shape of the measured magnetisation *)

Section MagAdc.

Variable nodes : node_id -> Distribution.
Variable data : SimData.
Variable min_emitted_signal min_latent_signal : R.
Variable clear_state_mag : bool.

Local Abbreviation exec_dist_true :=
  (exec_dist nodes data min_emitted_signal min_latent_signal true).
Local Abbreviation exec_rep_true :=
  (exec_rep nodes data min_emitted_signal min_latent_signal true clear_state_mag).

Lemma exec_dist_mag_adc (ctx : RepCtx) (d : node_id) (st st' : DistLoop) :
  ctx_shaped ctx ->
  exec_dist_true ctx d st = Ok st' ->
  exists extra,
    dl_mag_adc_rep st' = dl_mag_adc_rep st ++ extra /\
    (length extra
     <= length (filter (fun d => measuredb min_emitted_signal (nodes d)) [d]))%nat /\
    Forall (fun t : list cten => length t = count_true (c_adc ctx)) extra.
Proof.
  intros Hs H.
  destruct (skipped nodes min_latent_signal (dl_store st) d) eqn:Esk.
  - rewrite (exec_dist_skipped _ _ _ _ _ ctx d st Esk) in H. injection H as <-.
    exists []. rewrite app_nil_r. repeat split; [cbn; lia|constructor].
  - destruct (exec_dist_evaluated _ _ _ _ _ ctx d st st' Esk H)
      as (m & kt & b & mk & _ & _ & Hb & _ & ->).
    cbn [dl_mag_adc_rep filter]. unfold measure, measuredb.
    destruct (_ && _); cbn [snd].
    + eexists. split; [reflexivity|]. split; [cbn; lia|].
      constructor; [|constructor].
      pose proof Hs as (Ht & Hd & Hr & _).
      apply b_factors_length in Hb. rewrite length_map in Hb.
      unfold measured_mag.
      rewrite map2_length, mask_select_length by assumption.
      rewrite (transverse_mag_length data ctx m); auto.
      * apply Nat.min_id.
      * now rewrite length_map.
      * unfold diffusion_of. rewrite length_map, cumsum_length, Hb, Ht, Hd.
        apply Nat.min_id.
    + exists []. rewrite app_nil_r. repeat split; [cbn; lia|constructor].
Qed.

Lemma fold_exec_dist_mag_adc (ctx : RepCtx) (dists : list node_id) :
  ctx_shaped ctx ->
  forall st st',
    foldM (exec_dist_true ctx) dists st = Ok st' ->
    exists extra,
      dl_mag_adc_rep st' = dl_mag_adc_rep st ++ extra /\
      (length extra
       <= length (filter (fun d => measuredb min_emitted_signal (nodes d)) dists))%nat /\
      Forall (fun t : list cten => length t = count_true (c_adc ctx)) extra.
Proof.
  intros Hs. induction dists as [|d dists IH]; intros st st' H; cbn [foldM] in H.
  - injection H as <-. exists []. rewrite app_nil_r.
    repeat split; [cbn; lia|constructor].
  - destruct (exec_dist_true ctx d st) as [s1|] eqn:E1; cbn [bind] in H;
      [|discriminate].
    destruct (exec_dist_mag_adc ctx d st s1 Hs E1) as (x1 & H1 & L1 & F1).
    destruct (IH s1 st' H) as (x2 & H2 & L2 & F2).
    exists (x1 ++ x2). rewrite H2, H1, app_assoc. split; [reflexivity|].
    split; [|now apply Forall_app].
    rewrite length_app. cbn [filter] in L1 |- *.
    destruct (measuredb min_emitted_signal (nodes d)); cbn [length] in L1 |- *; lia.
Qed.

Lemma run_reps_mag_adc (gs : vec3) (prs : list (list node_id * Repetition)) :
  forall ls ls',
    foldM (exec_rep_true gs) prs ls = Ok ls' ->
    exists entries,
      ls_mag_adc ls' = ls_mag_adc ls ++ entries /\
      Forall2 (mag_adc_rep_shaped nodes min_emitted_signal) entries prs.
Proof.
  induction prs as [|[dists rep] prs IH]; cbn [foldM]; intros ls ls' H.
  - injection H as <-. exists []. rewrite app_nil_r. split; [reflexivity|constructor].
  - destruct (exec_rep_true gs (dists, rep) ls) as [ls1|] eqn:E1; cbn [bind] in H;
      [|discriminate].
    destruct (IH ls1 ls' H) as (entries & He & Hf).
    unfold exec_rep in E1.
    destruct (rep_ctx data gs (ls_t0 ls) rep) as [ctx|] eqn:Ec; cbn [bind] in E1;
      [|discriminate].
    destruct (foldM _ dists _) as [st|] eqn:Ef; cbn [bind] in E1; [|discriminate].
    injection E1 as <-. cbn [ls_mag_adc] in He.
    destruct (rep_ctx_shaped _ _ _ _ _ Ec) as [Hs Hn].
    destruct (fold_exec_dist_mag_adc ctx dists Hs _ st Ef) as (extra & Hx & Lx & Fx).
    cbn [dl_mag_adc_rep app] in Hx.
    exists (dl_mag_adc_rep st :: entries). rewrite He, <- app_assoc.
    split; [reflexivity|]. constructor; [|exact Hf].
    rewrite Hx. split; [exact Lx|]. cbn [snd]. now rewrite <- Hn.
Qed.

(** X16: when the measured magnetisation is asked for, it comes as one list
    per processed repetition, in order; the list of a repetition holds at
    most one tensor per distribution of that repetition that is a "+" state
    with an emitted signal at or above the threshold, and each tensor has one
    row per true entry of the ADC usage mask of the repetition. *)
Theorem mag_adc_shape (graph : list (list node_id)) (seq : Sequence)
    (intitial_mag : option cten) (s0 : store) (out : Output) :
  execute_graph nodes data min_emitted_signal min_latent_signal true clear_state_mag
    graph seq intitial_mag s0 = Ok out ->
  exists madc,
    out_mag_adc out = Some madc /\
    Forall2 (mag_adc_rep_shaped nodes min_emitted_signal) madc (paired graph seq).
Proof.
  intros H.
  destruct (execute_graph_inv _ _ _ _ _ _ _ _ _ _ _ H)
    as (root & r & g & ls & sig & _ & Hl & _ & ->).
  cbn [out_mag_adc]. exists (ls_mag_adc ls). split; [reflexivity|].
  unfold run_reps in Hl.
  destruct (run_reps_mag_adc _ _ _ _ Hl) as (entries & He & Hf).
  cbn [ls_mag_adc init_state app] in He. now rewrite He.
Qed.

End MagAdc.

Lemma mag_adc_shape_witness :
  exists out madc,
    execute_graph GraphExamples.nodes Examples.phantom 0.01 0.01 true true
      GraphExamples.graph Examples.seq1 None Examples.fresh_store = Ok out /\
    out_mag_adc out = Some madc /\
    length madc = 1%nat.
Proof.
  destruct (execute_graph_total GraphExamples.nodes Examples.phantom 0.01 0.01 true
              true GraphExamples.graph Examples.seq1 None Examples.fresh_store
              example_well_formed) as [out H].
  destruct (mag_adc_shape GraphExamples.nodes Examples.phantom 0.01 0.01 true
              GraphExamples.graph Examples.seq1 None Examples.fresh_store out H)
    as (madc & Hm & Hf).
  exists out, madc. split; [exact H|]. split; [exact Hm|].
  apply Forall2_length in Hf. exact Hf.
Defined.

(** ** The order of the distributions within a repetition *)

Lemma bind_assoc {A B D : Type} (r : result A) (f : A -> result B)
    (g : B -> result D) :
  bind (bind r f) g = bind r (fun a => bind (f a) g).
Proof. now destruct r. Qed.

Lemma both_ok_or_raise_trans {A : Type} (rel : A -> A -> Prop)
    (r1 r2 r3 : result A) :
  (forall a b c, rel a b -> rel b c -> rel a c) ->
  both_ok_or_raise rel r1 r2 -> both_ok_or_raise rel r2 r3 ->
  both_ok_or_raise rel r1 r3.
Proof.
  intros Ht. destruct r1, r2, r3; cbn; try tauto. apply Ht.
Qed.

Lemma foldM_both {A S1 S2 : Type} (rel : S1 -> S2 -> Prop)
    (f1 : A -> S1 -> result S1) (f2 : A -> S2 -> result S2) (l : list A) :
  (forall x a b, In x l -> rel a b -> both_ok_or_raise rel (f1 x a) (f2 x b)) ->
  forall a b, rel a b -> both_ok_or_raise rel (foldM f1 l a) (foldM f2 l b).
Proof.
  induction l as [|x l IH]; intros Hf a b Hab; cbn [foldM]; [exact Hab|].
  pose proof (Hf x a b (or_introl eq_refl) Hab) as Hx.
  destruct (f1 x a) as [a'|e1], (f2 x b) as [b'|e2]; cbn in Hx |- *;
    try contradiction; [|exact I].
  apply IH; [|exact Hx]. intros y a0 b0 Hy. apply Hf. now right.
Qed.

Lemma Permutation_snoc_swap {A : Type} (m m' : list A) (p q : A) :
  Permutation m m' -> Permutation ((m ++ [p]) ++ [q]) ((m' ++ [q]) ++ [p]).
Proof.
  intros H. rewrite <- !app_assoc. apply Permutation_app; [exact H|].
  cbn. apply perm_swap.
Qed.

Lemma same_store_upd (sA sB : store) (d : node_id) (x : NodeState) :
  same_store sA sB -> same_store (upd sA d x) (upd sB d x).
Proof. intros H j. unfold upd. destruct (Nat.eqb j d); auto. Qed.

Lemma same_store_upd_swap (sA sB : store) (x y : node_id) (vx vy : NodeState) :
  x <> y -> same_store sA sB ->
  same_store (upd (upd sA y vy) x vx) (upd (upd sB x vx) y vy).
Proof.
  intros Hxy H j. unfold upd.
  destruct (Nat.eqb j x) eqn:Ex, (Nat.eqb j y) eqn:Ey; auto.
  apply Nat.eqb_eq in Ex, Ey. congruence.
Qed.

Lemma dist_loop_equiv_refl (a : DistLoop) : dist_loop_equiv a a.
Proof. split; [intro j; reflexivity|apply Permutation_refl]. Qed.

Lemma dist_loop_equiv_trans (a b c : DistLoop) :
  dist_loop_equiv a b -> dist_loop_equiv b c -> dist_loop_equiv a c.
Proof.
  intros (H1 & H3) (K1 & K3). split.
  - intro j. now rewrite H1.
  - now apply Permutation_trans with (dl_mag_adc_rep b).
Qed.

Section Order.

Variable nodes : node_id -> Distribution.
Variable data : SimData.
Variable min_emitted_signal min_latent_signal : R.
Variable return_mag_adc clear_state_mag : bool.

Local Abbreviation exec_dist' :=
  (exec_dist nodes data min_emitted_signal min_latent_signal return_mag_adc).
Local Abbreviation exec_rep' :=
  (exec_rep nodes data min_emitted_signal min_latent_signal return_mag_adc
     clear_state_mag).
Local Abbreviation execute_graph' :=
  (execute_graph nodes data min_emitted_signal min_latent_signal return_mag_adc
     clear_state_mag).
Local Abbreviation effect_of' :=
  (effect_of nodes data min_emitted_signal min_latent_signal).
Local Abbreviation apply_effect' := (apply_effect data return_mag_adc).

Lemma exec_dist_effect (ctx : RepCtx) (d : node_id) (st : DistLoop) :
  exec_dist' ctx d st = apply_effect' ctx d (effect_of' ctx d (dl_store st)) st.
Proof.
  unfold exec_dist, effect_of, apply_effect.
  destruct (skipped nodes min_latent_signal (dl_store st) d); [reflexivity|].
  destruct (sum_mags _ _ _) as [m|]; cbn [bind]; [|reflexivity].
  destruct (new_kt_vec _ _ _) as [kt|]; cbn [bind]; [|reflexivity].
  destruct (b_factors _ _ _) as [b|]; cbn [bind]; [|reflexivity].
  unfold measure, measuredb.
  destruct (_ && _);
    (destruct (carry_over _ _ _ _ _ _ _) as [mk|]; cbn [bind]; reflexivity).
Qed.

Lemma effect_of_ext (ctx : RepCtx) (d : node_id) (sA sB : store) :
  (forall e, In e (ancestors (nodes d)) -> sA (snd e) = sB (snd e)) ->
  effect_of' ctx d sA = effect_of' ctx d sB.
Proof.
  intros Hsame.
  assert (Hsim : simulated sA (ancestors (nodes d))
                 = simulated sB (ancestors (nodes d))).
  { unfold simulated. apply filter_ext_in. intros e He. now rewrite (Hsame e He). }
  assert (Hsub : forall e, In e (simulated sB (ancestors (nodes d))) ->
                           sA (snd e) = sB (snd e)).
  { intros e He. apply Hsame. now apply simulated_In in He. }
  unfold effect_of, skipped. rewrite Hsim.
  assert (Hsum : sum_mags (c_coeffs ctx) sA (simulated sB (ancestors (nodes d)))
                 = sum_mags (c_coeffs ctx) sB
                     (simulated sB (ancestors (nodes d)))).
  { unfold sum_mags. f_equal. apply mapM_ext_in. intros e He.
    unfold calc_mag. now rewrite (Hsub e He). }
  assert (Hkt : new_kt_vec sA (dist_type (nodes d))
                  (simulated sB (ancestors (nodes d)))
                = new_kt_vec sB (dist_type (nodes d))
                    (simulated sB (ancestors (nodes d)))).
  { unfold new_kt_vec.
    destruct (simulated sB (ancestors (nodes d))) as [|[l p] rest]; [reflexivity|].
    pose proof (Hsub (l, p) (or_introl eq_refl)) as E. cbn [snd] in E.
    now rewrite E. }
  now rewrite Hsum, Hkt.
Qed.

Lemma apply_effect_equiv (ctx : RepCtx) (d : node_id) (eff : effect)
    (a b : DistLoop) :
  dist_loop_equiv a b ->
  both_ok_or_raise dist_loop_equiv (apply_effect' ctx d eff a)
    (apply_effect' ctx d eff b).
Proof.
  intros (H1 & H3). destruct eff as [|e|x tm]; cbn; [now split|exact I|].
  split; [now apply same_store_upd|].
  destruct tm; [|exact H3]. destruct return_mag_adc; [|exact H3].
  now apply Permutation_app_tail.
Qed.

Lemma exec_dist_equiv (ctx : RepCtx) (d : node_id) (a b : DistLoop) :
  dist_loop_equiv a b ->
  both_ok_or_raise dist_loop_equiv (exec_dist' ctx d a) (exec_dist' ctx d b).
Proof.
  intros H. rewrite !exec_dist_effect.
  rewrite (effect_of_ext ctx d (dl_store a) (dl_store b)).
  - now apply apply_effect_equiv.
  - intros e _. apply H.
Qed.

Lemma exec_twice_effects (ctx : RepCtx) (x y : node_id) (a : DistLoop) :
  (forall e, In e (ancestors (nodes x)) -> snd e <> y) ->
  bind (exec_dist' ctx y a) (exec_dist' ctx x)
  = bind (apply_effect' ctx y (effect_of' ctx y (dl_store a)) a)
      (apply_effect' ctx x (effect_of' ctx x (dl_store a))).
Proof.
  intros Hx. rewrite exec_dist_effect.
  destruct (effect_of' ctx y (dl_store a)) as [|e|v tm]; cbn [apply_effect bind].
  - apply exec_dist_effect.
  - reflexivity.
  - rewrite exec_dist_effect. cbn [dl_store]. f_equal.
    apply effect_of_ext. intros e He. apply upd_other. now apply Hx.
Qed.

Lemma effects_commute (ctx : RepCtx) (x y : node_id) (ex ey : effect)
    (a b : DistLoop) :
  x <> y -> dist_loop_equiv a b ->
  both_ok_or_raise dist_loop_equiv
    (bind (apply_effect' ctx y ey a) (apply_effect' ctx x ex))
    (bind (apply_effect' ctx x ex b) (apply_effect' ctx y ey)).
Proof.
  intros Hxy (H1 & H3).
  destruct ex as [|e1|vx tx], ey as [|e2|vy ty]; cbn; try exact I; split.
  all: try exact H1.
  all: try (now apply same_store_upd).
  all: try (now apply same_store_upd_swap).
  all: try exact H3.
  all: try (destruct tx); try (destruct ty); try (destruct return_mag_adc).
  all: try exact H3.
  all: try (now apply Permutation_app_tail).
  all: now apply Permutation_snoc_swap.
Qed.

Lemma exec_dist_swap (ctx : RepCtx) (x y : node_id) (a b : DistLoop) :
  (forall e, In e (ancestors (nodes x)) -> snd e <> y) ->
  (forall e, In e (ancestors (nodes y)) -> snd e <> x) ->
  dist_loop_equiv a b ->
  both_ok_or_raise dist_loop_equiv
    (bind (exec_dist' ctx y a) (exec_dist' ctx x))
    (bind (exec_dist' ctx x b) (exec_dist' ctx y)).
Proof.
  intros Hx Hy Hab. destruct (Nat.eq_dec x y) as [->|Hxy].
  - pose proof (exec_dist_equiv ctx y a b Hab) as H1.
    destruct (exec_dist' ctx y a) as [a1|], (exec_dist' ctx y b) as [b1|];
      cbn in H1 |- *; try contradiction; [|exact I].
    now apply exec_dist_equiv.
  - rewrite (exec_twice_effects ctx x y a Hx), (exec_twice_effects ctx y x b Hy).
    rewrite (effect_of_ext ctx x (dl_store b) (dl_store a)),
            (effect_of_ext ctx y (dl_store b) (dl_store a));
      try (intros e _; symmetry; apply Hab).
    now apply effects_commute.
Qed.

Lemma fold_exec_dist_perm (ctx : RepCtx) (l l' : list node_id) :
  Permutation l l' ->
  no_ancestor_inside nodes l ->
  forall a b,
    dist_loop_equiv a b ->
    both_ok_or_raise dist_loop_equiv (foldM (exec_dist' ctx) l a)
      (foldM (exec_dist' ctx) l' b).
Proof.
  induction 1 as [|x l l' Hp IH|x y l|l l' l'' Hp1 IH1 Hp2 IH2]; intros Hno a b Hab.
  - exact Hab.
  - cbn [foldM]. pose proof (exec_dist_equiv ctx x a b Hab) as Hx.
    destruct (exec_dist' ctx x a) as [a1|], (exec_dist' ctx x b) as [b1|];
      cbn in Hx |- *; try contradiction; [|exact I].
    apply IH; [|exact Hx]. intros d e Hd He Hin.
    apply (Hno d e); [now right|exact He|now right].
  - cbn [foldM]. rewrite <- !bind_assoc.
    pose proof (exec_dist_swap ctx x y a b) as Hs.
    assert (Hs' : both_ok_or_raise dist_loop_equiv
                    (bind (exec_dist' ctx y a) (exec_dist' ctx x))
                    (bind (exec_dist' ctx x b) (exec_dist' ctx y))).
    { apply Hs; [| |exact Hab].
      - intros e He Heq. apply (Hno x e); [right; now left|exact He|].
        rewrite Heq. now left.
      - intros e He Heq. apply (Hno y e); [now left|exact He|].
        rewrite Heq. right; now left. }
    destruct (bind (exec_dist' ctx y a) (exec_dist' ctx x)) as [a2|],
             (bind (exec_dist' ctx x b) (exec_dist' ctx y)) as [b2|];
      cbn in Hs' |- *; try contradiction; [|exact I].
    apply foldM_both; [|exact Hs'].
    intros d a0 b0 _. apply exec_dist_equiv.
  - apply (both_ok_or_raise_trans dist_loop_equiv _
             (foldM (exec_dist' ctx) l' a) _ dist_loop_equiv_trans).
    + apply IH1; [exact Hno|apply dist_loop_equiv_refl].
    + apply IH2; [|exact Hab]. intros d e Hd He Hin.
      apply (Hno d e); [|exact He|].
      * apply Permutation_in with l'; [now apply Permutation_sym|exact Hd].
      * apply Permutation_in with l'; [now apply Permutation_sym|exact Hin].
Qed.

End Order.

Lemma ancestor_ids_In (nodes : node_id -> Distribution) (dists : list node_id)
    (j : node_id) :
  In j (ancestor_ids nodes dists) <->
  exists d e, In d dists /\ In e (ancestors (nodes d)) /\ snd e = j.
Proof.
  unfold ancestor_ids. rewrite in_flat_map. split.
  - intros (d & Hd & Hj). apply in_map_iff in Hj. destruct Hj as (e & He & Hin).
    now exists d, e.
  - intros (d & e & Hd & He & Hj). exists d. split; [exact Hd|].
    apply in_map_iff. now exists e.
Qed.

Lemma NodeState_eq (a b : NodeState) :
  mag a = mag b -> kt_vec a = kt_vec b -> a = b.
Proof. destruct a, b; cbn; intros -> ->; reflexivity. Qed.

Lemma clear_mags_perm (nodes : node_id -> Distribution) (dists dists' : list node_id)
    (sA sB : store) :
  Permutation dists dists' -> same_store sA sB ->
  same_store (clear_mags nodes dists sA) (clear_mags nodes dists' sB).
Proof.
  intros Hp Hs j.
  destruct (in_dec Nat.eq_dec j (ancestor_ids nodes dists)) as [Hin|Hin].
  - apply ancestor_ids_In in Hin. destruct Hin as (d & e & Hd & He & <-).
    apply NodeState_eq.
    + rewrite (clear_mags_clears nodes dists sA d e Hd He).
      symmetry. apply (clear_mags_clears nodes dists' sB d e); [|exact He].
      now apply Permutation_in with dists.
    + now rewrite !clear_mags_kt_vec, Hs.
  - rewrite !clear_mags_other; [apply Hs| |].
    + intros d e Hd He Heq. apply Hin. apply ancestor_ids_In. exists d, e.
      repeat split; auto. apply Permutation_in with dists'; auto.
      now apply Permutation_sym.
    + intros d e Hd He Heq. apply Hin. apply ancestor_ids_In. now exists d, e.
Qed.

Section OrderOfPass.

Variable nodes : node_id -> Distribution.
Variable data : SimData.
Variable min_emitted_signal min_latent_signal : R.
Variable return_mag_adc clear_state_mag : bool.

Local Abbreviation exec_dist' :=
  (exec_dist nodes data min_emitted_signal min_latent_signal return_mag_adc).
Local Abbreviation exec_rep' :=
  (exec_rep nodes data min_emitted_signal min_latent_signal return_mag_adc
     clear_state_mag).
Local Abbreviation execute_graph' :=
  (execute_graph nodes data min_emitted_signal min_latent_signal return_mag_adc
     clear_state_mag).

Lemma exec_rep_perm (gs : vec3) (dists dists' : list node_id) (rep : Repetition)
    (lsA lsB : LoopState) :
  Permutation dists dists' -> no_ancestor_inside nodes dists ->
  loop_state_equiv lsA lsB ->
  both_ok_or_raise loop_state_equiv (exec_rep' gs (dists, rep) lsA)
    (exec_rep' gs (dists', rep) lsB).
Proof.
  intros Hp Hno (Hs & Ht & Hsig & Hm). unfold exec_rep. rewrite Ht.
  destruct (rep_ctx data gs (ls_t0 lsB) rep) as [ctx|e]; cbn [bind]; [|exact I].
  pose proof (fold_exec_dist_perm nodes data min_emitted_signal min_latent_signal
                return_mag_adc ctx dists dists' Hp Hno
                {| dl_store := ls_store lsA;
                   dl_rep_sig := zeros2 (count_true (c_adc ctx)) (coil_count data);
                   dl_mag_adc_rep := [] |}
                {| dl_store := ls_store lsB;
                   dl_rep_sig := zeros2 (count_true (c_adc ctx)) (coil_count data);
                   dl_mag_adc_rep := [] |}) as Hf.
  assert (Hf' := Hf (Logic.conj Hs (Permutation_refl _))).
  destruct (foldM _ dists _) as [a|], (foldM _ dists' _) as [b|];
    cbn in Hf' |- *; try contradiction; [|exact I].
  destruct Hf' as (H1 & H3). split; [|split; [|split]].
  - destruct clear_state_mag; [now apply clear_mags_perm|exact H1].
  - reflexivity.
  - cbn [ls_signal]. rewrite !length_app. now rewrite Hsig.
  - apply Forall2_app; [exact Hm|]. constructor; [exact H3|constructor].
Qed.

Lemma run_reps_perm (gs : vec3) (layers layers' : list (list node_id)) :
  Forall2 (@Permutation node_id) layers layers' ->
  Forall (no_ancestor_inside nodes) layers ->
  forall (rs : list Repetition) (lsA lsB : LoopState),
    loop_state_equiv lsA lsB ->
    both_ok_or_raise loop_state_equiv
      (foldM (exec_rep' gs) (combine layers rs) lsA)
      (foldM (exec_rep' gs) (combine layers' rs) lsB).
Proof.
  induction 1 as [|l l' layers layers' Hp _ IH]; intros Hno rs lsA lsB Hab.
  - exact Hab.
  - destruct rs as [|rep rs]; [exact Hab|]. cbn [combine foldM].
    inversion Hno as [|? ? Hl Hrest]; subst.
    pose proof (exec_rep_perm gs l l' rep lsA lsB Hp Hl Hab) as Hx.
    destruct (exec_rep' gs (l, rep) lsA) as [a|], (exec_rep' gs (l', rep) lsB) as [b|];
      cbn in Hx |- *; try contradiction; [|exact I].
    now apply IH.
Qed.

(** X17: the order in which the distributions of a repetition are visited
    does not matter to the states the pass leaves when none of them is an
    ancestor of one of them: with the lists graph[1], graph[2], ... permuted,
    the pass raises in both cases or returns in both, leaves the same
    magnetisation and k-tau vector at every distribution, and returns the
    same measured magnetisations for each repetition, in a permuted order.
    (The signal is the sum of the same contributions, added in the order of
    the visits.) *)
Theorem order_within_repetition_keeps_states (l0 : list node_id)
    (rest rest' : list (list node_id)) (seq : Sequence)
    (intitial_mag : option cten) (s0 : store) :
  Forall2 (@Permutation node_id) rest rest' ->
  Forall (no_ancestor_inside nodes) rest ->
  both_ok_or_raise states_equiv
    (execute_graph' (l0 :: rest) seq intitial_mag s0)
    (execute_graph' (l0 :: rest') seq intitial_mag s0).
Proof.
  intros Hp Hno. unfold execute_graph. destruct l0 as [|root r]; [exact I|].
  unfold run_reps, paired. cbn [tl].
  pose proof (run_reps_perm (grad_scale data seq) rest rest' Hp Hno (reps seq)
                (init_state root intitial_mag s0) (init_state root intitial_mag s0))
    as Hrun.
  assert (Hrun' := Hrun (Logic.conj (fun j => eq_refl)
                           (Logic.conj eq_refl
                              (Logic.conj eq_refl (Forall2_nil _))))).
  destruct (foldM _ (combine rest (reps seq)) _) as [a|],
           (foldM _ (combine rest' (reps seq)) _) as [b|];
    cbn in Hrun' |- *; try contradiction; [|exact I].
  destruct Hrun' as (H1 & _ & H3 & H4).
  destruct (ls_signal a) as [|sa la], (ls_signal b) as [|sb lb];
    try discriminate; cbn; [exact I|].
  split; [exact H1|].
  destruct return_mag_adc; [exact H4|exact I].
Qed.

End OrderOfPass.

Lemma example_no_ancestor_inside :
  no_ancestor_inside GraphExamples.nodes [4; 1; 2; 3]%nat.
Proof.
  intros d e Hd He Hin.
  repeat (destruct Hd as [<-|Hd];
          [destruct He as [<-|[]]; cbn in Hin;
           repeat (destruct Hin as [Hin|Hin]; [discriminate|]); exact Hin|]).
  contradiction.
Qed.

Lemma order_within_repetition_keeps_states_witness :
  both_ok_or_raise states_equiv
    (execute_graph GraphExamples.nodes Examples.phantom 0.01 0.01 true true
       [[0]; [4; 1; 2; 3]]%nat Examples.seq1 None Examples.fresh_store)
    (execute_graph GraphExamples.nodes Examples.phantom 0.01 0.01 true true
       [[0]; [3; 2; 1; 4]]%nat Examples.seq1 None Examples.fresh_store).
Proof.
  apply (order_within_repetition_keeps_states GraphExamples.nodes Examples.phantom
           0.01 0.01 true true [0%nat] [[4; 1; 2; 3]%nat] [[3; 2; 1; 4]%nat]
           Examples.seq1 None Examples.fresh_store).
  - constructor; [|constructor]. apply (Permutation_rev [4; 1; 2; 3]%nat).
  - constructor; [exact example_no_ancestor_inside|constructor].
Defined.
